(** * familinx: the identity-mapped Person registry, its cached properties
      and the two graph traversals (descendants, walk)

    A shallow embedding of [familinx.py].  Person instances live in a heap
    and are named by their address, so that instance identity ([is]) and
    the id-based equality ([__eq__]) are two different things, as they are
    in the interpreter.  Every method is a function in a state-and-exception
    monad over the heap, the registry dict [_people] and a counter of the
    statements sent to the database cursor. *)

From Stdlib Require Import ZArith List Bool Lia.
From stdpp Require Import gmap strings list pretty.

Set Default Proof Using "Type".
Set Warnings "-register-all".

(** ** Python values *)

(** Address of a Person instance: [a is b] is equality of addresses. *)
Abbreviation ref := nat (only parsing).

(** The exceptions the module can raise.  [RuntimeError] is what the
    interpreter raises when the call stack exceeds the recursion limit. *)
Inductive Exn : Type :=
| KeyError
| AttributeError
| TypeError
| RuntimeError
| SystemError.

Inductive Result (A : Type) : Type :=
| Ok (a : A)
| Raise (e : Exn).
Arguments Ok {A} a.
Arguments Raise {A} e.

(** [Location] and [Founder] are the two namedtuples of the module.  The
    coordinates are carried through uninterpreted; the median depth is
    stored as the row has it, which may be NULL ([None]). *)
Record Location : Type := mkLocation {
  lon : Z;
  lat : Z;
  country : string;
  continent : string;
  resolution : string
}.

Record Founder : Type := mkFounder {
  nleaves : Z;
  min_depth : Z;
  max_depth : Z;
  median_depth : option Z
}.

Inductive Value : Type :=
| VNone
| VInt (z : Z)
| VStr (s : string)
| VList (vs : list Value)
| VTuple (vs : list Value)
| VPerson (r : ref)
| VLocation (l : Location)
| VFounder (f : Founder)
| VObject (attrs : list (string * Value)).

(** ** The database behind the cursor

    One list of rows per table, in the order the server returns them.
    [relationship] holds the rows (Parent_Id, Child_Id); both the parents
    and the children query read this one table.  The columns that the
    module converts with [int] (Byear, Dyear, Nleaves, MinG, MaxG) are
    kept as the cursor delivers them: a number, or [None] for NULL. *)
Record FounderRow : Type := mkFounderRow {
  row_nleaves : option Z;
  row_min_depth : option Z;
  row_max_depth : option Z;
  row_median_depth : option Z
}.

Record DataStore : Type := mkDataStore {
  tbl_age : list (Z * Z);
  tbl_years : list (Z * (option Z * option Z));
  tbl_gender : list (Z * Z);
  tbl_location : list (Z * Location);
  tbl_founders : list (Z * FounderRow);
  relationship : list (Z * Z)
}.

(** [select <col> from <table> where Id = key]. *)
Definition select_where {A : Type} (key : Z) (rows : list (Z * A)) : list A :=
  map snd (List.filter (fun row => Z.eqb (fst row) key) rows).

(** [select Parent_Id from relationship where Child_Id = key]. *)
Definition select_parent_ids (db : DataStore) (key : Z) : list Z :=
  map fst (List.filter (fun row => Z.eqb (snd row) key) (relationship db)).

(** [select Child_Id from relationship where Parent_Id = key]. *)
Definition select_child_ids (db : DataStore) (key : Z) : list Z :=
  map snd (List.filter (fun row => Z.eqb (fst row) key) (relationship db)).

(** What the interpreter contributes to [Person.__hash__]: the hashes of
    the class object [Person] and of the builtin function [id] (both are
    hashed by address, fixed for a run) and the hash of a tuple of them. *)
Record Runtime : Type := mkRuntime {
  hash_class_Person : Z;
  hash_builtin_id : Z;
  hash_tuple : list Z -> Z
}.

(** ** The state: heap of Person instances and the FamiLinx object *)

(** A Person instance: [self.id] and the dict that [cached_property] keeps
    under [__cached_properties] in [self.__dict__], keyed by method name.
    ([self.db] is the one FamiLinx object of the world; [self._years] is
    never read.) *)
Record PersonObj : Type := mkPersonObj {
  person_id : Z;
  cached_properties : gmap string Value
}.

Record World : Type := mkWorld {
  heap : list PersonObj;
  people : gmap Z ref;
  nqueries : nat
}.

Definition empty_world : World :=
  {| heap := []; people := ∅; nqueries := 0 |}.

(** ** State and exception monad *)

Definition M (A : Type) : Type := World -> Result A * World.

Definition ret {A : Type} (a : A) : M A := fun w => (Ok a, w).

Definition raise {A : Type} (e : Exn) : M A := fun w => (Raise e, w).

Definition bind {A B : Type} (m : M A) (k : A -> M B) : M B :=
  fun w =>
    match m w with
    | (Ok a, w') => k a w'
    | (Raise e, w') => (Raise e, w')
    end.

Declare Scope py_scope.
Delimit Scope py_scope with py.
Notation "'let*' x ':=' m 'in' k" := (bind m (fun x => k))
  (at level 10, x name, m at level 100, k at level 200) : py_scope.
Local Open Scope py_scope.

Fixpoint mapM {A B : Type} (f : A -> M B) (xs : list A) : M (list B) :=
  match xs with
  | [] => ret []
  | x :: xs' => let* y := f x in let* ys := mapM f xs' in ret (y :: ys)
  end.

(** Dereference an instance.  References are only ever produced by
    allocation, so the failure branch is not reachable from the API. *)
Definition deref (r : ref) : M PersonObj :=
  fun w =>
    match heap w !! r with
    | Some o => (Ok o, w)
    | None => (Raise SystemError, w)
    end.

Definition self_id (self : ref) : M Z :=
  let* o := deref self in ret (person_id o).

(** [self.db.cur.execute(sql, (self.id,))]: one statement sent to the
    server; the cursor then holds the selected rows. *)
Definition execute {A : Type} (rows : list A) : M (list A) :=
  fun w =>
    (Ok rows, {| heap := heap w; people := people w;
                 nqueries := S (nqueries w) |}).

(** ** cached_property *)

Module CachedProperty.

(** [self.__dict__.setdefault('__cached_properties', {})]: the dict is
    created empty on first use, which an empty map models from the
    start. *)
Definition cache_of (self : ref) : M (gmap string Value) :=
  let* o := deref self in ret (cached_properties o).

(** In-place update of the dict held by the instance at [self]. *)
Definition cache_update (self : ref)
    (f : gmap string Value -> gmap string Value) : M unit :=
  fun w =>
    match heap w !! self with
    | Some o =>
        (Ok tt,
         {| heap := <[self := {| person_id := person_id o;
                                 cached_properties :=
                                   f (cached_properties o) |}]> (heap w);
            people := people w;
            nqueries := nqueries w |})
    | None => (Raise SystemError, w)
    end.

(** [getter]: the lookup is the only statement inside [try]; the method
    runs in the [except KeyError] handler, so whatever it raises reaches
    the caller and nothing is stored. *)
Definition getter (key : string) (method : ref -> M Value)
    (self : ref) : M Value :=
  let* cached := cache_of self in
  match cached !! key with
  | Some v => ret v
  | None =>
      let* result := method self in
      let* _ := cache_update self (insert key result) in
      ret result
  end.

Definition setter (key : string) (self : ref) (val : Value) : M unit :=
  cache_update self (insert key val).

(** [del cached_properties[key]] with the KeyError swallowed. *)
Definition deleter (key : string) (self : ref) : M unit :=
  cache_update self (delete key).

Definition clear_cached_properties (self : ref) : M unit :=
  cache_update self (fun _ => ∅).

End CachedProperty.

(** ** FamiLinx: the registry *)

Module FamiLinx.

Definition MIN_PERSON_ID : Z := 1.
Definition MAX_PERSON_ID : Z := 43589549.

(** [Person(id, self)]: a new instance, nothing cached. *)
Definition new_person (id : Z) : PersonObj :=
  {| person_id := id; cached_properties := ∅ |}.

(** [get_person]: a Person defines neither [__nonzero__] nor [__len__],
    so [not person] holds exactly when [_people.get(id)] gave None. *)
Definition get_person (id : Z) : M ref :=
  fun w =>
    match people w !! id with
    | Some person => (Ok person, w)
    | None =>
        let person := length (heap w) in
        (Ok person,
         {| heap := heap w ++ [new_person id];
            people := <[id := person]> (people w);
            nqueries := nqueries w |})
    end.

(** [iter_people]: the instances for [range(start, end)], in order. *)
Definition iter_people (start end_ : Z) : M (list ref) :=
  mapM get_person (seqZ start (end_ - start)).

(** Truth value of the argument [id] in [if id:]; [None] is the default
    of the parameter. *)
Definition truthy (id : option Z) : bool :=
  match id with
  | Some i => negb (Z.eqb i 0)
  | None => false
  end.

Definition set_people (f : gmap Z ref -> gmap Z ref) : M unit :=
  fun w =>
    (Ok tt,
     {| heap := heap w; people := f (people w); nqueries := nqueries w |}).

Definition clear_cache (id : option Z) : M unit :=
  if truthy id then
    match id with
    | Some i =>
        set_people (fun ps =>
                      match ps !! i with
                      | Some _ => delete i ps
                      | None => ps
                      end)
    | None => ret tt
    end
  else set_people (fun _ => ∅).

End FamiLinx.

(** ** Hash containers keyed by objects

    A [set] or [dict] finds a key by probing the entries whose hash equals
    the hash of the key, and accepts an entry that is the same object or
    that compares equal with [==].  The element list is kept in insertion
    order; the order in which a real table is probed or iterated is not
    specified and nothing below depends on it. *)

Section Containers.

Context (hash : ref -> Z) (eq : ref -> ref -> M bool).

Fixpoint set_contains (s : list ref) (x : ref) : M bool :=
  match s with
  | [] => ret false
  | y :: s' =>
      if Z.eqb (hash y) (hash x) then
        if Nat.eqb y x then ret true
        else
          let* same := eq y x in
          if same then ret true else set_contains s' x
      else set_contains s' x
  end.

Definition set_add (s : list ref) (x : ref) : M (list ref) :=
  let* present := set_contains s x in
  if present then ret s else ret (s ++ [x]).

Fixpoint dict_get {V : Type} (d : list (ref * V)) (x : ref)
    : M (option V) :=
  match d with
  | [] => ret None
  | (y, v) :: d' =>
      if Z.eqb (hash y) (hash x) then
        if Nat.eqb y x then ret (Some v)
        else
          let* same := eq y x in
          if same then ret (Some v) else dict_get d' x
      else dict_get d' x
  end.

(** [d[x]]: KeyError when no entry matches. *)
Definition dict_getitem {V : Type} (d : list (ref * V)) (x : ref) : M V :=
  let* found := dict_get d x in
  match found with
  | Some v => ret v
  | None => raise KeyError
  end.

(** [d[x] = v]: the value of a matching entry is replaced and its key
    object kept; otherwise a new entry is added. *)
Fixpoint dict_setitem {V : Type} (d : list (ref * V)) (x : ref) (v : V)
    : M (list (ref * V)) :=
  match d with
  | [] => ret [(x, v)]
  | (y, u) :: d' =>
      if Z.eqb (hash y) (hash x) then
        if Nat.eqb y x then ret ((y, v) :: d')
        else
          let* same := eq y x in
          if same then ret ((y, v) :: d')
          else let* d'' := dict_setitem d' x v in ret ((y, u) :: d'')
      else let* d'' := dict_setitem d' x v in ret ((y, u) :: d'')
  end.

End Containers.

(** [queue.pop()]: removes and returns the last element. *)
Definition list_pop {A : Type} (l : list A) : option (list A * A) :=
  match rev l with
  | [] => None
  | x :: r => Some (rev r, x)
  end.

(** ** Person *)

Module Person.

(** The code-to-name table [GENDERS]. *)
Definition GENDERS (code : Z) : option string :=
  if Z.eqb code 1 then Some "male"%string
  else if Z.eqb code 2 then Some "female"%string
  else None.

(** [__hash__]: [hash((Person, id))].  The name [id] is not bound in the
    method, so it is the builtin function; [self] is not read. *)
Definition __hash__ (rt : Runtime) (self : ref) : Z :=
  hash_tuple rt [hash_class_Person rt; hash_builtin_id rt].

(** [v.id]: attribute lookup on an arbitrary value. *)
Definition getattr_id (v : Value) : M Value :=
  match v with
  | VPerson r => let* i := self_id r in ret (VInt i)
  | VObject attrs =>
      match find (fun kv => String.eqb (fst kv) "id") attrs with
      | Some kv => ret (snd kv)
      | None => raise AttributeError
      end
  | _ => raise AttributeError
  end.

(** [i == v] for an integer [i].  Against a Person the integer defers to
    the reflected [Person.__eq__], which looks for [id] on the integer. *)
Definition int_eq (i : Z) (v : Value) : M bool :=
  match v with
  | VInt j => ret (Z.eqb i j)
  | VPerson _ => raise AttributeError
  | _ => ret false
  end.

(** [__eq__]: [self.id == other.id]. *)
Definition __eq__ (self : ref) (other : Value) : M bool :=
  let* i := self_id self in
  let* j := getattr_id other in
  int_eq i j.

(** [a != b] between two Person instances.  The class defines [__eq__]
    but no [__ne__]; the module is Python 2 code ([iteritems],
    [basestring], indexing the result of [map]), where [!=] does not
    consult [__eq__] and falls back to comparing the two objects by
    address. *)
Definition __ne__ (a b : ref) : bool := negb (Nat.eqb a b).

Definition person_eq (a b : ref) : M bool := __eq__ a (VPerson b).

(** [int(v)] for a value of a row: a number is returned as it is, and
    [int(None)] raises TypeError. *)
Definition to_int (v : option Z) : M Z :=
  match v with
  | Some z => ret z
  | None => raise TypeError
  end.

Section WithStore.

Context (rt : Runtime) (db : DataStore).

Definition age_method (self : ref) : M Value :=
  let* id := self_id self in
  let* rows := execute (select_where id (tbl_age db)) in
  match rows with
  | a :: _ => ret (VInt a)
  | [] => ret VNone
  end.

Definition age : ref -> M Value := CachedProperty.getter "age" age_method.

(** [map(int, row)] is a list, and [int] is applied to Byear and then to
    Dyear; the fallback is the tuple (None, None). *)
Definition years_method (self : ref) : M Value :=
  let* id := self_id self in
  let* rows := execute (select_where id (tbl_years db)) in
  match rows with
  | (b, d) :: _ =>
      let* byear := to_int b in
      let* dyear := to_int d in
      ret (VList [VInt byear; VInt dyear])
  | [] => ret (VTuple [VNone; VNone])
  end.

Definition years : ref -> M Value :=
  CachedProperty.getter "years" years_method.

Definition parents_method (self : ref) : M Value :=
  let* id := self_id self in
  let* rows := execute (select_parent_ids db id) in
  match rows with
  | _ :: _ =>
      let* ps := mapM FamiLinx.get_person rows in
      ret (VList (map VPerson ps))
  | [] => ret (VList [])
  end.

Definition parents : ref -> M Value :=
  CachedProperty.getter "parents" parents_method.

Definition children_method (self : ref) : M Value :=
  let* id := self_id self in
  let* rows := execute (select_child_ids db id) in
  match rows with
  | _ :: _ =>
      let* ps := mapM FamiLinx.get_person rows in
      ret (VList (map VPerson ps))
  | [] => ret (VList [])
  end.

Definition children : ref -> M Value :=
  CachedProperty.getter "children" children_method.

(** [self.GENDERS[code]]: KeyError for a code outside the table. *)
Definition gender_method (self : ref) : M Value :=
  let* id := self_id self in
  let* rows := execute (select_where id (tbl_gender db)) in
  match rows with
  | code :: _ =>
      match GENDERS code with
      | Some name => ret (VStr name)
      | None => raise KeyError
      end
  | [] => ret VNone
  end.

Definition gender : ref -> M Value :=
  CachedProperty.getter "gender" gender_method.

Definition location_method (self : ref) : M Value :=
  let* id := self_id self in
  let* rows := execute (select_where id (tbl_location db)) in
  match rows with
  | l :: _ => ret (VLocation l)
  | [] => ret VNone
  end.

Definition location : ref -> M Value :=
  CachedProperty.getter "location" location_method.

Definition founder_stats_method (self : ref) : M Value :=
  let* id := self_id self in
  let* rows := execute (select_where id (tbl_founders db)) in
  match rows with
  | row :: _ =>
      let* n := to_int (row_nleaves row) in
      let* lo := to_int (row_min_depth row) in
      let* hi := to_int (row_max_depth row) in
      ret (VFounder {| nleaves := n; min_depth := lo; max_depth := hi;
                       median_depth := row_median_depth row |})
  | [] => ret VNone
  end.

Definition founder_stats : ref -> M Value :=
  CachedProperty.getter "founder_stats" founder_stats_method.

(** Iterating a cached list of Persons.  A value stored by hand that is
    not a list of Persons makes the callers below raise. *)
Fixpoint persons_of (vs : list Value) : option (list ref) :=
  match vs with
  | [] => Some []
  | VPerson r :: vs' =>
      match persons_of vs' with
      | Some rs => Some (r :: rs)
      | None => None
      end
  | _ :: _ => None
  end.

Definition as_persons (v : Value) : M (list ref) :=
  match v with
  | VList vs =>
      match persons_of vs with
      | Some rs => ret rs
      | None => raise TypeError
      end
  | _ => raise TypeError
  end.

Definition children_list (self : ref) : M (list ref) :=
  let* v := children self in as_persons v.

Definition parents_list (self : ref) : M (list ref) :=
  let* v := parents self in as_persons v.

Definition is_founder (self : ref) : M bool :=
  let* ps := parents_list self in
  ret (match ps with [] => true | _ => false end).

Definition is_leaf (self : ref) : M bool :=
  let* cs := children_list self in
  ret (match cs with [] => true | _ => false end).

(** [v == s] for a string literal [s], as in [parent.gender == 'female'].
    A Person on the left runs its [__eq__], which looks for [id] on the
    string. *)
Definition eq_str (v : Value) (s : string) : M bool :=
  match v with
  | VStr t => ret (String.eqb t s)
  | VPerson _ => raise AttributeError
  | _ => ret false
  end.

(** The loop of [mother] and [father]: the first parent whose gender is
    the wanted one; None when the loop runs out. *)
Fixpoint first_of_gender (wanted : string) (ps : list ref) : M Value :=
  match ps with
  | [] => ret VNone
  | parent :: ps' =>
      let* g := gender parent in
      let* hit := eq_str g wanted in
      if hit then ret (VPerson parent) else first_of_gender wanted ps'
  end.

Definition mother (self : ref) : M Value :=
  let* ps := parents_list self in
  first_of_gender "female" ps.

Definition father (self : ref) : M Value :=
  let* ps := parents_list self in
  first_of_gender "male" ps.

(** The generator expression of [partners], consumed by [set(...)]:
    the inner loop over one child's parents ... *)
Fixpoint partners_inner (self : ref) (ps : list ref) (acc : list ref)
    : M (list ref) :=
  match ps with
  | [] => ret acc
  | parent :: ps' =>
      if __ne__ parent self then
        let* acc' := set_add (__hash__ rt) person_eq acc parent in
        partners_inner self ps' acc'
      else partners_inner self ps' acc
  end.

(** ... and the outer loop over the children; [child.parents] is read
    when the loop reaches the child. *)
Fixpoint partners_outer (self : ref) (cs : list ref) (acc : list ref)
    : M (list ref) :=
  match cs with
  | [] => ret acc
  | child :: cs' =>
      let* ps := parents_list child in
      let* acc' := partners_inner self ps acc in
      partners_outer self cs' acc'
  end.

Definition partners_method (self : ref) : M Value :=
  let* cs := children_list self in
  let* s := partners_outer self cs [] in
  ret (VList (map VPerson s)).

Definition partners : ref -> M Value :=
  CachedProperty.getter "partners" partners_method.

(** *** descendants

    The generator run to exhaustion; the result is the sequence of the
    yielded instances.  [fuel] bounds the number of iterations of the
    [while] loop, and [None] means the bound was reached. *)
Fixpoint descendants_loop (fuel : nat) (queue visited out : list ref)
    : M (option (list ref)) :=
  match fuel with
  | O => ret None
  | S fuel' =>
      match list_pop queue with
      | None => ret (Some out)
      | Some (queue', person) =>
          let* seen := set_contains (__hash__ rt) person_eq
                         visited person in
          if seen then descendants_loop fuel' queue' visited out
          else
            let* visited' := set_add (__hash__ rt) person_eq
                               visited person in
            let* cs := children_list person in
            descendants_loop fuel' (queue' ++ cs) visited'
              (out ++ [person])
      end
  end.

Definition descendants (fuel : nat) (self : ref)
    : M (option (list ref)) :=
  let* queue := children_list self in
  descendants_loop fuel queue [] [].

(** *** walk *)

(** What the local variable [visitable] can hold when the loop runs:
    the caller's predicate, or one of the two lambdas built when
    [radius] is true. *)
Inductive Visitable : Type :=
| UserPredicate (f : ref -> M bool)
| LambdaBoth
| LambdaDist.

(** The [if radius:] block.  [radius] is true when it is given and is
    not zero; a callable is always true. *)
Definition bind_visitable (visitable : option (ref -> M bool))
    (radius : option Z) : option Visitable :=
  if FamiLinx.truthy radius then
    match visitable with
    | Some _ => Some LambdaBoth
    | None => Some LambdaDist
    end
  else
    match visitable with
    | Some f => Some (UserPredicate f)
    | None => None
    end.

(** [dists[p] <= radius]. *)
Definition within_radius (dists : list (ref * Z)) (radius : Z)
    (p : ref) : M bool :=
  let* d := dict_getitem (__hash__ rt) person_eq dists p in
  ret (Z.leb d radius).

(** A call [callee(p)].  The free names of a lambda body are looked up
    when the body runs: [cell] is what the variable [visitable] of
    [walk] holds at that time, and [depth] is the number of frames
    left before the recursion limit. *)
Fixpoint call_visitable (depth : nat) (cell : Visitable)
    (dists : list (ref * Z)) (radius : Z) (callee : Visitable)
    (p : ref) : M bool :=
  match depth with
  | O => raise RuntimeError
  | S depth' =>
      match callee with
      | UserPredicate f => f p
      | LambdaBoth =>
          let* ok := call_visitable depth' cell dists radius cell p in
          if ok then within_radius dists radius p else ret false
      | LambdaDist => within_radius dists radius p
      end
  end.

(** [{p: 1 for p in neighbors}]. *)
Fixpoint dists_init (neighbors : list ref) (dists : list (ref * Z))
    : M (list (ref * Z)) :=
  match neighbors with
  | [] => ret dists
  | p :: ps =>
      let* dists' := dict_setitem (__hash__ rt) person_eq dists p 1%Z in
      dists_init ps dists'
  end.

(** The [for neighbor in neighbors] loop. *)
Fixpoint dists_relax (neighbors : list ref) (dist : Z)
    (dists : list (ref * Z)) : M (list (ref * Z)) :=
  match neighbors with
  | [] => ret dists
  | neighbor :: ns =>
      let* known := dict_get (__hash__ rt) person_eq dists neighbor in
      let d := Z.min (default (dist + 1)%Z known) (dist + 1)%Z in
      let* dists' := dict_setitem (__hash__ rt) person_eq dists
                       neighbor d in
      dists_relax ns dist dists'
  end.

(** [person.children + person.parents]. *)
Definition neighbors_of (person : ref) : M (list ref) :=
  let* cs := children_list person in
  let* ps := parents_list person in
  ret (cs ++ ps).

Fixpoint walk_loop (fuel depth : nat) (cell : option Visitable)
    (radius : Z) (queue visited : list ref) (dists : list (ref * Z))
    (out : list ref) : M (option (list ref)) :=
  match fuel with
  | O => ret None
  | S fuel' =>
      match list_pop queue with
      | None => ret (Some out)
      | Some (queue', person) =>
          let* seen := set_contains (__hash__ rt) person_eq
                         visited person in
          let* go :=
            (if seen then ret false
             else
               match cell with
               | None => ret true
               | Some c => call_visitable depth c dists radius c person
               end) in
          if go then
            let* visited' := set_add (__hash__ rt) person_eq
                               visited person in
            let* neighbors := neighbors_of person in
            let* dist := dict_getitem (__hash__ rt) person_eq
                           dists person in
            let* dists' := dists_relax neighbors dist dists in
            walk_loop fuel' depth cell radius (queue' ++ neighbors)
              visited' dists' (out ++ [person])
          else
            walk_loop fuel' depth cell radius queue' visited dists out
      end
  end.

(** [walk(self, visitable, radius)], run to exhaustion.  [depth] is the
    recursion limit of the interpreter. *)
Definition walk (fuel depth : nat) (self : ref)
    (visitable : option (ref -> M bool)) (radius : option Z)
    : M (option (list ref)) :=
  let cell := bind_visitable visitable radius in
  let* neighbors := neighbors_of self in
  let queue := self :: neighbors in
  let* dists := dists_init neighbors [] in
  let* dists0 := dict_setitem (__hash__ rt) person_eq dists self 0%Z in
  walk_loop fuel depth cell (default 0%Z radius) queue [] dists0 [].

End WithStore.

End Person.

(** ** The lazy fields, as one family *)

Inductive Field : Type :=
| FAge
| FYears
| FGender
| FLocation
| FParents
| FChildren
| FFounderStats.

(** The key of a field in the cache is the name of its method. *)
Definition field_key (f : Field) : string :=
  match f with
  | FAge => "age"
  | FYears => "years"
  | FGender => "gender"
  | FLocation => "location"
  | FParents => "parents"
  | FChildren => "children"
  | FFounderStats => "founder_stats"
  end.

Definition field_method (db : DataStore) (f : Field) : ref -> M Value :=
  match f with
  | FAge => Person.age_method db
  | FYears => Person.years_method db
  | FGender => Person.gender_method db
  | FLocation => Person.location_method db
  | FParents => Person.parents_method db
  | FChildren => Person.children_method db
  | FFounderStats => Person.founder_stats_method db
  end.

(** [p.<field>], [p.<field> = v] and [del p.<field>]. *)
Definition field_get (db : DataStore) (f : Field) : ref -> M Value :=
  CachedProperty.getter (field_key f) (field_method db f).

Definition field_set (f : Field) : ref -> Value -> M unit :=
  CachedProperty.setter (field_key f).

Definition field_del (f : Field) : ref -> M unit :=
  CachedProperty.deleter (field_key f).

(** ** Vocabulary of the statements *)

(** The identifier of the instance at an address. *)
Definition id_of (w : World) (r : ref) : option Z :=
  person_id <$> heap w !! r.

Definition is_person (v : Value) : bool :=
  match v with
  | VPerson _ => true
  | _ => false
  end.

(** The value of the attribute [id] of a value that is not a Person. *)
Definition id_attribute (v : Value) : option Value :=
  match v with
  | VObject attrs =>
      snd <$> find (fun kv => String.eqb (fst kv) "id") attrs
  | _ => None
  end.

(** One row of [relationship]: [b] is a child of [a]. *)
Definition child_edge (db : DataStore) (a b : Z) : Prop :=
  In b (select_child_ids db a).

(** [b] is reached from [a] by one or more child edges. *)
Inductive reach (db : DataStore) : Z -> Z -> Prop :=
| reach_child (a b : Z) : child_edge db a b -> reach db a b
| reach_more (a b c : Z) : child_edge db a b -> reach db b c -> reach db a c.

(** Every registry entry names an allocated instance that carries the id
    it is filed under, and a cached [children] list is a list of instances
    whose ids are the rows the children query returns. *)
Definition registry_sound (w : World) : Prop :=
  forall (id : Z) (r : ref), people w !! id = Some r -> id_of w r = Some id.

Definition children_from_store (db : DataStore) (w : World) : Prop :=
  forall (r : ref) (o : PersonObj) (v : Value),
    heap w !! r = Some o ->
    cached_properties o !! "children" = Some v ->
    exists rs : list ref,
      v = VList (map VPerson rs) /\
      Forall2 (fun r' i => id_of w r' = Some i) rs
        (select_child_ids db (person_id o)).

Definition coherent (db : DataStore) (w : World) : Prop :=
  registry_sound w /\ children_from_store db w.

(** ** Sequences of calls on one registry *)

(** A call a client can make.  The predicate given to [walk] is a pure
    test on the instance. *)
Inductive Op : Type :=
| OGetPerson (id : Z)
| OIterPeople (start end_ : Z)
| ORead (f : Field) (p : ref)
| OAssign (f : Field) (p : ref) (v : Value)
| OInvalidate (f : Field) (p : ref)
| OClearProperties (p : ref)
| OPartners (p : ref)
| ODescendants (fuel : nat) (p : ref)
| OWalk (fuel depth : nat) (p : ref) (visitable : option (ref -> bool))
    (radius : option Z)
| OClearCache (id : option Z).

Definition lift_predicate (visitable : option (ref -> bool))
    : option (ref -> M bool) :=
  match visitable with
  | Some g => Some (fun p => ret (g p))
  | None => None
  end.

(** The world after the call, whether it returned or raised. *)
Definition run_op (rt : Runtime) (db : DataStore) (op : Op) (w : World)
    : World :=
  match op with
  | OGetPerson id => snd (FamiLinx.get_person id w)
  | OIterPeople start end_ => snd (FamiLinx.iter_people start end_ w)
  | ORead f p => snd (field_get db f p w)
  | OAssign f p v => snd (field_set f p v w)
  | OInvalidate f p => snd (field_del f p w)
  | OClearProperties p => snd (CachedProperty.clear_cached_properties p w)
  | OPartners p => snd (Person.partners rt db p w)
  | ODescendants fuel p => snd (Person.descendants rt db fuel p w)
  | OWalk fuel depth p visitable radius =>
      snd (Person.walk rt db fuel depth p (lift_predicate visitable)
             radius w)
  | OClearCache id => snd (FamiLinx.clear_cache id w)
  end.

Definition run_ops (rt : Runtime) (db : DataStore) (ops : list Op)
    (w : World) : World :=
  fold_left (fun w' op => run_op rt db op w') ops w.

(** Whether the call removes the registry entry of [x]. *)
Definition evicts (op : Op) (x : Z) : bool :=
  match op with
  | OClearCache id =>
      if FamiLinx.truthy id then
        match id with
        | Some i => Z.eqb i x
        | None => false
        end
      else true
  | _ => false
  end.

(** ** Vocabulary of the proofs *)

(** The world after one more statement was sent to the cursor. *)
Definition queried (w : World) : World :=
  {| heap := heap w; people := people w; nqueries := S (nqueries w) |}.

(** The computation does not move the registry entry [x |-> r]. *)
Definition keeps {A : Type} (x : Z) (r : ref) (m : M A) : Prop :=
  forall w : World,
    people w !! x = Some r -> people (snd (m w)) !! x = Some r.

(** The instances at the addresses [rs] carry the ids [ids], in order. *)
Definition has_ids (w : World) (rs : list ref) (ids : list Z) : Prop :=
  Forall2 (fun r i => id_of w r = Some i) rs ids.

(** Every instance of [w] is still there in [w'], with its id. *)
Definition extends (w w' : World) : Prop :=
  forall (r : ref) (i : Z), id_of w r = Some i -> id_of w' r = Some i.

(** The loop of [descendants] as it acts on the ids of the instances it
    handles, the rows of the children query standing for [person.children].
    It is the device of the proofs below and is related to
    [Person.descendants_loop] by [descendants_loop_sim]. *)
Fixpoint descendants_ids (db : DataStore) (fuel : nat)
    (queue visited out : list Z) : option (list Z) :=
  match fuel with
  | O => None
  | S fuel' =>
      match list_pop queue with
      | None => Some out
      | Some (queue', i) =>
          if existsb (fun j => Z.eqb j i) visited then
            descendants_ids db fuel' queue' visited out
          else
            descendants_ids db fuel' (queue' ++ select_child_ids db i)
              (visited ++ [i]) (out ++ [i])
      end
  end.

(** Rows of [relationship] whose parent has not been visited. *)
Definition pending_rows (db : DataStore) (visited : list Z)
    : list (Z * Z) :=
  List.filter (fun row => negb (existsb (fun j => Z.eqb j (fst row)) visited))
    (relationship db).

(** What holds of the queue and the visited list at every iteration, for
    the traversal started at [p]. *)
Definition descendants_inv (db : DataStore) (p : Z) (queue visited : list Z)
    : Prop :=
  NoDup visited /\
  (forall x, In x queue \/ In x visited -> reach db p x) /\
  (forall c, child_edge db p c -> In c visited \/ In c queue) /\
  (forall a c, In a visited -> child_edge db a c ->
               In c visited \/ In c queue).

(** The computation takes coherent worlds to coherent worlds and moves no
    instance. *)
Definition stable {A : Type} (db : DataStore) (m : M A) : Prop :=
  forall w : World,
    coherent db w -> coherent db (snd (m w)) /\ extends w (snd (m w)).

(** Whether the call stores a value of the caller's under [children]. *)
Definition assigns_children (op : Op) : bool :=
  match op with
  | OAssign FChildren _ _ => true
  | _ => false
  end.

(** ** Example data *)

Definition example_runtime : Runtime :=
  {| hash_class_Person := 140230;
     hash_builtin_id := 8774;
     hash_tuple := fun hs => fold_left (fun x y => Z.lxor (x * 1000003) y)
                               hs 3430008%Z |}.

Definition store_of (genders : list (Z * Z)) (rel : list (Z * Z))
    : DataStore :=
  {| tbl_age := []; tbl_years := []; tbl_gender := genders;
     tbl_location := []; tbl_founders := []; relationship := rel |}.

(** Person 1 has child 2, and a bad row makes 1 a child of 2. *)
Definition cyclic_store : DataStore := store_of [] [(1, 2); (2, 1)]%Z.

(** Person 1 has the single child 2. *)
Definition pair_store : DataStore := store_of [] [(1, 2)]%Z.

(** Persons 1 and 2 are the parents of 3 and 4; 3 and 4 have child 5. *)
Definition family_store : DataStore :=
  store_of [(1, 1); (2, 2); (3, 7)]%Z
    [(1, 3); (2, 3); (1, 4); (2, 4); (3, 5); (4, 5)]%Z.

(** The world after [db.get_person(id)] on a fresh registry: the instance
    is at address 0. *)
Definition world_with (id : Z) : World :=
  snd (FamiLinx.get_person id empty_world).

(** Every instance of [w] is still there in [w'], with its id and with
    every value its cache held. *)
Definition cache_kept (w w' : World) : Prop :=
  forall (r : ref) (o : PersonObj),
    heap w !! r = Some o ->
    exists o' : PersonObj,
      heap w' !! r = Some o' /\
      person_id o' = person_id o /\
      forall (k : string) (v : Value),
        cached_properties o !! k = Some v ->
        cached_properties o' !! k = Some v.

(** The computation deallocates nothing and drops or changes no cached
    value. *)
Definition frames {A : Type} (m : M A) : Prop :=
  forall w : World, cache_kept w (snd (m w)).

(** The calls that only look things up: lookups in the registry, reads of
    lazy fields and the two traversals. *)
Definition reads_only (op : Op) : bool :=
  match op with
  | OGetPerson _ | OIterPeople _ _ | ORead _ _ | ODescendants _ _
  | OWalk _ _ _ _ _ => true
  | _ => false
  end.

(** The module-level function [clear_cached_properties(object)]: the whole
    dict of cached values is removed from the object (nothing happens when
    there is none), and the object is returned. *)
Definition clear_cached_properties (object : ref) : M ref :=
  let* _ := CachedProperty.clear_cached_properties object in
  ret object.

(** What is cached under [key] on any instance is a list of instances
    whose ids are the rows [select] returns for the id of the owner. *)
Definition cached_from_store (key : string) (select : Z -> list Z)
    (w : World) : Prop :=
  forall (r : ref) (o : PersonObj) (v : Value),
    heap w !! r = Some o ->
    cached_properties o !! key = Some v ->
    exists rs : list ref,
      v = VList (map VPerson rs) /\
      Forall2 (fun r' i => id_of w r' = Some i) rs (select (person_id o)).

(** A world in which the registry is sound and the cached [children] and
    [parents] lists are the ones the store returned. *)
Definition consistent (db : DataStore) (w : World) : Prop :=
  registry_sound w /\
  cached_from_store "children" (select_child_ids db) w /\
  cached_from_store "parents" (select_parent_ids db) w.

(** Every instance is the one the registry holds for its id: nothing was
    evicted while an instance was alive, so no two instances share an
    id. *)
Definition registry_complete (w : World) : Prop :=
  forall (r : ref) (i : Z), id_of w r = Some i -> people w !! i = Some r.

(** The computation takes consistent worlds to consistent worlds. *)
Definition steady {A : Type} (db : DataStore) (m : M A) : Prop :=
  forall w : World, consistent db w -> consistent db (snd (m w)).

(** Whether the call stores a value of the caller's under [children] or
    [parents]. *)
Definition assigns_relatives (op : Op) : bool :=
  match op with
  | OAssign FChildren _ _ | OAssign FParents _ _ => true
  | _ => false
  end.

(** The loops of [partners] as they act on ids: the parents [pids] of one
    child are added to the ids collected so far, except the id [i] of the
    Person itself and the ids already there. *)
Definition add_partner_ids (i : Z) (pids acc : list Z) : list Z :=
  fold_left
    (fun a j =>
       if Z.eqb j i then a
       else if existsb (fun k => Z.eqb k j) a then a else a ++ [j])
    pids acc.

Definition partner_ids (db : DataStore) (i : Z) (cids acc : list Z)
    : list Z :=
  fold_left (fun a c => add_partner_ids i (select_parent_ids db c) a)
    cids acc.

(** ** walk on identifiers

    The loop of [walk], without a predicate of the caller, as it acts on
    the ids of the instances it handles; the rows of the two queries stand
    for [person.children + person.parents] and an association list on ids
    for [dists].  It is the device of the proofs about [walk] and is
    related to [Person.walk_loop] by [walk_loop_sim]. *)

Definition ids_get (d : list (Z * Z)) (i : Z) : option Z :=
  snd <$> find (fun kv => Z.eqb (fst kv) i) d.

Fixpoint ids_set (d : list (Z * Z)) (i v : Z) : list (Z * Z) :=
  match d with
  | [] => [(i, v)]
  | (k, u) :: d' =>
      if Z.eqb k i then (k, v) :: d' else (k, u) :: ids_set d' i v
  end.

Definition neighbor_ids (db : DataStore) (i : Z) : list Z :=
  select_child_ids db i ++ select_parent_ids db i.

Definition init_ids (ns : list Z) (d : list (Z * Z)) : list (Z * Z) :=
  fold_left (fun d' n => ids_set d' n 1%Z) ns d.

Definition relax_ids (ns : list Z) (dist : Z) (d : list (Z * Z))
    : list (Z * Z) :=
  fold_left
    (fun d' n =>
       ids_set d' n (Z.min (default (dist + 1)%Z (ids_get d' n))
                       (dist + 1)%Z))
    ns d.

(** [limit] is the radius of the distance test, when one is installed. *)
Fixpoint walk_ids (db : DataStore) (fuel : nat) (limit : option Z)
    (queue visited : list Z) (dists : list (Z * Z)) (out : list Z)
    : Result (option (list Z)) :=
  match fuel with
  | O => Ok None
  | S fuel' =>
      match list_pop queue with
      | None => Ok (Some out)
      | Some (queue', i) =>
          if existsb (fun j => Z.eqb j i) visited then
            walk_ids db fuel' limit queue' visited dists out
          else
            match
              match limit with
              | None => Some true
              | Some r => (fun d => Z.leb d r) <$> ids_get dists i
              end
            with
            | None => Raise KeyError
            | Some false => walk_ids db fuel' limit queue' visited dists out
            | Some true =>
                match ids_get dists i with
                | None => Raise KeyError
                | Some dist =>
                    walk_ids db fuel' limit (queue' ++ neighbor_ids db i)
                      (visited ++ [i])
                      (relax_ids (neighbor_ids db i) dist dists)
                      (out ++ [i])
                end
            end
      end
  end.

(** Two ids joined by a row of [relationship], in either direction. *)
Definition linked (db : DataStore) (a b : Z) : Prop :=
  child_edge db a b \/ child_edge db b a.

(** [b] is [n] rows away from [a]. *)
Inductive hops (db : DataStore) (a : Z) : nat -> Z -> Prop :=
| hops_here : hops db a 0 a
| hops_next (n : nat) (b c : Z) :
    hops db a n b -> linked db b c -> hops db a (S n) c.

(** [b] is joined to [a] by rows of [relationship]. *)
Definition connected (db : DataStore) (a b : Z) : Prop :=
  exists n : nat, hops db a n b.

(** The cell of [walk] when no predicate is given. *)
Definition cell_of_limit (limit : option Z) : option Person.Visitable :=
  match limit with
  | Some _ => Some Person.LambdaDist
  | None => None
  end.

(** The instances that are keys of [dists] carry the ids that are keys of
    [dids], with the same values. *)
Definition has_dict (w : World) (dists : list (ref * Z))
    (dids : list (Z * Z)) : Prop :=
  Forall2 (fun e f => id_of w (fst e) = Some (fst f) /\ snd e = snd f)
    dists dids.

(** Rows of [relationship] one end of which has not been visited, counted
    once per such end. *)
Definition pending_ends (db : DataStore) (visited : list Z) : nat :=
  length (pending_rows db visited)
  + length (List.filter
              (fun row => negb (existsb (fun j => Z.eqb j (snd row)) visited))
              (relationship db)).

(** The outcome of the loop on the heap is the outcome of the loop on
    identifiers: the same end (result, exhausted fuel or exception), and
    the instances yielded carry the ids produced. *)
Definition agrees (pure : Result (option (list Z)))
    (run : Result (option (list ref)) * World) : Prop :=
  match pure, fst run with
  | Ok (Some res), Ok (Some resr) => has_ids (snd run) resr res
  | Ok None, Ok None => True
  | Raise e, Raise e' => e = e'
  | _, _ => False
  end.

(** With [fuel] iterations, the loop of [walk] on the heap and the loop on
    identifiers agree from any related pair of states. *)
Definition walk_sim_at (rt : Runtime) (db : DataStore) (depth : nat)
    (limit : option Z) (fuel : nat) : Prop :=
  forall (qr vr : list ref) (dr : list (ref * Z)) (outr : list ref)
         (q v : list Z) (d : list (Z * Z)) (out : list Z) (w : World),
    consistent db w ->
    has_ids w qr q -> has_ids w vr v -> has_dict w dr d ->
    has_ids w outr out ->
    cache_kept w
      (snd (Person.walk_loop rt db fuel depth (cell_of_limit limit)
              (default 0%Z limit) qr vr dr outr w)) /\
    consistent db
      (snd (Person.walk_loop rt db fuel depth (cell_of_limit limit)
              (default 0%Z limit) qr vr dr outr w)) /\
    agrees (walk_ids db fuel limit q v d out)
      (Person.walk_loop rt db fuel depth (cell_of_limit limit)
         (default 0%Z limit) qr vr dr outr w).

(** What [dists] holds: 0 for the start, and for every key a number of
    rows that lead from the start to it. *)
Definition dists_ok (db : DataStore) (start : Z) (d : list (Z * Z)) : Prop :=
  ids_get d start = Some 0%Z /\
  forall (k dv : Z),
    ids_get d k = Some dv ->
    exists n : nat, dv = Z.of_nat n /\ hops db start n k.

(** What holds at every iteration of the loop of [walk] started at
    [start]. *)
Definition walk_inv (db : DataStore) (start : Z) (limit : option Z)
    (queue visited : list Z) (d : list (Z * Z)) : Prop :=
  NoDup visited /\
  (forall x, In x queue -> ids_get d x <> None) /\
  dists_ok db start d /\
  (forall x, In x visited ->
     exists n : nat,
       hops db start n x /\
       forall r, limit = Some r -> (Z.of_nat n <= r)%Z) /\
  ((forall r, limit = Some r -> (0 <= r)%Z) ->
   In start visited \/ In start queue) /\
  (limit = None ->
   forall a c, In a visited -> linked db a c ->
               In c visited \/ In c queue).

(** The radius of the distance test [walk] installs: none when [radius]
    is omitted or zero. *)
Definition limit_of (radius : option Z) : option Z :=
  if FamiLinx.truthy radius then radius else None.

(** ** get_graphviz

    The generator run to exhaustion; the result is the list of the lines
    it yields.  [people] is a sequence that can be iterated twice (a list)
    and [node_style] the items of the dict in the order [iteritems] gives
    them, the attribute values being strings. *)

Definition newline : string := String (Ascii.ascii_of_nat 10) EmptyString.

(** [sep.join(parts)]. *)
Fixpoint join (sep : string) (parts : list string) : string :=
  match parts with
  | [] => ""
  | [x] => x
  | x :: rest => x +:+ sep +:+ join sep rest
  end.

(** [','.join('%s=%s' % (key, value) for key, value in param.iteritems())]. *)
Definition style_text (param : list (string * string)) : string :=
  join "," (map (fun kv => fst kv +:+ "=" +:+ snd kv) param).

(** ['%s [%s];\n' % (person.id, text)]. *)
Definition format_node (id : Z) (text : string) : string :=
  pretty id +:+ " [" +:+ text +:+ "];" +:+ newline.

(** ['%s -> %s;\n' % (person.id, child.id)]. *)
Definition format_edge (a b : Z) : string :=
  pretty a +:+ " -> " +:+ pretty b +:+ ";" +:+ newline.

Fixpoint graphviz_styles (node_style : list (ref * list (string * string)))
    : M (list string) :=
  match node_style with
  | [] => ret []
  | (person, param) :: rest =>
      let* id := self_id person in
      let* lines := graphviz_styles rest in
      ret (format_node id (style_text param) :: lines)
  end.

(** The loop over [person.children]. *)
Fixpoint graphviz_children (ids : list Z) (person : ref) (cs : list ref)
    : M (list string) :=
  match cs with
  | [] => ret []
  | child :: cs' =>
      let* cid := self_id child in
      if existsb (Z.eqb cid) ids then
        let* pid := self_id person in
        let* lines := graphviz_children ids person cs' in
        ret (format_edge pid cid :: lines)
      else graphviz_children ids person cs'
  end.

(** The loop over [people]. *)
Fixpoint graphviz_edges (db : DataStore) (ids : list Z) (people : list ref)
    : M (list string) :=
  match people with
  | [] => ret []
  | person :: people' =>
      let* cs := Person.children_list db person in
      let* lines := graphviz_children ids person cs in
      let* rest := graphviz_edges db ids people' in
      ret (lines ++ rest)
  end.

Definition get_graphviz (db : DataStore) (people : list ref)
    (node_style : list (ref * list (string * string))) : M (list string) :=
  let* ids := mapM self_id people in
  let* styles := graphviz_styles node_style in
  let* edges := graphviz_edges db ids people in
  ret (("digraph graphname {" +:+ newline) :: styles ++ edges
       ++ ["}" +:+ newline]).

(** The rows of [relationship] both ends of which are among [ids], the
    parents in the order of [ids]. *)
Definition drawn_rows (db : DataStore) (ids : list Z) : list (Z * Z) :=
  flat_map
    (fun a =>
       map (pair a)
         (List.filter (fun b => existsb (Z.eqb b) ids)
            (select_child_ids db a)))
    ids.

(** ** Person.__repr__

    [__repr__] and [__unicode__] have the same body,
    ['Person(id=%d)' % self.id]; the id of an instance made by the
    registry is an integer, which [%d] prints in decimal. *)
Definition __repr__ (self : ref) : M string :=
  let* id := self_id self in
  ret ("Person(id=" +:+ pretty id +:+ ")").

(** ** Lookups of one id *)

(** A lookup of the id [x] that leads from [w] to [w'] and gives the
    instance [r]: a call [get_person(x)] of the caller, or the call
    [self.db.get_person(row[0])] that a read of [children] or of
    [parents] makes for a row [x] of its query when nothing is cached for
    the field, [r] being the element of the list at the place of the
    row. *)
Inductive lookup (db : DataStore) (x : Z) (r : ref) (w w' : World) : Prop :=
| lookup_direct :
    FamiLinx.get_person x w = (Ok r, w') ->
    lookup db x r w w'
| lookup_children (p : ref) (o : PersonObj) (rs : list ref) (k : nat) :
    heap w !! p = Some o ->
    cached_properties o !! "children" = None ->
    Person.children db p w = (Ok (VList (map VPerson rs)), w') ->
    select_child_ids db (person_id o) !! k = Some x ->
    rs !! k = Some r ->
    lookup db x r w w'
| lookup_parents (p : ref) (o : PersonObj) (rs : list ref) (k : nat) :
    heap w !! p = Some o ->
    cached_properties o !! "parents" = None ->
    Person.parents db p w = (Ok (VList (map VPerson rs)), w') ->
    select_parent_ids db (person_id o) !! k = Some x ->
    rs !! k = Some r ->
    lookup db x r w w'.

(** The computation takes worlds in which [I] holds to worlds in which
    [I] holds, whether it returns or raises. *)
Definition maintains {A : Type} (I : World -> Prop) (m : M A) : Prop :=
  forall w : World, I w -> I (snd (m w)).

(** Since the world [w0], every instance of [w0] is still there with its
    id, and an instance with the id [x] that was made since is the one
    the registry holds for [x]. *)
Definition single (x : Z) (w0 w : World) : Prop :=
  extends w0 w /\
  forall r : ref,
    length (heap w0) <= r -> id_of w r = Some x -> people w !! x = Some r.

(** ** walk with a predicate, on identifiers

    The loop of [walk] when the caller gives a predicate and no radius,
    as it acts on the ids of the instances it handles; [h] is what the
    predicate answers for an id.  It is related to [Person.walk_loop] by
    [walk_test_loop_sim]. *)
Fixpoint walk_test_ids (db : DataStore) (fuel : nat) (h : Z -> bool)
    (queue visited : list Z) (dists : list (Z * Z)) (out : list Z)
    : Result (option (list Z)) :=
  match fuel with
  | O => Ok None
  | S fuel' =>
      match list_pop queue with
      | None => Ok (Some out)
      | Some (queue', i) =>
          if existsb (fun j => Z.eqb j i) visited then
            walk_test_ids db fuel' h queue' visited dists out
          else if h i then
            match ids_get dists i with
            | None => Raise KeyError
            | Some dist =>
                walk_test_ids db fuel' h (queue' ++ neighbor_ids db i)
                  (visited ++ [i])
                  (relax_ids (neighbor_ids db i) dist dists)
                  (out ++ [i])
            end
          else walk_test_ids db fuel' h queue' visited dists out
      end
  end.

(** The predicate [f] answers [h i] on every instance with the id [i].
    It may read lazy fields on the way, which sends statements and caches
    what is read, but it drops nothing that is cached and leaves the
    world consistent.  Such are [lambda q: q.id != 5] and
    [lambda q: q.is_founder]. *)
Definition tests_id (db : DataStore) (f : ref -> M bool) (h : Z -> bool)
    : Prop :=
  forall (q : ref) (w : World) (i : Z),
    consistent db w ->
    id_of w q = Some i ->
    exists w' : World,
      f q w = (Ok (h i), w') /\ cache_kept w w' /\ consistent db w'.

(** The ids that pass from [start]: the start and its neighbours when
    [h] accepts them, and every id that [h] accepts and that a row joins
    to an id that passes. *)
Inductive passes (db : DataStore) (h : Z -> bool) (start : Z) : Z -> Prop :=
| passes_seed (s : Z) :
    s = start \/ linked db start s -> h s = true -> passes db h start s
| passes_next (a c : Z) :
    passes db h start a -> linked db a c -> h c = true ->
    passes db h start c.

(** What holds at every iteration of the loop of [walk] with a
    predicate. *)
Definition test_inv (db : DataStore) (h : Z -> bool) (start : Z)
    (queue visited : list Z) (d : list (Z * Z)) : Prop :=
  NoDup visited /\
  (forall x, In x queue -> ids_get d x <> None) /\
  (forall x, In x visited -> passes db h start x) /\
  (forall x, In x queue ->
     x = start \/ linked db start x \/
     exists a, In a visited /\ linked db a x) /\
  (forall s, s = start \/ linked db start s -> h s = true ->
             In s visited \/ In s queue) /\
  (forall a c, In a visited -> linked db a c -> h c = true ->
               In c visited \/ In c queue).

(** With [fuel] iterations, the loop of [walk] with the predicate [f] on
    the heap and the loop with the test [h] on identifiers agree from any
    related pair of states. *)
Definition walk_test_sim_at (rt : Runtime) (db : DataStore) (depth : nat)
    (f : ref -> M bool) (h : Z -> bool) (radius : Z) (fuel : nat) : Prop :=
  forall (qr vr : list ref) (dr : list (ref * Z)) (outr : list ref)
         (q v : list Z) (d : list (Z * Z)) (out : list Z) (w : World),
    consistent db w ->
    has_ids w qr q -> has_ids w vr v -> has_dict w dr d ->
    has_ids w outr out ->
    cache_kept w
      (snd (Person.walk_loop rt db fuel depth
              (Some (Person.UserPredicate f)) radius qr vr dr outr w)) /\
    consistent db
      (snd (Person.walk_loop rt db fuel depth
              (Some (Person.UserPredicate f)) radius qr vr dr outr w)) /\
    agrees (walk_test_ids db fuel h q v d out)
      (Person.walk_loop rt db fuel depth
         (Some (Person.UserPredicate f)) radius qr vr dr outr w).

(** * Properties *)

(** ** Reading the heap *)

Lemma deref_ok (w : World) (r : ref) (o : PersonObj) :
  heap w !! r = Some o -> deref r w = (Ok o, w).
Proof. intros H. unfold deref. now rewrite H. Qed.

Lemma self_id_ok (w : World) (r : ref) (o : PersonObj) :
  heap w !! r = Some o -> self_id r w = (Ok (person_id o), w).
Proof. intros H. unfold self_id, bind. now rewrite (deref_ok _ _ _ H). Qed.

Lemma id_of_Some (w : World) (r : ref) (i : Z) :
  id_of w r = Some i <-> exists o, heap w !! r = Some o /\ person_id o = i.
Proof.
  unfold id_of. split.
  - destruct (heap w !! r) as [o|]; simpl; [|discriminate].
    intros [= <-]. now exists o.
  - intros (o & -> & <-). reflexivity.
Qed.

Lemma self_id_of (w : World) (r : ref) (i : Z) :
  id_of w r = Some i -> self_id r w = (Ok i, w).
Proof.
  intros (o & Ho & <-)%id_of_Some. now apply self_id_ok.
Qed.

(** Between two allocated instances, [==] is equality of the ids. *)
Lemma person_eq_ids (w : World) (a b : ref) (i j : Z) :
  id_of w a = Some i -> id_of w b = Some j ->
  Person.person_eq a b w = (Ok (Z.eqb i j), w).
Proof.
  intros Ha Hb. unfold Person.person_eq, Person.__eq__, bind.
  rewrite (self_id_of _ _ _ Ha). simpl. unfold bind.
  now rewrite (self_id_of _ _ _ Hb).
Qed.

(** ** Hashing and the hash containers *)

Lemma hash_constant (rt : Runtime) (p q : ref) :
  Person.__hash__ rt p = Person.__hash__ rt q.
Proof. reflexivity. Qed.

(** Membership in a set of Persons is membership of the id. *)
Lemma set_contains_ids (rt : Runtime) (w : World) (s : list ref)
    (ids : list Z) (x : ref) (i : Z) :
  id_of w x = Some i ->
  Forall2 (fun r j => id_of w r = Some j) s ids ->
  set_contains (Person.__hash__ rt) Person.person_eq s x w
  = (Ok (existsb (fun j => Z.eqb j i) ids), w).
Proof.
  intros Hx Hs. induction Hs as [|y j s ids Hy Hs IH]; [reflexivity|].
  simpl. rewrite (hash_constant rt y x), Z.eqb_refl.
  destruct (Nat.eqb_spec y x) as [->|Hne].
  - assert (j = i) as -> by congruence.
    now rewrite Z.eqb_refl.
  - unfold bind. rewrite (person_eq_ids _ _ _ _ _ Hy Hx).
    destruct (Z.eqb j i); [reflexivity|]. exact IH.
Qed.

Lemma set_add_ids (rt : Runtime) (w : World) (s : list ref)
    (ids : list Z) (x : ref) (i : Z) :
  id_of w x = Some i ->
  Forall2 (fun r j => id_of w r = Some j) s ids ->
  set_add (Person.__hash__ rt) Person.person_eq s x w
  = (Ok (if existsb (fun j => Z.eqb j i) ids then s else s ++ [x]), w).
Proof.
  intros Hx Hs. unfold set_add, bind.
  rewrite (set_contains_ids rt w s ids x i Hx Hs).
  now destruct (existsb _ ids).
Qed.

(** C10: the hash of a Person is the hash of the pair (class Person,
    builtin id) and does not depend on the instance, so any two Persons
    have the same hash; a set of Persons therefore tells them apart by the
    id-based [__eq__] alone: an instance is found in the set exactly when
    the set holds an instance with the same id. *)
Theorem hash_ignores_id (rt : Runtime) :
  (forall p q : ref, Person.__hash__ rt p = Person.__hash__ rt q) /\
  (forall (w : World) (s : list ref) (ids : list Z) (x : ref) (i : Z),
      id_of w x = Some i ->
      Forall2 (fun r j => id_of w r = Some j) s ids ->
      set_contains (Person.__hash__ rt) Person.person_eq s x w
      = (Ok (existsb (fun j => Z.eqb j i) ids), w)).
Proof.
  split.
  - apply hash_constant.
  - intros w s ids x i Hx Hs. now apply set_contains_ids.
Qed.

(** Two instances with the id 7 (the second one made after the registry
    was emptied): the set holding the first one contains the second. *)
Lemma hash_ignores_id_witness :
  let w := run_ops example_runtime pair_store
             [OGetPerson 7; OClearCache None; OGetPerson 7] empty_world in
  set_contains (Person.__hash__ example_runtime) Person.person_eq [0] 1 w
  = (Ok true, w).
Proof.
  intros w.
  apply (proj2 (hash_ignores_id example_runtime) w [0] [7%Z] 1 7%Z).
  - reflexivity.
  - repeat constructor.
Defined.

(** ** Equality with a value that is not a Person *)

(** C9, as stated, fails: compared with an object that is not a Person but
    has an attribute [id], a Person with id 7 answers False without any
    error (and True when the attribute is 7); compared with None the error
    is the failed attribute lookup. *)
Lemma eq_non_person_counterexample :
  is_person (VObject [("id"%string, VInt 8)]) = false /\
  Person.__eq__ 0 (VObject [("id"%string, VInt 8)]) (world_with 7)
  = (Ok false, world_with 7) /\
  Person.__eq__ 0 (VObject [("id"%string, VInt 7)]) (world_with 7)
  = (Ok true, world_with 7) /\
  Person.__eq__ 0 VNone (world_with 7)
  = (Raise AttributeError, world_with 7).
Proof. repeat split. Qed.

(** C9, amended: [p == v] for a value that is not a Person raises the
    attribute-lookup error when [v] has no attribute [id]; when [v] has an
    integer attribute [id] the comparison returns whether it equals the id
    of [p]; a type error is never the outcome. *)
Theorem eq_non_person (w : World) (p : ref) (o : PersonObj) (v : Value) :
  heap w !! p = Some o ->
  is_person v = false ->
  (id_attribute v = None ->
   Person.__eq__ p v w = (Raise AttributeError, w)) /\
  (forall j : Z, id_attribute v = Some (VInt j) ->
   Person.__eq__ p v w = (Ok (Z.eqb (person_id o) j), w)) /\
  (forall w' : World, Person.__eq__ p v w <> (Raise TypeError, w')).
Proof.
  intros Hp Hv. unfold Person.__eq__, bind.
  rewrite (self_id_ok _ _ _ Hp).
  destruct v as [| | | | | r | | | attrs]; simpl in *;
    try discriminate Hv;
    try (repeat split; [discriminate | discriminate]).
  destruct (find _ attrs) as [[k u]|]; simpl.
  - split; [discriminate|]. split.
    + intros j [= ->]. reflexivity.
    + intros w'. destruct u; simpl; discriminate.
  - repeat split; discriminate.
Qed.

Lemma eq_non_person_witness :
  Person.__eq__ 0 (VStr "Person(id=7)") (world_with 7)
  = (Raise AttributeError, world_with 7).
Proof.
  apply (eq_non_person (world_with 7) 0 (FamiLinx.new_person 7)
           (VStr "Person(id=7)")); reflexivity.
Defined.

(** ** clear_cache *)

Lemma clear_cache_nonzero (i : Z) (w : World) :
  i <> 0%Z ->
  FamiLinx.clear_cache (Some i) w
  = (Ok tt, {| heap := heap w; people := delete i (people w);
               nqueries := nqueries w |}).
Proof.
  intros Hi. unfold FamiLinx.clear_cache, FamiLinx.truthy.
  destruct (Z.eqb_spec i 0) as [|_]; [contradiction|]. simpl.
  unfold FamiLinx.set_people. do 2 f_equal.
  destruct (people w !! i) eqn:E; [reflexivity|].
  symmetry. now apply delete_id.
Qed.

Lemma clear_cache_omitted (w : World) :
  FamiLinx.clear_cache None w
  = (Ok tt, {| heap := heap w; people := ∅; nqueries := nqueries w |}).
Proof. reflexivity. Qed.

(** C7 fails for the id 0: [if id:] takes the branch of the omitted
    argument.  With the instances for 0 and 5 in the registry,
    [clear_cache(0)] leaves the registry empty, so the entry of 5 is gone
    as well. *)
Theorem clear_cache_zero_evicts_all :
  let w := run_ops example_runtime pair_store
             [OGetPerson 0; OGetPerson 5] empty_world in
  people w !! 5%Z = Some 1 /\
  FamiLinx.clear_cache (Some 0%Z) w
  = (Ok tt, {| heap := heap w; people := ∅; nqueries := nqueries w |}) /\
  people (snd (FamiLinx.clear_cache (Some 0%Z) w)) !! 5%Z = None.
Proof. repeat split. Qed.

(** ** cached_property *)

Lemma cache_update_ok (w : World) (self : ref) (o : PersonObj)
    (g : gmap string Value -> gmap string Value) :
  heap w !! self = Some o ->
  CachedProperty.cache_update self g w
  = (Ok tt,
     {| heap := <[self := {| person_id := person_id o;
                             cached_properties := g (cached_properties o) |}]>
                  (heap w);
        people := people w; nqueries := nqueries w |}).
Proof. intros H. unfold CachedProperty.cache_update. now rewrite H. Qed.

Lemma cache_update_same (w : World) (self : ref) (o : PersonObj)
    (g : gmap string Value -> gmap string Value) :
  heap w !! self = Some o ->
  g (cached_properties o) = cached_properties o ->
  CachedProperty.cache_update self g w = (Ok tt, w).
Proof.
  intros H Hg. rewrite (cache_update_ok _ _ _ _ H), Hg.
  destruct o as [i c]; cbn [person_id cached_properties].
  rewrite (list_insert_id _ _ _ H). now destruct w.
Qed.

Lemma getter_hit (key : string) (method : ref -> M Value) (w : World)
    (self : ref) (o : PersonObj) (v : Value) :
  heap w !! self = Some o ->
  cached_properties o !! key = Some v ->
  CachedProperty.getter key method self w = (Ok v, w).
Proof.
  intros H Hk. unfold CachedProperty.getter, CachedProperty.cache_of, bind.
  rewrite (deref_ok _ _ _ H). simpl. now rewrite Hk.
Qed.

Lemma getter_miss (key : string) (method : ref -> M Value) (w : World)
    (self : ref) (o : PersonObj) :
  heap w !! self = Some o ->
  cached_properties o !! key = None ->
  CachedProperty.getter key method self w
  = match method self w with
    | (Ok result, w1) =>
        match CachedProperty.cache_update self (insert key result) w1 with
        | (Ok _, w2) => (Ok result, w2)
        | (Raise e, w2) => (Raise e, w2)
        end
    | (Raise e, w1) => (Raise e, w1)
    end.
Proof.
  intros H Hk. unfold CachedProperty.getter, CachedProperty.cache_of, bind.
  rewrite (deref_ok _ _ _ H). simpl. rewrite Hk.
  destruct (method self w) as [[result|e] w1]; reflexivity.
Qed.

(** [get_person] allocates at the end of the heap and sends nothing to the
    cursor. *)
Lemma get_person_effect (id : Z) (w : World) :
  exists (r : ref) (w' : World) (extra : list PersonObj),
    FamiLinx.get_person id w = (Ok r, w') /\
    heap w' = heap w ++ extra /\
    nqueries w' = nqueries w /\
    Forall (fun o => cached_properties o = ∅) extra.
Proof.
  unfold FamiLinx.get_person. destruct (people w !! id) as [r|].
  - exists r, w, []. rewrite app_nil_r. repeat split. constructor.
  - eexists _, _, [_]. repeat split. repeat constructor.
Qed.

Lemma mapM_get_person_effect (ids : list Z) (w : World) :
  exists (rs : list ref) (w' : World) (extra : list PersonObj),
    mapM FamiLinx.get_person ids w = (Ok rs, w') /\
    heap w' = heap w ++ extra /\
    nqueries w' = nqueries w /\
    Forall (fun o => cached_properties o = ∅) extra.
Proof.
  revert w. induction ids as [|id ids IH]; intros w.
  - exists [], w, []. rewrite app_nil_r. repeat split. constructor.
  - destruct (get_person_effect id w) as (r & w1 & ex1 & E1 & H1 & Q1 & F1).
    destruct (IH w1) as (rs & w2 & ex2 & E2 & H2 & Q2 & F2).
    exists (r :: rs), w2, (ex1 ++ ex2). simpl. unfold bind.
    rewrite E1, E2. simpl. repeat split.
    + rewrite H2, H1. now rewrite app_assoc.
    + congruence.
    + apply Forall_app; split; assumption.
Qed.

(** The method behind a lazy field sends exactly one statement, whatever
    it returns or raises, and leaves the instances in place. *)
Lemma field_method_effect (db : DataStore) (f : Field) (w : World)
    (self : ref) (o : PersonObj) :
  heap w !! self = Some o ->
  exists (r : Result Value) (w1 : World) (extra : list PersonObj),
    field_method db f self w = (r, w1) /\
    nqueries w1 = S (nqueries w) /\
    heap w1 = heap w ++ extra.
Proof.
  intros H.
  assert (Hq : heap (queried w) = heap w) by reflexivity.
  destruct f; simpl;
    [ unfold Person.age_method | unfold Person.years_method
    | unfold Person.gender_method | unfold Person.location_method
    | unfold Person.parents_method | unfold Person.children_method
    | unfold Person.founder_stats_method ];
    unfold bind; rewrite (self_id_ok _ _ _ H); simpl;
    try (match goal with
         | |- context [match ?rows with [] => _ | _ :: _ => _ end] =>
             destruct rows as [|row rows'] eqn:Erows
         end;
         try (destruct row);
         unfold Person.to_int, ret, raise; simpl;
         repeat match goal with
                | |- context [match ?v with Some _ => _ | None => _ end] =>
                    destruct v; simpl
                end;
         eexists _, _, []; rewrite app_nil_r; repeat split; fail).
  - destruct (select_parent_ids db (person_id o)) as [|row rows'] eqn:Erows.
    + eexists _, _, []. rewrite app_nil_r. repeat split.
    + destruct (mapM_get_person_effect (row :: rows') (queried w))
        as (rs & w2 & ex & E & H2 & Q2 & _).
      unfold queried in E. unfold bind. rewrite E. simpl.
      eexists _, _, ex. repeat split; [exact Q2 | exact H2].
  - destruct (select_child_ids db (person_id o)) as [|row rows'] eqn:Erows.
    + eexists _, _, []. rewrite app_nil_r. repeat split.
    + destruct (mapM_get_person_effect (row :: rows') (queried w))
        as (rs & w2 & ex & E & H2 & Q2 & _).
      unfold queried in E. unfold bind. rewrite E. simpl.
      eexists _, _, ex. repeat split; [exact Q2 | exact H2].
Qed.

(** A read that finds nothing cached costs exactly one statement; when it
    returns, the value is in the cache of the instance. *)
Lemma field_get_miss (db : DataStore) (f : Field) (w : World) (self : ref)
    (o : PersonObj) :
  heap w !! self = Some o ->
  cached_properties o !! field_key f = None ->
  exists (r : Result Value) (w1 : World),
    field_get db f self w = (r, w1) /\
    nqueries w1 = S (nqueries w) /\
    (forall v : Value, r = Ok v ->
       exists o1 : PersonObj,
         heap w1 !! self = Some o1 /\
         cached_properties o1 !! field_key f = Some v) /\
    (forall e : Exn, r = Raise e ->
       heap w1 !! self = Some o).
Proof.
  intros H Hk. unfold field_get. rewrite (getter_miss _ _ _ _ _ H Hk).
  destruct (field_method_effect db f w self o H)
    as (r & w1 & extra & E & Q & Hh).
  rewrite E.
  assert (H1 : heap w1 !! self = Some o).
  { rewrite Hh. now apply lookup_app_l_Some. }
  destruct r as [result|e].
  - rewrite (cache_update_ok _ _ _ _ H1).
    eexists _, _. split; [reflexivity|]. split; [exact Q|]. split.
    + intros v [= <-]. eexists. split.
      * simpl. apply list_lookup_insert_eq. now apply lookup_lt_Some in H1.
      * simpl. apply lookup_insert_eq.
    + discriminate.
  - eexists _, _. split; [reflexivity|]. split; [exact Q|]. split.
    + discriminate.
    + intros _ _. exact H1.
Qed.

(** C5, as stated, fails when the first read raises: nothing is cached
    then, and the second read sends a second statement.  Person 3 of the
    family example has the gender code 7, which [GENDERS] does not
    know. *)
Lemma first_read_raising_caches_nothing :
  let w1 := snd (field_get family_store FGender 0 (world_with 3)) in
  fst (field_get family_store FGender 0 (world_with 3)) = Raise KeyError /\
  nqueries w1 = 1 /\
  heap w1 !! 0 = Some (FamiLinx.new_person 3) /\
  fst (field_get family_store FGender 0 w1) = Raise KeyError /\
  nqueries (snd (field_get family_store FGender 0 w1)) = 2.
Proof. repeat split. Qed.

(** C5, amended: for each of the seven lazy fields of an instance.  A read
    that finds nothing cached evaluates the method of the field, which
    sends exactly one statement to the store.  When the method returns a
    value, the read returns that value and caches it: the next read
    returns the same value and leaves the world (and so the statement
    count) unchanged.  When the method raises, the read raises the same
    exception in the world the method left, nothing is cached, and the
    next read sends one statement again.  A read of a cached value sends
    nothing; after [del] the next read sends exactly one statement again;
    an assigned value is what later reads return, with nothing sent; and
    [del] of a field that holds no cached value returns normally and
    changes nothing. *)
Theorem lazy_field_single_evaluation (db : DataStore) (f : Field)
    (w : World) (self : ref) (o : PersonObj) :
  heap w !! self = Some o ->
  (cached_properties o !! field_key f = None ->
   exists (r : Result Value) (wm : World),
     field_method db f self w = (r, wm) /\
     nqueries wm = S (nqueries w) /\
     match r with
     | Ok v =>
         exists w1 : World,
           field_get db f self w = (Ok v, w1) /\
           nqueries w1 = S (nqueries w) /\
           field_get db f self w1 = (Ok v, w1)
     | Raise e =>
         field_get db f self w = (Raise e, wm) /\
         heap wm !! self = Some o /\
         exists (r' : Result Value) (w2 : World),
           field_get db f self wm = (r', w2) /\
           nqueries w2 = S (nqueries wm)
     end) /\
  (forall v : Value,
     cached_properties o !! field_key f = Some v ->
     field_get db f self w = (Ok v, w)) /\
  (exists w2 : World,
     field_del f self w = (Ok tt, w2) /\
     nqueries w2 = nqueries w /\
     exists (r : Result Value) (w3 : World),
       field_get db f self w2 = (r, w3) /\
       nqueries w3 = S (nqueries w2)) /\
  (forall v : Value,
     exists w2 : World,
       field_set f self v w = (Ok tt, w2) /\
       nqueries w2 = nqueries w /\
       field_get db f self w2 = (Ok v, w2)) /\
  (cached_properties o !! field_key f = None ->
   field_del f self w = (Ok tt, w)).
Proof.
  intros H. assert (Hlt : self < length (heap w)) by now apply lookup_lt_Some in H.
  split; [|split; [|split; [|split]]].
  - intros Hk.
    destruct (field_method_effect db f w self o H)
      as (r & wm & extra & Em & Qm & Hh).
    exists r, wm. split; [exact Em|]. split; [exact Qm|].
    assert (Hm : heap wm !! self = Some o).
    { rewrite Hh. now apply lookup_app_l_Some. }
    pose proof (getter_miss (field_key f) (field_method db f) w self o H Hk)
      as Eg.
    rewrite Em in Eg. destruct r as [v|e].
    + rewrite (cache_update_ok _ _ _ _ Hm) in Eg.
      eexists. split; [exact Eg|]. split; [exact Qm|].
      unfold field_get. eapply getter_hit.
      * simpl. apply list_lookup_insert_eq. now apply lookup_lt_Some in Hm.
      * simpl. apply lookup_insert_eq.
    + split; [exact Eg|]. split; [exact Hm|].
      destruct (field_get_miss db f wm self o Hm Hk) as (r' & w2 & E & Q & _).
      exists r', w2. now split.
  - intros v Hk. unfold field_get. now apply (getter_hit _ _ _ _ o).
  - unfold field_del, CachedProperty.deleter.
    rewrite (cache_update_ok _ _ _ _ H).
    eexists. split; [reflexivity|]. split; [reflexivity|].
    match goal with
    | |- context [field_get db f self ?w2] =>
        destruct (field_get_miss db f w2 self
                    {| person_id := person_id o;
                       cached_properties :=
                         delete (field_key f) (cached_properties o) |})
          as (r & w3 & E & Q & _)
    end.
    + simpl. now apply list_lookup_insert_eq.
    + simpl. apply lookup_delete_eq.
    + exists r, w3. split; [exact E | exact Q].
  - intros v. unfold field_set, CachedProperty.setter.
    rewrite (cache_update_ok _ _ _ _ H).
    eexists. split; [reflexivity|]. split; [reflexivity|].
    unfold field_get. eapply getter_hit.
    + simpl. now apply list_lookup_insert_eq.
    + simpl. apply lookup_insert_eq.
  - intros Hk. unfold field_del, CachedProperty.deleter.
    apply (cache_update_same _ _ o); [exact H|]. now apply delete_id.
Qed.

(** Person 1 of the family example, whose gender code is 1: the first
    read returns 'male' for one statement and the second read returns it
    from the cache. *)
Lemma lazy_field_single_evaluation_witness :
  heap (world_with 1) !! 0 = Some (FamiLinx.new_person 1) /\
  field_del FGender 0 (world_with 1) = (Ok tt, world_with 1) /\
  exists w1 : World,
    field_get family_store FGender 0 (world_with 1)
    = (Ok (VStr "male"), w1) /\
    nqueries w1 = S (nqueries (world_with 1)) /\
    field_get family_store FGender 0 w1 = (Ok (VStr "male"), w1).
Proof.
  destruct (lazy_field_single_evaluation family_store FGender
              (world_with 1) 0 (FamiLinx.new_person 1) eq_refl)
    as (Hfirst & _ & _ & _ & Hdel).
  split; [reflexivity|]. split; [apply Hdel; reflexivity|].
  destruct (Hfirst eq_refl) as (r & wm & Em & _ & Hr).
  injection Em as <- <-. exact Hr.
Defined.

(** ** gender *)

(** C6: reading [gender] on an instance with nothing cached for it returns
    None when the store has no gender row for the id, 'male' for the code 1
    and 'female' for the code 2; for any other code the read raises
    KeyError to the caller, and nothing is cached in its place: the world
    only records the statement sent, and the next read raises again. *)
Theorem gender_reading (db : DataStore) (w : World) (self : ref)
    (o : PersonObj) :
  heap w !! self = Some o ->
  cached_properties o !! "gender" = None ->
  match select_where (person_id o) (tbl_gender db) with
  | [] => fst (Person.gender db self w) = Ok VNone
  | code :: _ =>
      (code = 1%Z -> fst (Person.gender db self w) = Ok (VStr "male")) /\
      (code = 2%Z -> fst (Person.gender db self w) = Ok (VStr "female")) /\
      (code <> 1%Z -> code <> 2%Z ->
       Person.gender db self w = (Raise KeyError, queried w) /\
       Person.gender db self (queried w)
       = (Raise KeyError, queried (queried w)))
  end.
Proof.
  intros H Hk.
  assert (Hmiss : forall w0 : World,
             heap w0 = heap w ->
             Person.gender db self w0
             = match Person.gender_method db self w0 with
               | (Ok result, w1) =>
                   match CachedProperty.cache_update self
                           (insert "gender"%string result) w1 with
                   | (Ok _, w2) => (Ok result, w2)
                   | (Raise e, w2) => (Raise e, w2)
                   end
               | (Raise e, w1) => (Raise e, w1)
               end).
  { intros w0 Hw0. apply (getter_miss _ _ _ _ o); [now rewrite Hw0 | exact Hk]. }
  assert (Hmeth : forall w0 : World,
             heap w0 = heap w ->
             Person.gender_method db self w0
             = match select_where (person_id o) (tbl_gender db) with
               | [] => (Ok VNone, queried w0)
               | code :: _ =>
                   match Person.GENDERS code with
                   | Some name => (Ok (VStr name), queried w0)
                   | None => (Raise KeyError, queried w0)
                   end
               end).
  { intros w0 Hw0. unfold Person.gender_method, bind.
    rewrite (self_id_ok w0 self o) by now rewrite Hw0. simpl.
    destruct (select_where _ _) as [|code rows]; [reflexivity|].
    now destruct (Person.GENDERS code). }
  pose proof (Hmiss w eq_refl) as E. rewrite (Hmeth w eq_refl) in E.
  pose proof (Hmiss (queried w) eq_refl) as E'.
  rewrite (Hmeth (queried w) eq_refl) in E'.
  assert (Hup : forall v : Value,
             exists w2, CachedProperty.cache_update self
                          (insert "gender"%string v) (queried w)
                        = (Ok tt, w2)).
  { intros v. eexists. now apply (cache_update_ok (queried w) self o). }
  destruct (select_where (person_id o) (tbl_gender db)) as [|code rows].
  - destruct (Hup VNone) as (w2 & Hw2). rewrite Hw2 in E. now rewrite E.
  - unfold Person.GENDERS in E, E'. split; [|split].
    + intros ->. simpl in E.
      destruct (Hup (VStr "male")) as (w2 & Hw2). rewrite Hw2 in E.
      now rewrite E.
    + intros ->. simpl in E.
      destruct (Hup (VStr "female")) as (w2 & Hw2). rewrite Hw2 in E.
      now rewrite E.
    + intros H1 H2.
      destruct (Z.eqb_spec code 1) as [|_]; [contradiction|].
      destruct (Z.eqb_spec code 2) as [|_]; [contradiction|].
      split; assumption.
Qed.

(** Person 3 of the example family has the gender code 7. *)
Lemma gender_reading_witness :
  Person.gender family_store 0 (world_with 3)
  = (Raise KeyError, queried (world_with 3)) /\
  Person.gender family_store 0 (queried (world_with 3))
  = (Raise KeyError, queried (queried (world_with 3))).
Proof.
  apply (gender_reading family_store (world_with 3) 0
           (FamiLinx.new_person 3) eq_refl eq_refl); discriminate.
Defined.

(** ** The registry entry of an id is stable *)

Section Keeps.

Context (x : Z) (r : ref).

Lemma keeps_ret {A : Type} (a : A) : keeps x r (ret a).
Proof. intros w H. exact H. Qed.

Lemma keeps_raise {A : Type} (e : Exn) : keeps x r (@raise A e).
Proof. intros w H. exact H. Qed.

Lemma keeps_bind {A B : Type} (m : M A) (k : A -> M B) :
  keeps x r m -> (forall a, keeps x r (k a)) -> keeps x r (bind m k).
Proof.
  intros Hm Hk w H. unfold bind. specialize (Hm w H).
  destruct (m w) as [[a|e] w1]; simpl in *.
  - now apply Hk.
  - exact Hm.
Qed.

Lemma keeps_deref (p : ref) : keeps x r (deref p).
Proof. intros w H. unfold deref. now destruct (heap w !! p). Qed.

Lemma keeps_execute {A : Type} (rows : list A) : keeps x r (execute rows).
Proof. intros w H. exact H. Qed.

Lemma keeps_cache_update (p : ref)
    (g : gmap string Value -> gmap string Value) :
  keeps x r (CachedProperty.cache_update p g).
Proof.
  intros w H. unfold CachedProperty.cache_update.
  now destruct (heap w !! p).
Qed.

Lemma keeps_get_person (id : Z) : keeps x r (FamiLinx.get_person id).
Proof.
  intros w H. unfold FamiLinx.get_person.
  destruct (people w !! id) eqn:E; simpl; [exact H|].
  rewrite lookup_insert_ne; [exact H|]. congruence.
Qed.

Lemma keeps_mapM {A B : Type} (f : A -> M B) (xs : list A) :
  (forall a, keeps x r (f a)) -> keeps x r (mapM f xs).
Proof.
  intros Hf. induction xs as [|a xs IH]; simpl.
  - apply keeps_ret.
  - apply keeps_bind; [apply Hf|]. intros b.
    apply keeps_bind; [exact IH|]. intros bs. apply keeps_ret.
Qed.

End Keeps.

Create HintDb keeps.

#[local] Hint Resolve keeps_ret keeps_raise keeps_deref keeps_execute
  keeps_cache_update keeps_get_person : keeps.

(** Decompose a computation along its binds and case distinctions. *)
Ltac keeps_step :=
  match goal with
  | |- keeps _ _ (bind _ _) => apply keeps_bind; [|intros ?]
  | |- keeps _ _ (ret _) => apply keeps_ret
  | |- keeps _ _ (raise _) => apply keeps_raise
  | |- keeps _ _ (mapM _ _) => apply keeps_mapM; intros ?
  | |- keeps _ _ (match ?t with _ => _ end) => destruct t
  | |- keeps _ _ _ => solve [eauto with keeps]
  end.

Ltac keeps_auto := repeat keeps_step.

Section KeepsMethods.

Context (rt : Runtime) (db : DataStore) (x : Z) (r : ref).

Lemma keeps_self_id (p : ref) : keeps x r (self_id p).
Proof. unfold self_id. keeps_auto. Qed.

Lemma keeps_getter (key : string) (method : ref -> M Value) (p : ref) :
  keeps x r (method p) -> keeps x r (CachedProperty.getter key method p).
Proof.
  intros Hm. unfold CachedProperty.getter, CachedProperty.cache_of.
  keeps_auto.
Qed.

Lemma keeps_field_method (f : Field) (p : ref) :
  keeps x r (field_method db f p).
Proof using Type.
  pose proof keeps_self_id.
  destruct f; simpl;
    [ unfold Person.age_method | unfold Person.years_method
    | unfold Person.gender_method | unfold Person.location_method
    | unfold Person.parents_method | unfold Person.children_method
    | unfold Person.founder_stats_method ];
    unfold Person.to_int;
    keeps_auto.
Qed.

Lemma keeps_field_get (f : Field) (p : ref) : keeps x r (field_get db f p).
Proof. apply keeps_getter, keeps_field_method. Qed.

Lemma keeps_person_eq (a b : ref) : keeps x r (Person.person_eq a b).
Proof.
  pose proof keeps_self_id.
  unfold Person.person_eq, Person.__eq__, Person.getattr_id, Person.int_eq.
  keeps_auto.
Qed.

Lemma keeps_set_contains (s : list ref) (p : ref) :
  keeps x r (set_contains (Person.__hash__ rt) Person.person_eq s p).
Proof.
  pose proof keeps_person_eq.
  induction s as [|y s IH]; simpl; keeps_auto.
Qed.

Lemma keeps_set_add (s : list ref) (p : ref) :
  keeps x r (set_add (Person.__hash__ rt) Person.person_eq s p).
Proof.
  pose proof keeps_set_contains. unfold set_add. keeps_auto.
Qed.

Lemma keeps_dict_get (d : list (ref * Z)) (p : ref) :
  keeps x r (dict_get (Person.__hash__ rt) Person.person_eq d p).
Proof.
  pose proof keeps_person_eq.
  induction d as [|[y v] d IH]; simpl; keeps_auto.
Qed.

Lemma keeps_dict_getitem (d : list (ref * Z)) (p : ref) :
  keeps x r (dict_getitem (Person.__hash__ rt) Person.person_eq d p).
Proof.
  pose proof keeps_dict_get. unfold dict_getitem. keeps_auto.
Qed.

Lemma keeps_dict_setitem (d : list (ref * Z)) (p : ref) (v : Z) :
  keeps x r (dict_setitem (Person.__hash__ rt) Person.person_eq d p v).
Proof.
  pose proof keeps_person_eq.
  induction d as [|[y u] d IH]; simpl; keeps_auto.
Qed.

Lemma keeps_children_list (p : ref) :
  keeps x r (Person.children_list db p).
Proof.
  pose proof (keeps_field_get FChildren).
  unfold Person.children_list, Person.as_persons.
  apply keeps_bind; [apply (keeps_field_get FChildren)|]. intros v.
  keeps_auto.
Qed.

Lemma keeps_parents_list (p : ref) :
  keeps x r (Person.parents_list db p).
Proof.
  unfold Person.parents_list, Person.as_persons.
  apply keeps_bind; [apply (keeps_field_get FParents)|]. intros v.
  keeps_auto.
Qed.

Hint Resolve keeps_self_id keeps_person_eq keeps_set_contains keeps_set_add
  keeps_dict_get keeps_dict_getitem keeps_dict_setitem keeps_children_list
  keeps_parents_list : keeps.

Lemma keeps_partners (p : ref) : keeps x r (Person.partners rt db p).
Proof.
  apply keeps_getter. unfold Person.partners_method.
  assert (Hin : forall ps acc, keeps x r (Person.partners_inner rt p ps acc)).
  { induction ps as [|q ps IH]; intros acc; simpl; keeps_auto. }
  assert (Hout : forall cs acc,
             keeps x r (Person.partners_outer rt db p cs acc)).
  { induction cs as [|c cs IH]; intros acc; simpl; keeps_auto. }
  keeps_auto.
Qed.

Lemma keeps_descendants (fuel : nat) (p : ref) :
  keeps x r (Person.descendants rt db fuel p).
Proof.
  unfold Person.descendants.
  assert (Hloop : forall queue visited out,
             keeps x r (Person.descendants_loop rt db fuel queue visited out)).
  { induction fuel as [|fuel IH]; intros queue visited out; simpl;
      keeps_auto. }
  keeps_auto.
Qed.

Lemma keeps_within_radius (dists : list (ref * Z)) (radius : Z) (p : ref) :
  keeps x r (Person.within_radius rt dists radius p).
Proof. unfold Person.within_radius. keeps_auto. Qed.

Lemma keeps_call_visitable (depth : nat) (cell callee : Person.Visitable)
    (dists : list (ref * Z)) (radius : Z) (p : ref) :
  (forall f q, cell = Person.UserPredicate f -> keeps x r (f q)) ->
  (forall f q, callee = Person.UserPredicate f -> keeps x r (f q)) ->
  keeps x r (Person.call_visitable rt depth cell dists radius callee p).
Proof.
  pose proof keeps_within_radius.
  intros Hcell. revert callee.
  induction depth as [|depth IH]; intros callee Hcallee; simpl.
  - apply keeps_raise.
  - destruct callee as [f| |].
    + now apply (Hcallee f).
    + keeps_auto.
    + keeps_auto.
Qed.

Lemma keeps_dists_init (ns : list ref) (dists : list (ref * Z)) :
  keeps x r (Person.dists_init rt ns dists).
Proof.
  revert dists. induction ns as [|n ns IH]; intros dists; simpl;
    keeps_auto.
Qed.

Lemma keeps_dists_relax (ns : list ref) (dist : Z) (dists : list (ref * Z)) :
  keeps x r (Person.dists_relax rt ns dist dists).
Proof.
  revert dists. induction ns as [|n ns IH]; intros dists; simpl;
    keeps_auto.
Qed.

Lemma keeps_neighbors_of (p : ref) : keeps x r (Person.neighbors_of db p).
Proof. unfold Person.neighbors_of. keeps_auto. Qed.

Lemma keeps_walk (fuel depth : nat) (p : ref)
    (visitable : option (ref -> bool)) (radius : option Z) :
  keeps x r (Person.walk rt db fuel depth p (lift_predicate visitable)
               radius).
Proof.
  pose proof keeps_neighbors_of. pose proof keeps_dists_init.
  pose proof keeps_dists_relax.
  unfold Person.walk.
  set (cell := Person.bind_visitable (lift_predicate visitable) radius).
  assert (Hcell : forall c f q,
             cell = Some c -> c = Person.UserPredicate f -> keeps x r (f q)).
  { intros c f q Hc ->. subst cell. unfold Person.bind_visitable in Hc.
    destruct (FamiLinx.truthy radius), visitable as [g|]; simpl in Hc;
      try discriminate Hc.
    injection Hc as <-. apply keeps_ret. }
  clearbody cell.
  assert (Hloop : forall queue visited dists out,
             keeps x r (Person.walk_loop rt db fuel depth cell
                          (default 0%Z radius) queue visited dists out)).
  { induction fuel as [|fuel IH]; intros queue visited dists out; simpl.
    - apply keeps_ret.
    - destruct (list_pop queue) as [[queue' person]|]; [|apply keeps_ret].
      apply keeps_bind; [auto with keeps|]. intros seen.
      apply keeps_bind.
      + destruct seen; [apply keeps_ret|].
        destruct cell as [c|]; [|apply keeps_ret].
        apply keeps_call_visitable; intros f q E; now apply (Hcell c f q).
      + intros go. destruct go; [|apply IH]. keeps_auto. }
  keeps_auto.
Qed.

End KeepsMethods.

Lemma keeps_clear_cache (x : Z) (r : ref) (id : option Z) :
  evicts (OClearCache id) x = false -> keeps x r (FamiLinx.clear_cache id).
Proof.
  unfold evicts, FamiLinx.clear_cache. intros He w H.
  destruct (FamiLinx.truthy id); [|discriminate].
  destruct id as [i|]; [|exact H]. simpl.
  apply Z.eqb_neq in He.
  destruct (people w !! i); [|exact H].
  now rewrite lookup_delete_ne.
Qed.

Lemma run_op_keeps (rt : Runtime) (db : DataStore) (op : Op) (x : Z)
    (r : ref) (w : World) :
  evicts op x = false ->
  people w !! x = Some r ->
  people (run_op rt db op w) !! x = Some r.
Proof.
  intros He H. destruct op; simpl.
  - now apply keeps_get_person.
  - apply keeps_mapM; [|exact H]. intros id. apply keeps_get_person.
  - now apply keeps_field_get.
  - now apply keeps_cache_update.
  - now apply keeps_cache_update.
  - now apply keeps_cache_update.
  - now apply keeps_partners.
  - now apply keeps_descendants.
  - now apply keeps_walk.
  - now apply keeps_clear_cache.
Qed.

Lemma run_ops_keeps (rt : Runtime) (db : DataStore) (ops : list Op) (x : Z)
    (r : ref) (w : World) :
  Forall (fun op => evicts op x = false) ops ->
  people w !! x = Some r ->
  people (run_ops rt db ops w) !! x = Some r.
Proof.
  intros Hops. revert w. unfold run_ops.
  induction Hops as [|op ops Hop _ IH]; intros w H; simpl; [exact H|].
  apply IH. now apply run_op_keeps.
Qed.

Lemma get_person_registers (x : Z) (w : World) :
  exists r : ref,
    fst (FamiLinx.get_person x w) = Ok r /\
    people (snd (FamiLinx.get_person x w)) !! x = Some r.
Proof.
  unfold FamiLinx.get_person. destruct (people w !! x) as [r|] eqn:E.
  - now exists r.
  - eexists. split; [reflexivity|]. simpl. apply lookup_insert_eq.
Qed.

(** C4, as stated, fails when the registry is emptied between the two
    calls: the second [get_person(1)] builds a second instance (address 1)
    for the id of the first one (address 0), which a caller may still
    hold. *)
Lemma get_person_after_eviction :
  let w1 := snd (FamiLinx.get_person 1 empty_world) in
  let w2 := run_ops example_runtime pair_store [OClearCache None] w1 in
  fst (FamiLinx.get_person 1 empty_world) = Ok 0 /\
  fst (FamiLinx.get_person 1 w2) = Ok 1 /\
  id_of (snd (FamiLinx.get_person 1 w2)) 0 = Some 1%Z /\
  id_of (snd (FamiLinx.get_person 1 w2)) 1 = Some 1%Z.
Proof. repeat split. Qed.

(** ** walk *)

(** A radius of zero is not told apart from an omitted radius. *)
Lemma walk_radius_zero_is_omitted (rt : Runtime) (db : DataStore)
    (fuel depth : nat) (self : ref) (visitable : option (ref -> M bool)) :
  Person.walk rt db fuel depth self visitable (Some 0%Z)
  = Person.walk rt db fuel depth self visitable None.
Proof. reflexivity. Qed.

(** C2 fails: [if radius:] is false for the radius 0, so no distance test
    is installed.  For Person 1 with the single child 2, [walk(radius=0)]
    yields the child (address 1) and then the Person itself (address 0);
    in the example family it yields all five Persons. *)
Theorem walk_radius_zero_yields_neighbours :
  fst (Person.walk example_runtime pair_store 10 1000 0 None (Some 0%Z)
         (world_with 1))
  = Ok (Some [1; 0]) /\
  id_of (snd (Person.walk example_runtime pair_store 10 1000 0 None
                (Some 0%Z) (world_with 1))) 1 = Some 2%Z /\
  fst (Person.walk example_runtime family_store 40 1000 0 None (Some 0%Z)
         (world_with 1))
  = Ok (Some [2; 4; 1; 0; 3]).
Proof. repeat split. Qed.

(** The lambda built when both a predicate and a radius are given calls
    the variable [visitable], which by then holds that lambda itself: the
    call nests until the recursion limit, whatever the limit is. *)
Lemma call_lambda_both_overflows (rt : Runtime) (depth : nat)
    (dists : list (ref * Z)) (radius : Z) (p : ref) (w : World) :
  Person.call_visitable rt depth Person.LambdaBoth dists radius
    Person.LambdaBoth p w
  = (Raise RuntimeError, w).
Proof.
  induction depth as [|depth IH]; simpl; [reflexivity|].
  unfold bind. now rewrite IH.
Qed.

Lemma list_pop_cons {A : Type} (x : A) (l : list A) :
  exists (l' : list A) (y : A), list_pop (x :: l) = Some (l', y).
Proof.
  unfold list_pop. destruct (rev (x :: l)) as [|y t] eqn:E.
  - apply (f_equal (@length A)) in E. rewrite length_rev in E.
    discriminate E.
  - now exists (rev t), y.
Qed.

(** With a predicate and a radius other than zero, [walk] never runs to
    the end of its loop, on any data. *)
Lemma walk_predicate_and_radius_never_returns (rt : Runtime)
    (db : DataStore) (fuel depth : nat) (self : ref) (f : ref -> M bool)
    (radius : Z) (w : World) (out : list ref) (w' : World) :
  radius <> 0%Z ->
  Person.walk rt db fuel depth self (Some f) (Some radius) w
  <> (Ok (Some out), w').
Proof.
  intros Hr. unfold Person.walk, Person.bind_visitable, FamiLinx.truthy.
  destruct (Z.eqb_spec radius 0) as [|_]; [contradiction|]. simpl negb.
  cbv iota. unfold bind at 1.
  destruct (Person.neighbors_of db self w) as [[ns|e] w1]; [|discriminate].
  unfold bind at 1.
  destruct (Person.dists_init rt ns [] w1) as [[d|e] w2]; [|discriminate].
  unfold bind at 1.
  destruct (dict_setitem _ _ d self 0%Z w2) as [[d0|e] w3]; [|discriminate].
  destruct fuel as [|fuel]; simpl; [discriminate|].
  destruct (list_pop_cons self ns) as (q' & person & ->).
  unfold bind. simpl. rewrite call_lambda_both_overflows. discriminate.
Qed.

(** C3 fails when a predicate and a radius are both given: the first test
    of the popped Person (here with the predicate that accepts everybody,
    radius 1 and the interpreter's limit of 1000 frames) raises the
    RuntimeError of a recursion that is too deep, and nothing is yielded. *)
Theorem walk_predicate_and_radius_overflows :
  fst (Person.walk example_runtime family_store 40 1000 0
         (Some (fun _ => ret true)) (Some 1%Z) (world_with 1))
  = Raise RuntimeError /\
  fst (Person.walk example_runtime family_store 40 1000 0
         None (Some 1%Z) (world_with 1))
  = Ok (Some [2; 0; 1]).
Proof. split; vm_compute; reflexivity. Qed.

(** ** partners *)

(** C8 fails for an instance the registry no longer holds.  After
    [p = db.get_person(1)] and [db.clear_cache()], reading [p.partners]
    resolves the children 3 and 4 and their parents 1 and 2 through the
    emptied registry; the parent with id 1 is a new instance (address 3),
    [!=] compares it with [p] (address 0) by address, and it is returned
    among the partners although it equals [p]. *)
Theorem partners_keep_stale_self :
  let w := run_ops example_runtime family_store
             [OGetPerson 1; OClearCache None] empty_world in
  let res := Person.partners example_runtime family_store 0 w in
  id_of w 0 = Some 1%Z /\
  fst res = Ok (VList [VPerson 3; VPerson 4]) /\
  id_of (snd res) 3 = Some 1%Z /\
  id_of (snd res) 4 = Some 2%Z /\
  fst (Person.person_eq 0 3 (snd res)) = Ok true.
Proof. repeat split. Qed.

(** Without the eviction the same read returns the co-parent alone. *)
Lemma partners_in_fresh_registry :
  let res := Person.partners example_runtime family_store 0 (world_with 1) in
  fst res = Ok (VList [VPerson 3]) /\ id_of (snd res) 3 = Some 2%Z.
Proof. repeat split. Qed.

(** ** descendants: the loop on identifiers *)

Lemma list_pop_snoc {A : Type} (l : list A) (x : A) :
  list_pop (l ++ [x]) = Some (l, x).
Proof.
  unfold list_pop. rewrite rev_unit. now rewrite rev_involutive.
Qed.

Lemma list_pop_inv {A : Type} (l : list A) :
  match list_pop l with
  | None => l = []
  | Some (l', x) => l = l' ++ [x]
  end.
Proof.
  destruct l as [|a l] using rev_ind; [reflexivity|].
  now rewrite list_pop_snoc.
Qed.

Lemma existsb_eqb_In (i : Z) (l : list Z) :
  existsb (fun j => Z.eqb j i) l = true <-> In i l.
Proof.
  rewrite existsb_exists. split.
  - intros (j & Hj & E). apply Z.eqb_eq in E. now subst.
  - intros H. exists i. split; [exact H | apply Z.eqb_refl].
Qed.

Lemma select_child_ids_rows (db : DataStore) (i : Z) :
  length (select_child_ids db i)
  = length (List.filter (fun row => Z.eqb (fst row) i) (relationship db)).
Proof. unfold select_child_ids. apply length_map. Qed.

(** Visiting [i] removes its rows from the pending ones. *)
Lemma pending_rows_visit (db : DataStore) (visited : list Z) (i : Z) :
  existsb (fun j => Z.eqb j i) visited = false ->
  length (pending_rows db (visited ++ [i]))
  + length (select_child_ids db i)
  = length (pending_rows db visited).
Proof.
  intros Hi. rewrite select_child_ids_rows. unfold pending_rows.
  induction (relationship db) as [|[a b] rows IH]; [reflexivity|].
  cbn [List.filter fst]. rewrite existsb_app. cbn [existsb]. rewrite orb_false_r.
  destruct (Z.eqb_spec i a) as [->|Hne].
  - rewrite Hi, Z.eqb_refl, orb_true_r. simpl. lia.
  - replace (Z.eqb a i) with false by (symmetry; apply Z.eqb_neq; congruence).
    rewrite orb_false_r.
    destruct (existsb (fun j => Z.eqb j a) visited); simpl; lia.
Qed.

(** The loop ends within [length queue + pending rows] iterations. *)
Lemma descendants_ids_terminates (db : DataStore) (fuel : nat) :
  forall queue visited out : list Z,
    length queue + length (pending_rows db visited) < fuel ->
    exists res : list Z,
      descendants_ids db fuel queue visited out = Some res.
Proof.
  induction fuel as [|fuel IH]; intros queue visited out Hlt; [lia|].
  simpl. pose proof (list_pop_inv queue) as Hq.
  destruct (list_pop queue) as [[queue' i]|]; [|now exists out].
  subst queue. rewrite length_app in Hlt. simpl in Hlt.
  destruct (existsb (fun j => Z.eqb j i) visited) eqn:Hi.
  - apply IH. lia.
  - apply IH. rewrite length_app.
    pose proof (pending_rows_visit db visited i Hi). lia.
Qed.

Lemma pending_rows_bound (db : DataStore) (visited : list Z) :
  length (pending_rows db visited) <= length (relationship db).
Proof. unfold pending_rows. apply filter_length_le. Qed.

Lemma reach_snoc (db : DataStore) (a b c : Z) :
  reach db a b -> child_edge db b c -> reach db a c.
Proof.
  intros Hab Hbc. induction Hab as [a b Hab | a b b' Hab Hbb' IH].
  - eapply reach_more; [exact Hab|]. now apply reach_child.
  - eapply reach_more; [exact Hab|]. now apply IH.
Qed.

(** A set that holds the children of [a] and the children of its own
    members holds everything reached from [a]. *)
Lemma reach_closed (db : DataStore) (S : Z -> Prop) (a c : Z) :
  (forall u v, S u -> child_edge db u v -> S v) ->
  reach db a c ->
  (forall b, child_edge db a b -> S b) ->
  S c.
Proof.
  intros Hclosed Hreach.
  induction Hreach as [a c Hac | a b c Hab Hbc IH]; intros Ha.
  - now apply Ha.
  - apply IH. intros b' Hb'. apply (Hclosed b); [|exact Hb']. now apply Ha.
Qed.

Lemma descendants_ids_exact (db : DataStore) (p : Z) (fuel : nat) :
  forall queue visited res : list Z,
    descendants_inv db p queue visited ->
    descendants_ids db fuel queue visited visited = Some res ->
    NoDup res /\ (forall x, In x res <-> reach db p x).
Proof.
  induction fuel as [|fuel IH]; intros queue visited res Hinv Hrun;
    [discriminate|].
  simpl in Hrun. pose proof (list_pop_inv queue) as Hq.
  destruct Hinv as (Hnd & Hsound & Hroot & Hclosed).
  destruct (list_pop queue) as [[queue' i]|].
  - subst queue.
    destruct (existsb (fun j => Z.eqb j i) visited) eqn:Hi.
    + apply (IH queue' visited res); [|exact Hrun].
      apply existsb_eqb_In in Hi.
      split; [exact Hnd|]. split; [|split].
      * intros x [Hx|Hx]; apply Hsound; [left|right]; [|exact Hx].
        apply in_or_app. now left.
      * intros c Hc. destruct (Hroot c Hc) as [H|H]; [now left|].
        apply in_app_or in H as [H|[<-|[]]]; [now right | now left].
      * intros a c Ha Hc. destruct (Hclosed a c Ha Hc) as [H|H]; [now left|].
        apply in_app_or in H as [H|[<-|[]]]; [now right | now left].
    + apply (IH (queue' ++ select_child_ids db i) (visited ++ [i]) res);
        [|exact Hrun].
      assert (Hni : ~ In i visited).
      { intros H. apply existsb_eqb_In in H. congruence. }
      assert (Hri : reach db p i).
      { apply Hsound. left. apply in_or_app. right. now left. }
      split; [|split; [|split]].
      * apply NoDup_app. split; [exact Hnd|]. split.
        -- intros x Hx Hx'. apply list_elem_of_In in Hx.
           apply list_elem_of_singleton in Hx'. subst x. contradiction.
        -- apply NoDup_singleton.
      * intros x [Hx|Hx].
        -- apply in_app_or in Hx as [Hx|Hx].
           ++ apply Hsound. left. apply in_or_app. now left.
           ++ now apply (reach_snoc db p i x).
        -- apply in_app_or in Hx as [Hx|[<-|[]]]; [|exact Hri].
           apply Hsound. now right.
      * intros c Hc. destruct (Hroot c Hc) as [H|H].
        -- left. apply in_or_app. now left.
        -- apply in_app_or in H as [H|[<-|[]]].
           ++ right. apply in_or_app. now left.
           ++ left. apply in_or_app. right. now left.
      * intros a c Ha Hc. apply in_app_or in Ha as [Ha|[<-|[]]].
        -- destruct (Hclosed a c Ha Hc) as [H|H].
           ++ left. apply in_or_app. now left.
           ++ apply in_app_or in H as [H|[<-|[]]].
              ** right. apply in_or_app. now left.
              ** left. apply in_or_app. right. now left.
        -- right. apply in_or_app. now right.
  - subst queue. injection Hrun as <-. split; [exact Hnd|].
    intros x. split.
    + intros Hx. apply Hsound. now right.
    + intros Hx.
      apply (reach_closed db (fun y => In y visited) p x); [|exact Hx|].
      * intros u v Hu Hv. destruct (Hclosed u v Hu Hv) as [H|[]]. exact H.
      * intros b Hb. destruct (Hroot b Hb) as [H|[]]. exact H.
Qed.

(** ** descendants: the loop on the heap *)

Lemma extends_refl (w : World) : extends w w.
Proof. intros r i H. exact H. Qed.

Lemma extends_trans (w1 w2 w3 : World) :
  extends w1 w2 -> extends w2 w3 -> extends w1 w3.
Proof. intros H12 H23 r i H. now apply H23, H12. Qed.

Lemma extends_heap_app (w w' : World) (extra : list PersonObj) :
  heap w' = heap w ++ extra -> extends w w'.
Proof.
  intros Hh r i H. unfold id_of in *. rewrite Hh.
  destruct (heap w !! r) as [o|] eqn:E; [|discriminate].
  now rewrite (lookup_app_l_Some _ _ _ _ E).
Qed.

Lemma has_ids_extends (w w' : World) (rs : list ref) (ids : list Z) :
  extends w w' -> has_ids w rs ids -> has_ids w' rs ids.
Proof.
  intros He H. unfold has_ids in *.
  eapply Forall2_impl; [exact H|]. intros r i Hr. now apply He.
Qed.

Lemma coherent_empty (db : DataStore) : coherent db empty_world.
Proof.
  split.
  - intros id r H. simpl in H. now rewrite lookup_empty in H.
  - intros r o v H. simpl in H. now rewrite lookup_nil in H.
Qed.

Lemma coherent_queried (db : DataStore) (w : World) :
  coherent db w -> coherent db (queried w).
Proof. intros H. exact H. Qed.

Lemma get_person_spec (db : DataStore) (id : Z) (w : World) :
  coherent db w ->
  exists (r : ref) (w' : World),
    FamiLinx.get_person id w = (Ok r, w') /\
    id_of w' r = Some id /\
    extends w w' /\
    coherent db w'.
Proof.
  intros [Hreg Hch]. unfold FamiLinx.get_person.
  destruct (people w !! id) as [r|] eqn:E.
  - exists r, w. split; [reflexivity|]. split; [now apply Hreg|].
    split; [apply extends_refl | now split].
  - eexists _, _. split; [reflexivity|].
    match goal with |- context [extends w ?w1] => set (w' := w1) end.
    assert (Hext : extends w w').
    { now apply (extends_heap_app w w' [FamiLinx.new_person id]). }
    assert (Hnew : id_of w' (length (heap w)) = Some id).
    { unfold id_of. simpl. now rewrite list_lookup_middle. }
    split; [exact Hnew|]. split; [exact Hext|]. split.
    + intros id' r' H. simpl in H.
      destruct (decide (id = id')) as [<-|Hne].
      * rewrite lookup_insert_eq in H. now injection H as <-.
      * rewrite lookup_insert_ne in H by exact Hne. now apply Hext, Hreg.
    + intros r o v H Hc. simpl in H. apply lookup_app_Some in H as [H|[_ H]].
      * destruct (Hch r o v H Hc) as (rs & -> & Hrs). exists rs.
        split; [reflexivity|]. now apply (has_ids_extends w w').
      * destruct (r - length (heap w)) as [|n]; simpl in H.
        -- injection H as <-. simpl in Hc. now rewrite lookup_empty in Hc.
        -- now rewrite lookup_nil in H.
Qed.

Lemma mapM_get_person_spec (db : DataStore) (ids : list Z) (w : World) :
  coherent db w ->
  exists (rs : list ref) (w' : World),
    mapM FamiLinx.get_person ids w = (Ok rs, w') /\
    has_ids w' rs ids /\
    extends w w' /\
    coherent db w'.
Proof.
  revert w. induction ids as [|id ids IH]; intros w Hco.
  - exists [], w. split; [reflexivity|]. split; [constructor|].
    split; [apply extends_refl | exact Hco].
  - destruct (get_person_spec db id w Hco) as (r & w1 & E1 & Hr & He1 & Hco1).
    destruct (IH w1 Hco1) as (rs & w2 & E2 & Hrs & He2 & Hco2).
    exists (r :: rs), w2. simpl. unfold bind. rewrite E1, E2. simpl.
    split; [reflexivity|]. split.
    + constructor; [now apply He2 | exact Hrs].
    + split; [now apply (extends_trans w w1 w2) | exact Hco2].
Qed.

Lemma persons_of_map (rs : list ref) :
  Person.persons_of (map VPerson rs) = Some rs.
Proof. induction rs as [|r rs IH]; simpl; [reflexivity|]. now rewrite IH. Qed.

(** Storing the list just resolved under [children] keeps the world
    coherent and moves no instance. *)
Lemma cache_children_spec (db : DataStore) (w : World) (self : ref)
    (o : PersonObj) (rs : list ref) :
  coherent db w ->
  heap w !! self = Some o ->
  has_ids w rs (select_child_ids db (person_id o)) ->
  exists w' : World,
    CachedProperty.cache_update self
      (insert "children"%string (VList (map VPerson rs))) w
    = (Ok tt, w') /\
    (forall r, id_of w' r = id_of w r) /\
    coherent db w'.
Proof.
  intros [Hreg Hch] Hself Hrs. rewrite (cache_update_ok _ _ _ _ Hself).
  eexists. split; [reflexivity|].
  assert (Hlt : self < length (heap w)) by now apply lookup_lt_Some in Hself.
  match goal with |- context [coherent db ?w1] => set (w' := w1) end.
  assert (Hid : forall r, id_of w' r = id_of w r).
  { intros r. unfold id_of. simpl.
    destruct (decide (r = self)) as [->|Hne].
    - rewrite list_lookup_insert_eq by exact Hlt. now rewrite Hself.
    - now rewrite list_lookup_insert_ne by congruence. }
  split; [exact Hid|]. split.
  - intros id r H. rewrite Hid. now apply Hreg.
  - intros r o1 v H Hc. simpl in H.
    destruct (decide (r = self)) as [->|Hne].
    + rewrite list_lookup_insert_eq in H by exact Hlt. injection H as <-.
      simpl in Hc. rewrite lookup_insert_eq in Hc. injection Hc as <-.
      exists rs. split; [reflexivity|]. simpl.
      eapply Forall2_impl; [exact Hrs|]. intros r' i Hr'. now rewrite Hid.
    + rewrite list_lookup_insert_ne in H by congruence.
      destruct (Hch r o1 v H Hc) as (rs1 & -> & Hrs1). exists rs1.
      split; [reflexivity|].
      eapply Forall2_impl; [exact Hrs1|]. intros r' i Hr'. now rewrite Hid.
Qed.

(** [person.children] in a coherent world: the instances of the rows of
    the children query, in order. *)
Lemma children_spec (db : DataStore) (w : World) (self : ref) (i : Z) :
  coherent db w ->
  id_of w self = Some i ->
  exists (rs : list ref) (w' : World),
    Person.children db self w = (Ok (VList (map VPerson rs)), w') /\
    has_ids w' rs (select_child_ids db i) /\
    extends w w' /\
    coherent db w'.
Proof.
  intros Hco Hi. pose proof Hi as (o & Hself & Ho)%id_of_Some.
  unfold Person.children.
  destruct (cached_properties o !! "children"%string) as [v|] eqn:Hc.
  - rewrite (getter_hit _ _ _ _ _ _ Hself Hc).
    destruct Hco as [Hreg Hch].
    destruct (Hch self o v Hself Hc) as (rs & -> & Hrs).
    exists rs, w. split; [reflexivity|]. split; [now rewrite <- Ho|].
    split; [apply extends_refl | now split].
  - rewrite (getter_miss _ _ _ _ _ Hself Hc).
    destruct (mapM_get_person_spec db (select_child_ids db i) (queried w)
                (coherent_queried db w Hco))
      as (rs & w2 & E & Hrs & He & Hco2).
    assert (Hm : Person.children_method db self w
                 = (Ok (VList (map VPerson rs)), w2)).
    { unfold Person.children_method, bind.
      rewrite (self_id_ok _ _ _ Hself). simpl. rewrite Ho.
      fold (queried w).
      destruct (select_child_ids db i) as [|row rows].
      - simpl in E. injection E as <- <-. reflexivity.
      - rewrite E. reflexivity. }
    rewrite Hm.
    assert (Hi2 : id_of w2 self = Some i) by now apply He.
    pose proof Hi2 as (o2 & Hself2 & Ho2)%id_of_Some.
    destruct (cache_children_spec db w2 self o2 rs Hco2 Hself2)
      as (w3 & E3 & Hid3 & Hco3); [now rewrite Ho2|].
    rewrite E3. exists rs, w3. split; [reflexivity|].
    assert (He3 : extends w2 w3) by (intros r j Hr; now rewrite Hid3).
    split; [now apply (has_ids_extends w2 w3)|].
    split; [|exact Hco3].
    apply (extends_trans w (queried w) w3); [intros r j Hr; exact Hr|].
    now apply (extends_trans (queried w) w2 w3).
Qed.

Lemma children_list_spec (db : DataStore) (w : World) (self : ref) (i : Z) :
  coherent db w ->
  id_of w self = Some i ->
  exists (rs : list ref) (w' : World),
    Person.children_list db self w = (Ok rs, w') /\
    has_ids w' rs (select_child_ids db i) /\
    extends w w' /\
    coherent db w'.
Proof.
  intros Hco Hi.
  destruct (children_spec db w self i Hco Hi) as (rs & w' & E & H).
  exists rs, w'. split; [|exact H].
  unfold Person.children_list, bind. rewrite E. simpl.
  now rewrite persons_of_map.
Qed.

(** One iteration of the loop on a queue that ends with [x]. *)
Lemma descendants_loop_step (rt : Runtime) (db : DataStore) (fuel : nat)
    (qr vr outr : list ref) (v : list Z) (x : ref) (i : Z) (w : World) :
  id_of w x = Some i ->
  has_ids w vr v ->
  Person.descendants_loop rt db (S fuel) (qr ++ [x]) vr outr w
  = if existsb (fun j => Z.eqb j i) v then
      Person.descendants_loop rt db fuel qr vr outr w
    else
      match Person.children_list db x w with
      | (Ok rs, w1) =>
          Person.descendants_loop rt db fuel (qr ++ rs) (vr ++ [x])
            (outr ++ [x]) w1
      | (Raise e, w1) => (Raise e, w1)
      end.
Proof.
  intros Hx Hv. simpl. rewrite list_pop_snoc. unfold bind at 1.
  rewrite (set_contains_ids rt w vr v x i Hx Hv).
  destruct (existsb (fun j => Z.eqb j i) v) eqn:Hi; [reflexivity|].
  unfold bind at 1. rewrite (set_add_ids rt w vr v x i Hx Hv), Hi.
  unfold bind at 1.
  destruct (Person.children_list db x w) as [[rs|e] w1]; reflexivity.
Qed.

(** The loop on the heap follows the loop on identifiers step by step: it
    stops when that one stops, and the instances it yields carry the ids
    that one produces. *)
Lemma descendants_loop_sim (rt : Runtime) (db : DataStore) (fuel : nat) :
  forall (qr vr outr : list ref) (q v out : list Z) (w : World),
    coherent db w ->
    has_ids w qr q -> has_ids w vr v -> has_ids w outr out ->
    exists w' : World,
      extends w w' /\ coherent db w' /\
      match descendants_ids db fuel q v out with
      | Some res =>
          exists resr : list ref,
            Person.descendants_loop rt db fuel qr vr outr w
            = (Ok (Some resr), w') /\
            has_ids w' resr res
      | None =>
          Person.descendants_loop rt db fuel qr vr outr w = (Ok None, w')
      end.
Proof.
  induction fuel as [|fuel IH]; intros qr vr outr q v out w Hco Hq Hv Hout.
  - exists w. split; [apply extends_refl|]. split; [exact Hco|]. reflexivity.
  - cbn [descendants_ids]. pose proof (list_pop_inv q) as Hpop.
    destruct (list_pop q) as [[q' i]|].
    + subst q. apply Forall2_app_inv_r in Hq as (qr' & xs & Hq' & Hx & ->).
      apply Forall2_cons_inv_r in Hx as (x & xs' & Hx & Hnil & ->).
      apply Forall2_nil_inv_r in Hnil as ->.
      rewrite (descendants_loop_step rt db fuel qr' vr outr v x i w Hx Hv).
      destruct (existsb (fun j => Z.eqb j i) v) eqn:Hi.
      * exact (IH qr' vr outr q' v out w Hco Hq' Hv Hout).
      * destruct (children_list_spec db w x i Hco Hx)
          as (rs & w1 & E & Hrs & He & Hco1).
        rewrite E.
        destruct (IH (qr' ++ rs) (vr ++ [x]) (outr ++ [x])
                    (q' ++ select_child_ids db i) (v ++ [i]) (out ++ [i])
                    w1 Hco1)
          as (w' & He' & Hco' & Hres).
        -- apply Forall2_app; [now apply (has_ids_extends w w1) | exact Hrs].
        -- apply Forall2_app; [now apply (has_ids_extends w w1)|].
           constructor; [now apply He | constructor].
        -- apply Forall2_app; [now apply (has_ids_extends w w1)|].
           constructor; [now apply He | constructor].
        -- exists w'. split; [now apply (extends_trans w w1 w')|].
           split; [exact Hco' | exact Hres].
    + subst q. apply Forall2_nil_inv_r in Hq as ->.
      exists w. split; [apply extends_refl|]. split; [exact Hco|].
      now exists outr.
Qed.

(** ** descendants *)

(** C1, as stated, fails on a cycle through the start: Person 1 has the
    child 2, and a bad row makes 1 a child of 2.  The sequence produced
    for the instance at address 0 (Person 1) is the child (address 1)
    followed by the instance at address 0 itself. *)
Lemma descendants_cycle_yields_start :
  id_of (world_with 1) 0 = Some 1%Z /\
  fst (Person.descendants example_runtime cyclic_store 10 0 (world_with 1))
  = Ok (Some [1; 0]) /\
  In 0 [1; 0].
Proof. repeat split. right. now left. Qed.

(** C1, amended: the table of relationships being finite, [descendants]
    on an instance of a coherent world returns normally within
    [number of children + number of rows + 1] iterations, cycles or not;
    the ids of the instances it yields are without repetition and are
    exactly the ids reached from the id of the start by one or more child
    edges, however many paths reach them; so the start is yielded exactly
    when a cycle leads back to it, and never otherwise. *)
Theorem descendants_exactly_reachable (rt : Runtime) (db : DataStore)
    (w : World) (self : ref) (o : PersonObj) (fuel : nat) :
  coherent db w ->
  heap w !! self = Some o ->
  length (select_child_ids db (person_id o)) + length (relationship db)
  < fuel ->
  exists (out : list ref) (ids : list Z) (w' : World),
    Person.descendants rt db fuel self w = (Ok (Some out), w') /\
    has_ids w' out ids /\
    NoDup ids /\
    (forall x : Z, In x ids <-> reach db (person_id o) x) /\
    (In (person_id o) ids <-> reach db (person_id o) (person_id o)).
Proof.
  intros Hco Hself Hfuel.
  assert (Hi : id_of w self = Some (person_id o)).
  { apply id_of_Some. now exists o. }
  destruct (children_list_spec db w self (person_id o) Hco Hi)
    as (rs & w1 & E & Hrs & He & Hco1).
  destruct (descendants_ids_terminates db fuel
              (select_child_ids db (person_id o)) [] [])
    as (ids & Hids).
  { pose proof (pending_rows_bound db []). lia. }
  destruct (descendants_loop_sim rt db fuel rs [] []
              (select_child_ids db (person_id o)) [] [] w1 Hco1 Hrs)
    as (w' & _ & _ & Hres); [constructor | constructor |].
  rewrite Hids in Hres. destruct Hres as (out & Hrun & Hout).
  destruct (descendants_ids_exact db (person_id o) fuel
              (select_child_ids db (person_id o)) [] ids)
    as (Hnd & Hexact); [|exact Hids|].
  { split; [constructor|]. split; [|split].
    - intros x [Hx|[]]. now apply reach_child.
    - intros c Hc. now right.
    - intros a c []. }
  exists out, ids, w'. unfold Person.descendants, bind. rewrite E.
  split; [exact Hrun|]. split; [exact Hout|]. split; [exact Hnd|].
  split; [exact Hexact | apply Hexact].
Qed.

Lemma coherent_world_with (db : DataStore) (id : Z) :
  coherent db (world_with id).
Proof.
  destruct (get_person_spec db id empty_world (coherent_empty db))
    as (r & w' & E & _ & _ & Hco).
  unfold world_with. now rewrite E.
Qed.

(** The cyclic example, where the start is reached from itself. *)
Lemma descendants_exactly_reachable_witness :
  exists (out : list ref) (ids : list Z) (w' : World),
    Person.descendants example_runtime cyclic_store 5 0 (world_with 1)
    = (Ok (Some out), w') /\
    has_ids w' out ids /\
    NoDup ids /\
    (forall x : Z, In x ids <-> reach cyclic_store 1 x) /\
    (In 1%Z ids <-> reach cyclic_store 1 1).
Proof.
  apply (descendants_exactly_reachable example_runtime cyclic_store
           (world_with 1) 0 (FamiLinx.new_person 1) 5).
  - apply coherent_world_with.
  - reflexivity.
  - vm_compute. lia.
Defined.

(** ** The worlds the API produces are coherent *)

Section Stable.

Context (rt : Runtime) (db : DataStore).

Lemma stable_ret {A : Type} (a : A) : stable db (ret a).
Proof. intros w H. split; [exact H | apply extends_refl]. Qed.

Lemma stable_raise {A : Type} (e : Exn) : stable db (@raise A e).
Proof. intros w H. split; [exact H | apply extends_refl]. Qed.

Lemma stable_bind {A B : Type} (m : M A) (k : A -> M B) :
  stable db m -> (forall a, stable db (k a)) -> stable db (bind m k).
Proof.
  intros Hm Hk w Hco. unfold bind. destruct (Hm w Hco) as [H1 E1].
  destruct (m w) as [[a|e] w1]; simpl in *.
  - destruct (Hk a w1 H1) as [H2 E2]. split; [exact H2|].
    now apply (extends_trans w w1).
  - now split.
Qed.

Lemma stable_deref (p : ref) : stable db (deref p).
Proof.
  intros w H. unfold deref.
  destruct (heap w !! p); (split; [exact H | apply extends_refl]).
Qed.

Lemma stable_execute {A : Type} (rows : list A) : stable db (execute rows).
Proof. intros w H. split; [exact H | intros r i Hr; exact Hr]. Qed.

Lemma stable_get_person (id : Z) : stable db (FamiLinx.get_person id).
Proof.
  intros w H.
  destruct (get_person_spec db id w H) as (r & w' & E & _ & He & Hco).
  rewrite E. now split.
Qed.

Lemma stable_mapM {A B : Type} (f : A -> M B) (xs : list A) :
  (forall a, stable db (f a)) -> stable db (mapM f xs).
Proof.
  intros Hf. induction xs as [|a xs IH]; simpl.
  - apply stable_ret.
  - apply stable_bind; [apply Hf|]. intros b.
    apply stable_bind; [exact IH|]. intros bs. apply stable_ret.
Qed.

(** An update of a cache that puts nothing new under [children]. *)
Lemma stable_cache_update (p : ref)
    (g : gmap string Value -> gmap string Value) :
  (forall c v, g c !! "children"%string = Some v ->
               c !! "children"%string = Some v) ->
  stable db (CachedProperty.cache_update p g).
Proof.
  intros Hg w [Hreg Hch]. unfold CachedProperty.cache_update.
  destruct (heap w !! p) as [o|] eqn:Hp; simpl;
    [|split; [now split | apply extends_refl]].
  assert (Hlt : p < length (heap w)) by now apply lookup_lt_Some in Hp.
  match goal with |- context [extends w ?w1] => set (w' := w1) end.
  assert (Hid : forall r, id_of w' r = id_of w r).
  { intros r. unfold id_of. simpl.
    destruct (decide (r = p)) as [->|Hne].
    - rewrite list_lookup_insert_eq by exact Hlt. now rewrite Hp.
    - now rewrite list_lookup_insert_ne by congruence. }
  split; [split|].
  - intros id r H. rewrite Hid. now apply Hreg.
  - intros r o1 v H Hc. simpl in H.
    destruct (decide (r = p)) as [->|Hne].
    + rewrite list_lookup_insert_eq in H by exact Hlt. injection H as <-.
      simpl in Hc. apply Hg in Hc.
      destruct (Hch p o v Hp Hc) as (rs & -> & Hrs). exists rs.
      split; [reflexivity|]. simpl.
      eapply Forall2_impl; [exact Hrs|]. intros r' i Hr'. now rewrite Hid.
    + rewrite list_lookup_insert_ne in H by congruence.
      destruct (Hch r o1 v H Hc) as (rs & -> & Hrs). exists rs.
      split; [reflexivity|].
      eapply Forall2_impl; [exact Hrs|]. intros r' i Hr'. now rewrite Hid.
  - intros r i Hr. now rewrite Hid.
Qed.

Lemma stable_getter (key : string) (method : ref -> M Value) (p : ref) :
  key <> "children"%string ->
  stable db (method p) ->
  stable db (CachedProperty.getter key method p).
Proof.
  intros Hkey Hm. unfold CachedProperty.getter, CachedProperty.cache_of.
  apply stable_bind.
  - apply stable_bind; [apply stable_deref|]. intros o. apply stable_ret.
  - intros cached. destruct (cached !! key); [apply stable_ret|].
    apply stable_bind; [exact Hm|]. intros result.
    apply stable_bind; [|intros ?; apply stable_ret].
    apply stable_cache_update. intros c v H.
    now rewrite lookup_insert_ne in H.
Qed.

Lemma stable_children (p : ref) : stable db (Person.children db p).
Proof.
  intros w Hco. destruct (id_of w p) as [i|] eqn:Hi.
  - destruct (children_spec db w p i Hco Hi) as (rs & w' & E & _ & He & Hco').
    rewrite E. now split.
  - unfold id_of in Hi. destruct (heap w !! p) as [o|] eqn:Hp;
      [discriminate|].
    unfold Person.children, CachedProperty.getter, CachedProperty.cache_of,
      bind, deref.
    rewrite Hp. simpl. split; [exact Hco | apply extends_refl].
Qed.

End Stable.

Create HintDb stable.

#[local] Hint Resolve stable_ret stable_raise stable_deref stable_execute
  stable_get_person stable_children : stable.

Ltac stable_step :=
  match goal with
  | |- stable _ (bind _ _) => apply stable_bind; [|intros ?]
  | |- stable _ (ret _) => apply stable_ret
  | |- stable _ (raise _) => apply stable_raise
  | |- stable _ (mapM _ _) => apply stable_mapM; intros ?
  | |- stable _ (match ?t with _ => _ end) => destruct t
  | |- stable _ _ => solve [eauto with stable]
  end.

Ltac stable_auto := repeat stable_step.

Section StableMethods.

Context (rt : Runtime) (db : DataStore).

Lemma stable_self_id (p : ref) : stable db (self_id p).
Proof. unfold self_id. stable_auto. Qed.

Lemma stable_field_get (f : Field) (p : ref) : stable db (field_get db f p).
Proof using Type.
  pose proof stable_self_id.
  destruct f; try apply stable_children;
    (apply stable_getter; [discriminate|]); simpl;
    [ unfold Person.age_method | unfold Person.years_method
    | unfold Person.gender_method | unfold Person.location_method
    | unfold Person.parents_method | unfold Person.founder_stats_method ];
    unfold Person.to_int;
    stable_auto.
Qed.

Lemma stable_person_eq (a b : ref) : stable db (Person.person_eq a b).
Proof.
  pose proof stable_self_id.
  unfold Person.person_eq, Person.__eq__, Person.getattr_id, Person.int_eq.
  stable_auto.
Qed.

Lemma stable_set_contains (s : list ref) (p : ref) :
  stable db (set_contains (Person.__hash__ rt) Person.person_eq s p).
Proof.
  pose proof stable_person_eq.
  induction s as [|y s IH]; simpl; stable_auto.
Qed.

Lemma stable_set_add (s : list ref) (p : ref) :
  stable db (set_add (Person.__hash__ rt) Person.person_eq s p).
Proof.
  pose proof stable_set_contains. unfold set_add. stable_auto.
Qed.

Lemma stable_dict_get (d : list (ref * Z)) (p : ref) :
  stable db (dict_get (Person.__hash__ rt) Person.person_eq d p).
Proof.
  pose proof stable_person_eq.
  induction d as [|[y v] d IH]; simpl; stable_auto.
Qed.

Lemma stable_dict_getitem (d : list (ref * Z)) (p : ref) :
  stable db (dict_getitem (Person.__hash__ rt) Person.person_eq d p).
Proof.
  pose proof stable_dict_get. unfold dict_getitem. stable_auto.
Qed.

Lemma stable_dict_setitem (d : list (ref * Z)) (p : ref) (v : Z) :
  stable db (dict_setitem (Person.__hash__ rt) Person.person_eq d p v).
Proof.
  pose proof stable_person_eq.
  induction d as [|[y u] d IH]; simpl; stable_auto.
Qed.

Lemma stable_children_list (p : ref) :
  stable db (Person.children_list db p).
Proof.
  unfold Person.children_list, Person.as_persons.
  apply stable_bind; [apply stable_children|]. intros v. stable_auto.
Qed.

Lemma stable_parents_list (p : ref) :
  stable db (Person.parents_list db p).
Proof.
  unfold Person.parents_list, Person.as_persons.
  apply stable_bind; [apply (stable_field_get FParents)|]. intros v.
  stable_auto.
Qed.

Hint Resolve stable_self_id stable_person_eq stable_set_contains
  stable_set_add stable_dict_get stable_dict_getitem stable_dict_setitem
  stable_children_list stable_parents_list : stable.

Lemma stable_partners (p : ref) : stable db (Person.partners rt db p).
Proof.
  apply stable_getter; [discriminate|]. unfold Person.partners_method.
  assert (Hin : forall ps acc,
             stable db (Person.partners_inner rt p ps acc)).
  { induction ps as [|q ps IH]; intros acc; simpl; stable_auto. }
  assert (Hout : forall cs acc,
             stable db (Person.partners_outer rt db p cs acc)).
  { induction cs as [|c cs IH]; intros acc; simpl; stable_auto. }
  stable_auto.
Qed.

Lemma stable_descendants (fuel : nat) (p : ref) :
  stable db (Person.descendants rt db fuel p).
Proof.
  unfold Person.descendants.
  assert (Hloop : forall queue visited out,
             stable db (Person.descendants_loop rt db fuel queue visited
                          out)).
  { induction fuel as [|fuel IH]; intros queue visited out; simpl;
      stable_auto. }
  stable_auto.
Qed.

Lemma stable_within_radius (dists : list (ref * Z)) (radius : Z) (p : ref) :
  stable db (Person.within_radius rt dists radius p).
Proof. unfold Person.within_radius. stable_auto. Qed.

Lemma stable_call_visitable (depth : nat) (cell callee : Person.Visitable)
    (dists : list (ref * Z)) (radius : Z) (p : ref) :
  (forall f q, cell = Person.UserPredicate f -> stable db (f q)) ->
  (forall f q, callee = Person.UserPredicate f -> stable db (f q)) ->
  stable db (Person.call_visitable rt depth cell dists radius callee p).
Proof.
  pose proof stable_within_radius.
  intros Hcell. revert callee.
  induction depth as [|depth IH]; intros callee Hcallee; simpl.
  - apply stable_raise.
  - destruct callee as [f| |].
    + now apply (Hcallee f).
    + stable_auto.
    + stable_auto.
Qed.

Lemma stable_dists_init (ns : list ref) (dists : list (ref * Z)) :
  stable db (Person.dists_init rt ns dists).
Proof.
  revert dists. induction ns as [|n ns IH]; intros dists; simpl;
    stable_auto.
Qed.

Lemma stable_dists_relax (ns : list ref) (dist : Z)
    (dists : list (ref * Z)) :
  stable db (Person.dists_relax rt ns dist dists).
Proof.
  revert dists. induction ns as [|n ns IH]; intros dists; simpl;
    stable_auto.
Qed.

Lemma stable_neighbors_of (p : ref) : stable db (Person.neighbors_of db p).
Proof. unfold Person.neighbors_of. stable_auto. Qed.

Lemma stable_walk (fuel depth : nat) (p : ref)
    (visitable : option (ref -> bool)) (radius : option Z) :
  stable db (Person.walk rt db fuel depth p (lift_predicate visitable)
               radius).
Proof.
  pose proof stable_neighbors_of. pose proof stable_dists_init.
  pose proof stable_dists_relax.
  unfold Person.walk.
  set (cell := Person.bind_visitable (lift_predicate visitable) radius).
  assert (Hcell : forall c f q,
             cell = Some c -> c = Person.UserPredicate f ->
             stable db (f q)).
  { intros c f q Hc ->. subst cell. unfold Person.bind_visitable in Hc.
    destruct (FamiLinx.truthy radius), visitable as [g|]; simpl in Hc;
      try discriminate Hc.
    injection Hc as <-. apply stable_ret. }
  clearbody cell.
  assert (Hloop : forall queue visited dists out,
             stable db (Person.walk_loop rt db fuel depth cell
                          (default 0%Z radius) queue visited dists out)).
  { induction fuel as [|fuel IH]; intros queue visited dists out; simpl.
    - apply stable_ret.
    - destruct (list_pop queue) as [[queue' person]|]; [|apply stable_ret].
      apply stable_bind; [auto with stable|]. intros seen.
      apply stable_bind.
      + destruct seen; [apply stable_ret|].
        destruct cell as [c|]; [|apply stable_ret].
        apply stable_call_visitable; intros f q E; now apply (Hcell c f q).
      + intros go. destruct go; [|apply IH]. stable_auto. }
  stable_auto.
Qed.

Lemma stable_set_people (f : gmap Z ref -> gmap Z ref) :
  (forall ps id r, f ps !! id = Some r -> ps !! id = Some r) ->
  stable db (FamiLinx.set_people f).
Proof.
  intros Hf w [Hreg Hch]. simpl. split; [split|].
  - intros id r H. simpl in H. apply Hf in H. now apply Hreg.
  - exact Hch.
  - intros r i Hr. exact Hr.
Qed.

Lemma stable_clear_cache (id : option Z) :
  stable db (FamiLinx.clear_cache id).
Proof.
  unfold FamiLinx.clear_cache.
  destruct (FamiLinx.truthy id); [destruct id as [i|]|].
  - apply stable_set_people. intros ps id r H.
    destruct (ps !! i); [|exact H].
    now apply lookup_delete_Some in H as [_ H].
  - apply stable_ret.
  - apply stable_set_people. intros ps id' r H.
    now rewrite lookup_empty in H.
Qed.

End StableMethods.

Lemma coherent_run_op (rt : Runtime) (db : DataStore) (op : Op) (w : World) :
  assigns_children op = false ->
  coherent db w ->
  coherent db (run_op rt db op w).
Proof.
  intros Hop Hco. destruct op; simpl.
  - now apply stable_get_person.
  - apply stable_mapM; [|exact Hco]. intros id. apply stable_get_person.
  - now apply stable_field_get.
  - apply stable_cache_update; [|exact Hco]. intros c u H.
    rewrite lookup_insert_ne in H; [exact H|].
    destruct f; simpl; discriminate.
  - apply stable_cache_update; [|exact Hco]. intros c u H.
    now apply lookup_delete_Some in H as [_ H].
  - apply stable_cache_update; [|exact Hco]. intros c u H.
    now rewrite lookup_empty in H.
  - now apply stable_partners.
  - now apply stable_descendants.
  - now apply stable_walk.
  - now apply stable_clear_cache.
Qed.

(** Whatever calls were made on a fresh registry, short of assigning a
    list of the caller's to [children], the world is coherent. *)
Lemma coherent_run_ops (rt : Runtime) (db : DataStore) (ops : list Op) :
  Forall (fun op => assigns_children op = false) ops ->
  coherent db (run_ops rt db ops empty_world).
Proof.
  intros Hops. unfold run_ops.
  assert (H : forall w, coherent db w ->
                        coherent db (fold_left
                                       (fun w' op => run_op rt db op w')
                                       ops w)).
  { induction Hops as [|op ops Hop _ IH]; intros w Hco; simpl; [exact Hco|].
    apply IH. now apply coherent_run_op. }
  apply H, coherent_empty.
Qed.

(** ** Reads keep what is cached *)

Lemma cache_kept_refl (w : World) : cache_kept w w.
Proof. intros r o H. exists o. repeat split; auto. Qed.

Lemma cache_kept_trans (w1 w2 w3 : World) :
  cache_kept w1 w2 -> cache_kept w2 w3 -> cache_kept w1 w3.
Proof.
  intros H12 H23 r o H. destruct (H12 r o H) as (o2 & H2 & Hi2 & Hc2).
  destruct (H23 r o2 H2) as (o3 & H3 & Hi3 & Hc3).
  exists o3. split; [exact H3|]. split; [congruence|]. auto.
Qed.

Lemma cache_kept_extends (w w' : World) : cache_kept w w' -> extends w w'.
Proof.
  intros H r i (o & Ho & <-)%id_of_Some.
  destruct (H r o Ho) as (o' & Ho' & Hi & _).
  apply id_of_Some. now exists o'.
Qed.

Lemma cache_kept_heap_app (w w' : World) (extra : list PersonObj) :
  heap w' = heap w ++ extra -> cache_kept w w'.
Proof.
  intros Hh r o H. exists o. rewrite Hh.
  split; [now apply lookup_app_l_Some|]. split; auto.
Qed.

Section Frames.

Lemma frames_ret {A : Type} (a : A) : frames (ret a).
Proof. intros w. apply cache_kept_refl. Qed.

Lemma frames_raise {A : Type} (e : Exn) : frames (@raise A e).
Proof. intros w. apply cache_kept_refl. Qed.

Lemma frames_bind {A B : Type} (m : M A) (k : A -> M B) :
  frames m -> (forall a, frames (k a)) -> frames (bind m k).
Proof.
  intros Hm Hk w. unfold bind. specialize (Hm w).
  destruct (m w) as [[a|e] w1]; simpl in *; [|exact Hm].
  apply (cache_kept_trans w w1); [exact Hm | apply Hk].
Qed.

Lemma frames_deref (p : ref) : frames (deref p).
Proof.
  intros w. unfold deref. destruct (heap w !! p); apply cache_kept_refl.
Qed.

Lemma frames_execute {A : Type} (rows : list A) : frames (execute rows).
Proof. intros w r o H. exists o. repeat split; auto. Qed.

Lemma frames_get_person (id : Z) : frames (FamiLinx.get_person id).
Proof.
  intros w. destruct (get_person_effect id w) as (r & w' & ex & E & Hh & _).
  rewrite E. now apply (cache_kept_heap_app w w' ex).
Qed.

Lemma frames_mapM {A B : Type} (f : A -> M B) (xs : list A) :
  (forall a, frames (f a)) -> frames (mapM f xs).
Proof.
  intros Hf. induction xs as [|a xs IH]; simpl.
  - apply frames_ret.
  - apply frames_bind; [apply Hf|]. intros b.
    apply frames_bind; [exact IH|]. intros bs. apply frames_ret.
Qed.

(** Storing under a key that holds nothing drops nothing. *)
Lemma cache_kept_insert (w : World) (p : ref) (o : PersonObj) (key : string)
    (v : Value) :
  heap w !! p = Some o ->
  cached_properties o !! key = None ->
  cache_kept w (snd (CachedProperty.cache_update p (insert key v) w)).
Proof.
  intros Hp Hk. rewrite (cache_update_ok _ _ _ _ Hp). simpl.
  assert (Hlt : p < length (heap w)) by now apply lookup_lt_Some in Hp.
  intros r o1 H. simpl. destruct (decide (r = p)) as [->|Hne].
  - rewrite list_lookup_insert_eq by exact Hlt. eexists.
    split; [reflexivity|]. assert (o1 = o) as -> by congruence.
    split; [reflexivity|]. intros k u Hu. simpl.
    rewrite lookup_insert_ne; [exact Hu|]. congruence.
  - rewrite list_lookup_insert_ne by congruence. exists o1.
    repeat split; auto.
Qed.

(** A getter frames when its method frames and does not itself store
    anything under the key of the getter. *)
Lemma frames_getter (key : string) (method : ref -> M Value) (p : ref) :
  frames (method p) ->
  (forall w o o1,
      heap w !! p = Some o ->
      cached_properties o !! key = None ->
      heap (snd (method p w)) !! p = Some o1 ->
      cached_properties o1 !! key = None) ->
  frames (CachedProperty.getter key method p).
Proof.
  intros Hm Hquiet w.
  destruct (heap w !! p) as [o|] eqn:Hp.
  - destruct (cached_properties o !! key) as [v|] eqn:Hk.
    + rewrite (getter_hit _ _ _ _ _ _ Hp Hk). apply cache_kept_refl.
    + rewrite (getter_miss _ _ _ _ _ Hp Hk).
      pose proof (Hm w) as Hw1. pose proof (Hquiet w o) as Hq.
      destruct (method p w) as [[result|e] w1]; simpl in *; [|exact Hw1].
      destruct (Hw1 p o Hp) as (o1 & Hp1 & _ & _).
      specialize (Hq o1 Hp Hk Hp1).
      pose proof (cache_kept_insert w1 p o1 key result Hp1 Hq) as Hins.
      destruct (CachedProperty.cache_update p (insert key result) w1)
        as [[u|e] w2]; simpl in *;
        now apply (cache_kept_trans w w1 w2).
  - unfold CachedProperty.getter, CachedProperty.cache_of, bind, deref.
    rewrite Hp. apply cache_kept_refl.
Qed.

End Frames.

Create HintDb frames.

#[local] Hint Resolve frames_ret frames_raise frames_deref frames_execute
  frames_get_person : frames.

Ltac frames_step :=
  match goal with
  | |- frames (bind _ _) => apply frames_bind; [|intros ?]
  | |- frames (ret _) => apply frames_ret
  | |- frames (raise _) => apply frames_raise
  | |- frames (mapM _ _) => apply frames_mapM; intros ?
  | |- frames (match ?t with _ => _ end) => destruct t
  | |- frames _ => solve [eauto with frames]
  end.

Ltac frames_auto := repeat frames_step.

Section FramesMethods.

Context (rt : Runtime) (db : DataStore).

Lemma frames_self_id (p : ref) : frames (self_id p).
Proof. unfold self_id. frames_auto. Qed.

Lemma frames_field_method (f : Field) (p : ref) :
  frames (field_method db f p).
Proof using Type.
  pose proof frames_self_id.
  destruct f; simpl;
    [ unfold Person.age_method | unfold Person.years_method
    | unfold Person.gender_method | unfold Person.location_method
    | unfold Person.parents_method | unfold Person.children_method
    | unfold Person.founder_stats_method ];
    unfold Person.to_int;
    frames_auto.
Qed.

(** The method of a lazy field leaves the instance it runs on as it is. *)
Lemma field_method_quiet (f : Field) (p : ref) (w : World) (o : PersonObj) :
  heap w !! p = Some o ->
  heap (snd (field_method db f p w)) !! p = Some o.
Proof.
  intros Hp.
  destruct (field_method_effect db f w p o Hp) as (r & w1 & ex & E & _ & Hh).
  rewrite E. simpl. rewrite Hh. now apply lookup_app_l_Some.
Qed.

Lemma frames_field_get (f : Field) (p : ref) : frames (field_get db f p).
Proof.
  apply frames_getter; [apply frames_field_method|].
  intros w o o1 Hp Hk H1.
  rewrite (field_method_quiet f p w o Hp) in H1. congruence.
Qed.

Lemma frames_person_eq (a b : ref) : frames (Person.person_eq a b).
Proof.
  pose proof frames_self_id.
  unfold Person.person_eq, Person.__eq__, Person.getattr_id, Person.int_eq.
  frames_auto.
Qed.

Lemma frames_set_contains (s : list ref) (p : ref) :
  frames (set_contains (Person.__hash__ rt) Person.person_eq s p).
Proof.
  pose proof frames_person_eq.
  induction s as [|y s IH]; simpl; frames_auto.
Qed.

Lemma frames_set_add (s : list ref) (p : ref) :
  frames (set_add (Person.__hash__ rt) Person.person_eq s p).
Proof.
  pose proof frames_set_contains. unfold set_add. frames_auto.
Qed.

Lemma frames_dict_get (d : list (ref * Z)) (p : ref) :
  frames (dict_get (Person.__hash__ rt) Person.person_eq d p).
Proof.
  pose proof frames_person_eq.
  induction d as [|[y v] d IH]; simpl; frames_auto.
Qed.

Lemma frames_dict_getitem (d : list (ref * Z)) (p : ref) :
  frames (dict_getitem (Person.__hash__ rt) Person.person_eq d p).
Proof.
  pose proof frames_dict_get. unfold dict_getitem. frames_auto.
Qed.

Lemma frames_dict_setitem (d : list (ref * Z)) (p : ref) (v : Z) :
  frames (dict_setitem (Person.__hash__ rt) Person.person_eq d p v).
Proof.
  pose proof frames_person_eq.
  induction d as [|[y u] d IH]; simpl; frames_auto.
Qed.

Lemma frames_children_list (p : ref) : frames (Person.children_list db p).
Proof.
  unfold Person.children_list, Person.as_persons.
  apply frames_bind; [apply (frames_field_get FChildren)|]. intros v.
  frames_auto.
Qed.

Lemma frames_parents_list (p : ref) : frames (Person.parents_list db p).
Proof.
  unfold Person.parents_list, Person.as_persons.
  apply frames_bind; [apply (frames_field_get FParents)|]. intros v.
  frames_auto.
Qed.

Hint Resolve frames_self_id frames_person_eq frames_set_contains
  frames_set_add frames_dict_get frames_dict_getitem frames_dict_setitem
  frames_children_list frames_parents_list : frames.

Lemma frames_descendants_loop (fuel : nat) (queue visited out : list ref) :
  frames (Person.descendants_loop rt db fuel queue visited out).
Proof.
  revert queue visited out.
  induction fuel as [|fuel IH]; intros queue visited out; simpl;
    frames_auto.
Qed.

Lemma frames_descendants (fuel : nat) (p : ref) :
  frames (Person.descendants rt db fuel p).
Proof.
  pose proof frames_descendants_loop. unfold Person.descendants.
  frames_auto.
Qed.

Lemma frames_within_radius (dists : list (ref * Z)) (radius : Z) (p : ref) :
  frames (Person.within_radius rt dists radius p).
Proof. unfold Person.within_radius. frames_auto. Qed.

Lemma frames_call_visitable (depth : nat) (cell callee : Person.Visitable)
    (dists : list (ref * Z)) (radius : Z) (p : ref) :
  (forall f q, cell = Person.UserPredicate f -> frames (f q)) ->
  (forall f q, callee = Person.UserPredicate f -> frames (f q)) ->
  frames (Person.call_visitable rt depth cell dists radius callee p).
Proof.
  pose proof frames_within_radius.
  intros Hcell. revert callee.
  induction depth as [|depth IH]; intros callee Hcallee; simpl.
  - apply frames_raise.
  - destruct callee as [f| |].
    + now apply (Hcallee f).
    + frames_auto.
    + frames_auto.
Qed.

Lemma frames_dists_init (ns : list ref) (dists : list (ref * Z)) :
  frames (Person.dists_init rt ns dists).
Proof.
  revert dists. induction ns as [|n ns IH]; intros dists; simpl;
    frames_auto.
Qed.

Lemma frames_dists_relax (ns : list ref) (dist : Z)
    (dists : list (ref * Z)) :
  frames (Person.dists_relax rt ns dist dists).
Proof.
  revert dists. induction ns as [|n ns IH]; intros dists; simpl;
    frames_auto.
Qed.

Lemma frames_neighbors_of (p : ref) : frames (Person.neighbors_of db p).
Proof. unfold Person.neighbors_of. frames_auto. Qed.

Lemma frames_walk (fuel depth : nat) (p : ref)
    (visitable : option (ref -> bool)) (radius : option Z) :
  frames (Person.walk rt db fuel depth p (lift_predicate visitable) radius).
Proof.
  pose proof frames_neighbors_of. pose proof frames_dists_init.
  pose proof frames_dists_relax.
  unfold Person.walk.
  set (cell := Person.bind_visitable (lift_predicate visitable) radius).
  assert (Hcell : forall c f q,
             cell = Some c -> c = Person.UserPredicate f -> frames (f q)).
  { intros c f q Hc ->. subst cell. unfold Person.bind_visitable in Hc.
    destruct (FamiLinx.truthy radius), visitable as [g|]; simpl in Hc;
      try discriminate Hc.
    injection Hc as <-. apply frames_ret. }
  clearbody cell.
  assert (Hloop : forall queue visited dists out,
             frames (Person.walk_loop rt db fuel depth cell
                       (default 0%Z radius) queue visited dists out)).
  { induction fuel as [|fuel IH]; intros queue visited dists out; simpl.
    - apply frames_ret.
    - destruct (list_pop queue) as [[queue' person]|]; [|apply frames_ret].
      apply frames_bind; [auto with frames|]. intros seen.
      apply frames_bind.
      + destruct seen; [apply frames_ret|].
        destruct cell as [c|]; [|apply frames_ret].
        apply frames_call_visitable; intros f q E; now apply (Hcell c f q).
      + intros go. destruct go; [|apply IH]. frames_auto. }
  frames_auto.
Qed.

End FramesMethods.

Lemma run_op_cache_kept (rt : Runtime) (db : DataStore) (op : Op)
    (w : World) :
  reads_only op = true ->
  cache_kept w (run_op rt db op w).
Proof.
  intros Hop. destruct op; simpl; try discriminate Hop.
  - apply frames_get_person.
  - apply frames_mapM. intros id. apply frames_get_person.
  - apply frames_field_get.
  - apply frames_descendants.
  - apply frames_walk.
Qed.

Lemma run_ops_cache_kept (rt : Runtime) (db : DataStore) (ops : list Op)
    (w : World) :
  Forall (fun op => reads_only op = true) ops ->
  cache_kept w (run_ops rt db ops w).
Proof.
  intros Hops. revert w. unfold run_ops.
  induction Hops as [|op ops Hop _ IH]; intros w; simpl.
  - apply cache_kept_refl.
  - apply (cache_kept_trans w (run_op rt db op w)); [|apply IH].
    now apply run_op_cache_kept.
Qed.

(** X1: calls that only look things up (registry lookups, reads of lazy
    fields, descendants, walk with a pure predicate), in any number and
    order, deallocate no instance, change no id, and drop or change no
    value already cached on any instance under any key. *)
Theorem reads_keep_caches (rt : Runtime) (db : DataStore) (ops : list Op)
    (w : World) :
  Forall (fun op => reads_only op = true) ops ->
  cache_kept w (run_ops rt db ops w).
Proof. apply run_ops_cache_kept. Qed.

Lemma reads_keep_caches_witness :
  cache_kept (world_with 1)
    (run_ops example_runtime family_store
       [ODescendants 20 0; ORead FGender 1; OWalk 40 10 0 None None;
        OGetPerson 9]
       (world_with 1)).
Proof.
  apply (reads_keep_caches example_runtime family_store
           [ODescendants 20 0; ORead FGender 1; OWalk 40 10 0 None None;
            OGetPerson 9]
           (world_with 1)).
  repeat constructor.
Defined.

(** ** A traversal that was run once is replayed from the caches *)

Lemma self_id_Ok_inv (p : ref) (w w1 : World) (i : Z) :
  self_id p w = (Ok i, w1) -> w1 = w /\ id_of w p = Some i.
Proof.
  unfold self_id, bind, deref, id_of.
  destruct (heap w !! p) as [o|]; simpl; [|discriminate].
  intros [= <- <-]. now split.
Qed.

Lemma person_eq_Ok_inv (a b : ref) (w w1 : World) (c : bool) :
  Person.person_eq a b w = (Ok c, w1) ->
  w1 = w /\
  exists i j, id_of w a = Some i /\ id_of w b = Some j /\ c = Z.eqb i j.
Proof.
  unfold Person.person_eq, Person.__eq__. unfold bind at 1.
  destruct (self_id a w) as [[i|e] wa] eqn:Ea; [|discriminate].
  apply self_id_Ok_inv in Ea as [-> Ha]. simpl. unfold bind at 1.
  unfold bind at 1.
  destruct (self_id b w) as [[j|e] wb] eqn:Eb; [|discriminate].
  apply self_id_Ok_inv in Eb as [-> Hb]. simpl.
  intros [= <- <-]. split; [reflexivity|]. now exists i, j.
Qed.

(** [==] between two instances gives the same answer in any later world. *)
Lemma person_eq_transfer (a b : ref) (w w1 w2 : World) (c : bool) :
  Person.person_eq a b w = (Ok c, w1) ->
  extends w w2 ->
  Person.person_eq a b w2 = (Ok c, w2).
Proof.
  intros (-> & i & j & Ha & Hb & ->)%person_eq_Ok_inv He.
  apply person_eq_ids; now apply He.
Qed.

Lemma set_contains_transfer (rt : Runtime) (s : list ref) (x : ref)
    (w w1 w2 : World) (b : bool) :
  set_contains (Person.__hash__ rt) Person.person_eq s x w = (Ok b, w1) ->
  extends w w2 ->
  w1 = w /\
  set_contains (Person.__hash__ rt) Person.person_eq s x w2 = (Ok b, w2).
Proof.
  intros H He. induction s as [|y s IH]; simpl in *.
  - injection H as <- <-. now split.
  - rewrite (hash_constant rt y x), Z.eqb_refl in *.
    destruct (Nat.eqb y x).
    + injection H as <- <-. now split.
    + unfold bind in *.
      destruct (Person.person_eq y x w) as [[c|e] wc] eqn:Ec;
        [|discriminate].
      pose proof (person_eq_Ok_inv _ _ _ _ _ Ec) as [-> _].
      rewrite (person_eq_transfer _ _ _ _ _ _ Ec He).
      destruct c.
      * injection H as <- <-. now split.
      * now apply IH.
Qed.

Lemma set_add_transfer (rt : Runtime) (s s' : list ref) (x : ref)
    (w w1 w2 : World) :
  set_add (Person.__hash__ rt) Person.person_eq s x w = (Ok s', w1) ->
  extends w w2 ->
  w1 = w /\
  set_add (Person.__hash__ rt) Person.person_eq s x w2 = (Ok s', w2).
Proof.
  unfold set_add, bind. intros H He.
  destruct (set_contains _ _ s x w) as [[b|e] wb] eqn:Eb; [|discriminate].
  destruct (set_contains_transfer rt s x w wb w2 b Eb He) as [-> E2].
  rewrite E2. destruct b; injection H as <- <-; now split.
Qed.

(** What a getter returned is what the cache of the instance holds
    afterwards. *)
Lemma getter_result_cached (key : string) (method : ref -> M Value)
    (p : ref) (w w1 : World) (v : Value) :
  CachedProperty.getter key method p w = (Ok v, w1) ->
  exists o1 : PersonObj,
    heap w1 !! p = Some o1 /\ cached_properties o1 !! key = Some v.
Proof.
  intros H. destruct (heap w !! p) as [o|] eqn:Hp.
  - destruct (cached_properties o !! key) as [u|] eqn:Hk.
    + rewrite (getter_hit _ _ _ _ _ _ Hp Hk) in H. injection H as <- <-.
      now exists o.
    + rewrite (getter_miss _ _ _ _ _ Hp Hk) in H.
      destruct (method p w) as [[result|e] wm]; [|discriminate].
      unfold CachedProperty.cache_update in H.
      destruct (heap wm !! p) as [om|] eqn:Hm; [|discriminate].
      injection H as <- <-. eexists. simpl. split.
      * apply list_lookup_insert_eq. now apply lookup_lt_Some in Hm.
      * simpl. apply lookup_insert_eq.
  - unfold CachedProperty.getter, CachedProperty.cache_of, bind, deref in H.
    rewrite Hp in H. discriminate.
Qed.

(** A lazy field that was read is read again, in any later world that
    kept the caches, without a statement and with the same value. *)
Lemma getter_replay (key : string) (method : ref -> M Value) (p : ref)
    (w w1 w2 : World) (v : Value) :
  CachedProperty.getter key method p w = (Ok v, w1) ->
  cache_kept w1 w2 ->
  CachedProperty.getter key method p w2 = (Ok v, w2).
Proof.
  intros (o1 & H1 & Hk)%getter_result_cached Hkept.
  destruct (Hkept p o1 H1) as (o2 & H2 & _ & Hc).
  apply (getter_hit _ _ _ _ o2); [exact H2 | now apply Hc].
Qed.

Lemma children_list_replay (db : DataStore) (p : ref) (w w1 w2 : World)
    (rs : list ref) :
  Person.children_list db p w = (Ok rs, w1) ->
  cache_kept w1 w2 ->
  Person.children_list db p w2 = (Ok rs, w2).
Proof.
  unfold Person.children_list, Person.children. unfold bind at 1.
  intros H Hkept.
  destruct (CachedProperty.getter _ _ p w) as [[v|e] wv] eqn:Ev;
    [|discriminate].
  assert (wv = w1 /\ Person.as_persons v w1 = (Ok rs, w1)) as [-> Hv].
  { unfold Person.as_persons in *. destruct v; try discriminate H.
    destruct (Person.persons_of vs); [|discriminate H].
    injection H as <- <-. now split. }
  unfold bind. rewrite (getter_replay _ _ _ _ _ _ _ Ev Hkept).
  unfold Person.as_persons in *. destruct v; try discriminate Hv.
  destruct (Person.persons_of vs); [|discriminate Hv].
  now injection Hv as <-.
Qed.

Lemma descendants_loop_replay (rt : Runtime) (db : DataStore) (fuel : nat) :
  forall (queue visited out res : list ref) (w w' w2 : World),
    Person.descendants_loop rt db fuel queue visited out w
    = (Ok (Some res), w') ->
    cache_kept w' w2 ->
    Person.descendants_loop rt db fuel queue visited out w2
    = (Ok (Some res), w2).
Proof.
  induction fuel as [|fuel IH]; intros queue visited out res w w' w2 H Hk;
    [discriminate H|].
  pose proof (frames_descendants_loop rt db (S fuel) queue visited out w)
    as Hfr.
  rewrite H in Hfr. simpl in Hfr.
  assert (He : extends w w2).
  { apply cache_kept_extends. now apply (cache_kept_trans w w' w2). }
  simpl in *. destruct (list_pop queue) as [[queue' person]|].
  - unfold bind at 1 in H. unfold bind at 1.
    destruct (set_contains _ _ visited person w) as [[seen|e] ws] eqn:Es;
      [|discriminate].
    destruct (set_contains_transfer rt _ _ _ _ w2 _ Es He) as [-> Es2].
    rewrite Es2. destruct seen; [now apply (IH _ _ _ _ w w')|].
    unfold bind at 1 in H. unfold bind at 1.
    destruct (set_add _ _ visited person w) as [[visited'|e] wa] eqn:Ea;
      [|discriminate].
    destruct (set_add_transfer rt _ _ _ _ _ w2 Ea He) as [-> Ea2].
    rewrite Ea2. unfold bind at 1 in H. unfold bind at 1.
    destruct (Person.children_list db person w) as [[cs|e] w1] eqn:Ec;
      [|discriminate].
    pose proof (frames_descendants_loop rt db fuel (queue' ++ cs) visited'
                  (out ++ [person]) w1) as Hf1.
    rewrite H in Hf1. simpl in Hf1.
    rewrite (children_list_replay db person w w1 w2 cs Ec)
      by now apply (cache_kept_trans w1 w' w2).
    now apply (IH _ _ _ _ w1 w').
  - injection H as <- <-. reflexivity.
Qed.

(** X2: once [descendants] has returned, running it again on the same
    instance, in the world it left or in any later world that kept the
    caches, returns the same sequence of the same instances and changes
    nothing: no statement is sent and nothing is allocated. *)
Theorem descendants_replay (rt : Runtime) (db : DataStore) (fuel : nat)
    (p : ref) (w w' w2 : World) (out : list ref) :
  Person.descendants rt db fuel p w = (Ok (Some out), w') ->
  cache_kept w' w2 ->
  Person.descendants rt db fuel p w2 = (Ok (Some out), w2).
Proof.
  unfold Person.descendants. unfold bind at 1. intros H Hk.
  destruct (Person.children_list db p w) as [[cs|e] w1] eqn:Ec;
    [|discriminate].
  pose proof (frames_descendants_loop rt db fuel cs [] [] w1) as Hf1.
  rewrite H in Hf1. simpl in Hf1.
  unfold bind.
  rewrite (children_list_replay db p w w1 w2 cs Ec)
    by now apply (cache_kept_trans w1 w' w2).
  now apply (descendants_loop_replay rt db fuel _ _ _ _ w1 w').
Qed.

Lemma descendants_replay_witness :
  let res := Person.descendants example_runtime family_store 20 0
               (world_with 1) in
  nqueries (snd res) = 4 /\
  Person.descendants example_runtime family_store 20 0 (snd res)
  = (Ok (Some [2; 3; 1]), snd res).
Proof.
  split; [reflexivity|].
  apply (descendants_replay example_runtime family_store 20 0
           (world_with 1)
           (snd (Person.descendants example_runtime family_store 20 0
                   (world_with 1)))).
  - reflexivity.
  - apply cache_kept_refl.
Defined.

(** ** iter_people *)

Lemma get_person_registered (id : Z) (r : ref) (w : World) :
  people w !! id = Some r -> FamiLinx.get_person id w = (Ok r, w).
Proof. intros H. unfold FamiLinx.get_person. now rewrite H. Qed.

Lemma mapM_get_person_registered (ids : list Z) (rs : list ref)
    (w : World) :
  Forall2 (fun r i => people w !! i = Some r) rs ids ->
  mapM FamiLinx.get_person ids w = (Ok rs, w).
Proof.
  induction 1 as [|r i rs ids Hr _ IH]; [reflexivity|].
  simpl. unfold bind. rewrite (get_person_registered i r w Hr).
  now rewrite IH.
Qed.

Lemma get_person_registry (id : Z) (w : World) :
  registry_sound w ->
  exists (r : ref) (w' : World),
    FamiLinx.get_person id w = (Ok r, w') /\
    people w' !! id = Some r /\
    registry_sound w' /\
    (forall j q, people w !! j = Some q -> people w' !! j = Some q) /\
    nqueries w' = nqueries w.
Proof.
  intros Hreg. unfold FamiLinx.get_person.
  destruct (people w !! id) as [r|] eqn:E.
  - exists r, w. repeat split; auto.
  - eexists _, _. split; [reflexivity|]. simpl.
    split; [apply lookup_insert_eq|]. split; [|split; [|reflexivity]].
    + intros j q H. simpl in H. unfold id_of. simpl.
      destruct (decide (id = j)) as [<-|Hne].
      * rewrite lookup_insert_eq in H. injection H as <-.
        now rewrite list_lookup_middle.
      * rewrite lookup_insert_ne in H by exact Hne.
        apply Hreg in H. unfold id_of in H.
        destruct (heap w !! q) as [o|] eqn:Hq; [|discriminate].
        now rewrite (lookup_app_l_Some _ _ _ _ Hq).
    + intros j q H. rewrite lookup_insert_ne; [exact H|]. congruence.
Qed.

Lemma mapM_get_person_registry (ids : list Z) (w : World) :
  registry_sound w ->
  exists (rs : list ref) (w' : World),
    mapM FamiLinx.get_person ids w = (Ok rs, w') /\
    Forall2 (fun r i => people w' !! i = Some r) rs ids /\
    registry_sound w' /\
    (forall j q, people w !! j = Some q -> people w' !! j = Some q) /\
    nqueries w' = nqueries w.
Proof.
  revert w. induction ids as [|id ids IH]; intros w Hreg.
  - exists [], w. repeat split; auto.
  - destruct (get_person_registry id w Hreg)
      as (r & w1 & E1 & Hr & Hreg1 & Hsub1 & Hq1).
    destruct (IH w1 Hreg1) as (rs & w2 & E2 & Hrs & Hreg2 & Hsub2 & Hq2).
    exists (r :: rs), w2. simpl. unfold bind. rewrite E1, E2. simpl.
    split; [reflexivity|]. split; [constructor; auto|].
    split; [exact Hreg2|]. split; [auto | congruence].
Qed.

(** X3: on a registry whose entries are sound, [iter_people(start, end)]
    returns, without sending a statement, one instance per id of
    [range(start, end)] in ascending order (none when [end <= start]);
    each is the instance the registry holds for the id, entries that
    existed before are reused, and iterating again returns the same
    instances and changes nothing. *)
Theorem iter_people_spec (start end_ : Z) (w : World) :
  registry_sound w ->
  exists (rs : list ref) (w' : World),
    FamiLinx.iter_people start end_ w = (Ok rs, w') /\
    has_ids w' rs (seqZ start (end_ - start)) /\
    length rs = Z.to_nat (end_ - start) /\
    Forall2 (fun r i => people w' !! i = Some r) rs
      (seqZ start (end_ - start)) /\
    (forall j q, people w !! j = Some q -> people w' !! j = Some q) /\
    nqueries w' = nqueries w /\
    FamiLinx.iter_people start end_ w' = (Ok rs, w').
Proof.
  intros Hreg. unfold FamiLinx.iter_people.
  destruct (mapM_get_person_registry (seqZ start (end_ - start)) w Hreg)
    as (rs & w' & E & Hrs & Hreg' & Hsub & Hq).
  exists rs, w'. split; [exact E|]. split; [|split; [|split; [exact Hrs|]]].
  - eapply Forall2_impl; [exact Hrs|]. intros r i Hr. now apply Hreg'.
  - rewrite (Forall2_length _ _ _ Hrs). apply length_seqZ.
  - split; [exact Hsub|]. split; [exact Hq|].
    now apply mapM_get_person_registered.
Qed.

Lemma registry_sound_empty : registry_sound empty_world.
Proof. intros id r H. simpl in H. now rewrite lookup_empty in H. Qed.

Lemma iter_people_spec_witness :
  exists (rs : list ref) (w' : World),
    FamiLinx.iter_people 3 6 empty_world = (Ok rs, w') /\
    has_ids w' rs (seqZ 3 (6 - 3)) /\
    length rs = Z.to_nat (6 - 3) /\
    Forall2 (fun r i => people w' !! i = Some r) rs (seqZ 3 (6 - 3)) /\
    (forall j q, people empty_world !! j = Some q ->
                 people w' !! j = Some q) /\
    nqueries w' = nqueries empty_world /\
    FamiLinx.iter_people 3 6 w' = (Ok rs, w').
Proof.
  apply (iter_people_spec 3 6 empty_world). apply registry_sound_empty.
Defined.

(** ** clear_cached_properties *)

(** X4: [clear_cached_properties(p)] returns [p] itself and sends no
    statement; afterwards nothing is cached on [p], so the next read of
    each lazy field sends exactly one statement again; the id of [p], the
    registry and every other instance are as before; and on an instance
    with nothing cached the call changes nothing at all. *)
Theorem clear_cached_properties_spec (db : DataStore) (w : World) (p : ref)
    (o : PersonObj) :
  heap w !! p = Some o ->
  exists w' : World,
    clear_cached_properties p w = (Ok p, w') /\
    heap w' !! p = Some {| person_id := person_id o;
                           cached_properties := ∅ |} /\
    (forall q, q <> p -> heap w' !! q = heap w !! q) /\
    people w' = people w /\
    nqueries w' = nqueries w /\
    (forall f : Field,
        exists (r : Result Value) (w'' : World),
          field_get db f p w' = (r, w'') /\
          nqueries w'' = S (nqueries w)) /\
    (cached_properties o = ∅ -> w' = w).
Proof.
  intros Hp. unfold clear_cached_properties,
    CachedProperty.clear_cached_properties, bind.
  rewrite (cache_update_ok _ _ _ _ Hp). eexists. split; [reflexivity|].
  assert (Hlt : p < length (heap w)) by now apply lookup_lt_Some in Hp.
  assert (Hnew : <[p := {| person_id := person_id o;
                           cached_properties := ∅ |}]> (heap w) !! p
                 = Some {| person_id := person_id o;
                           cached_properties := ∅ |})
    by now apply list_lookup_insert_eq.
  split; [exact Hnew|]. split; [|split; [reflexivity|split; [reflexivity|]]].
  - intros q Hq. simpl. now apply list_lookup_insert_ne.
  - split.
    + intros f.
      match goal with
      | |- context [field_get db f p ?w1] =>
          destruct (field_get_miss db f w1 p
                      {| person_id := person_id o;
                         cached_properties := ∅ |} Hnew)
            as (r & w2 & E & Q & _)
      end; [apply lookup_empty|].
      exists r, w2. split; [exact E | exact Q].
    + intros He. destruct o as [i c]. simpl in *. subst c.
      rewrite (list_insert_id _ _ _ Hp). now destruct w.
Qed.

Lemma clear_cached_properties_spec_witness :
  let w := run_ops example_runtime family_store
             [OGetPerson 1; ORead FChildren 0; ORead FGender 0]
             empty_world in
  nqueries w = 2 /\
  exists w' : World,
    clear_cached_properties 0 w = (Ok 0, w') /\
    nqueries w' = 2 /\
    exists (r : Result Value) (w'' : World),
      field_get family_store FGender 0 w' = (r, w'') /\ nqueries w'' = 3.
Proof.
  intros w. split; [reflexivity|].
  destruct (clear_cached_properties_spec family_store w 0
              {| person_id := 1;
                 cached_properties :=
                   <["gender"%string := VStr "male"]>
                     (<["children"%string := VList [VPerson 1; VPerson 2]]>
                        ∅) |})
    as (w' & E & _ & _ & _ & Q & Hget & _); [reflexivity|].
  exists w'. split; [exact E|]. split; [exact Q|]. apply Hget.
Defined.

(** ** Eviction followed by a lookup *)

(** X5: evicting the entry of an id (other than 0) and looking the id up
    again gives a new instance, different from the evicted one, with the
    same id and nothing cached; the evicted instance keeps its cached
    values, the entries of the other ids are untouched, and no statement
    is sent. *)
Theorem evict_then_lookup (w : World) (x : Z) (r : ref) (o : PersonObj) :
  people w !! x = Some r ->
  heap w !! r = Some o ->
  x <> 0%Z ->
  exists (w1 w2 : World) (r' : ref),
    FamiLinx.clear_cache (Some x) w = (Ok tt, w1) /\
    FamiLinx.get_person x w1 = (Ok r', w2) /\
    r' <> r /\
    heap w2 !! r' = Some (FamiLinx.new_person x) /\
    heap w2 !! r = Some o /\
    people w2 !! x = Some r' /\
    (forall y q, y <> x -> people w !! y = Some q ->
                 people w2 !! y = Some q) /\
    nqueries w2 = nqueries w.
Proof.
  intros Hx Hr Hx0. rewrite (clear_cache_nonzero x w Hx0).
  eexists _, _, (length (heap w)). split; [reflexivity|].
  unfold FamiLinx.get_person. simpl. rewrite lookup_delete_eq.
  split; [reflexivity|]. simpl.
  assert (Hlt : r < length (heap w)) by now apply lookup_lt_Some in Hr.
  split; [lia|]. split; [now rewrite list_lookup_middle|].
  split; [now apply lookup_app_l_Some|].
  split; [apply lookup_insert_eq|]. split; [|reflexivity].
  intros y q Hy Hq. rewrite lookup_insert_ne by congruence.
  now rewrite lookup_delete_ne by congruence.
Qed.

Lemma evict_then_lookup_witness :
  let w := run_ops example_runtime family_store
             [OGetPerson 1; ORead FGender 0] empty_world in
  exists (w1 w2 : World) (r' : ref),
    FamiLinx.clear_cache (Some 1%Z) w = (Ok tt, w1) /\
    FamiLinx.get_person 1 w1 = (Ok r', w2) /\
    r' <> 0 /\
    heap w2 !! r' = Some (FamiLinx.new_person 1) /\
    heap w2 !! 0 = Some {| person_id := 1;
                           cached_properties :=
                             <["gender"%string := VStr "male"]> ∅ |} /\
    people w2 !! 1%Z = Some r' /\
    (forall y q, y <> 1%Z -> people w !! y = Some q ->
                 people w2 !! y = Some q) /\
    nqueries w2 = nqueries w.
Proof.
  intros w.
  apply (evict_then_lookup w 1 0
           {| person_id := 1;
              cached_properties := <["gender"%string := VStr "male"]> ∅ |});
    [reflexivity | reflexivity | lia].
Defined.

(** ** Consistent worlds *)

Lemma consistent_coherent (db : DataStore) (w : World) :
  consistent db w -> coherent db w.
Proof. intros (Hreg & Hch & _). now split. Qed.

Lemma consistent_empty (db : DataStore) : consistent db empty_world.
Proof.
  split; [apply registry_sound_empty|].
  split; intros r o v H; simpl in H; now rewrite lookup_nil in H.
Qed.

Lemma registry_complete_empty : registry_complete empty_world.
Proof.
  intros r i H. unfold id_of in H. simpl in H. rewrite ?lookup_nil in H.
  discriminate H.
Qed.

(** New instances with empty caches do not disturb what is cached. *)
Lemma cached_from_store_heap_app (key : string) (select : Z -> list Z)
    (w w' : World) (extra : list PersonObj) :
  heap w' = heap w ++ extra ->
  Forall (fun o => cached_properties o = ∅) extra ->
  cached_from_store key select w ->
  cached_from_store key select w'.
Proof.
  intros Hh Hex Hcfs r o v H Hc. rewrite Hh in H.
  apply lookup_app_Some in H as [H|[_ H]].
  - destruct (Hcfs r o v H Hc) as (rs & -> & Hrs). exists rs.
    split; [reflexivity|].
    now apply (has_ids_extends w w' rs _ (extends_heap_app w w' extra Hh)).
  - rewrite Forall_lookup in Hex. rewrite (Hex _ _ H) in Hc.
    now rewrite lookup_empty in Hc.
Qed.

(** The ids are untouched by an update of a cache. *)
Lemma id_of_cache_update (p : ref) (g : gmap string Value -> gmap string Value)
    (w : World) (r : ref) :
  id_of (snd (CachedProperty.cache_update p g w)) r = id_of w r.
Proof.
  unfold CachedProperty.cache_update.
  destruct (heap w !! p) as [o|] eqn:Hp; [|reflexivity].
  unfold id_of. simpl.
  assert (Hlt : p < length (heap w)) by now apply lookup_lt_Some in Hp.
  destruct (decide (r = p)) as [->|Hne].
  - rewrite list_lookup_insert_eq by exact Hlt. now rewrite Hp.
  - now rewrite list_lookup_insert_ne by congruence.
Qed.

(** An update that puts nothing new under [key]. *)
Lemma cached_from_store_update (key : string) (select : Z -> list Z)
    (p : ref) (g : gmap string Value -> gmap string Value) (w : World) :
  (forall c v, g c !! key = Some v -> c !! key = Some v) ->
  cached_from_store key select w ->
  cached_from_store key select (snd (CachedProperty.cache_update p g w)).
Proof.
  intros Hg Hcfs r o1 v H Hc.
  pose proof (id_of_cache_update p g w) as Hid.
  unfold CachedProperty.cache_update in *.
  destruct (heap w !! p) as [o|] eqn:Hp; [|now apply (Hcfs r o1 v)].
  simpl in *.
  assert (Hlt : p < length (heap w)) by now apply lookup_lt_Some in Hp.
  destruct (decide (r = p)) as [->|Hne].
  - rewrite list_lookup_insert_eq in H by exact Hlt. injection H as <-.
    simpl in Hc. apply Hg in Hc.
    destruct (Hcfs p o v Hp Hc) as (rs & -> & Hrs). exists rs.
    split; [reflexivity|]. simpl.
    eapply Forall2_impl; [exact Hrs|]. intros r' i Hr'. now rewrite Hid.
  - rewrite list_lookup_insert_ne in H by congruence.
    destruct (Hcfs r o1 v H Hc) as (rs & -> & Hrs). exists rs.
    split; [reflexivity|].
    eapply Forall2_impl; [exact Hrs|]. intros r' i Hr'. now rewrite Hid.
Qed.

(** Storing under [key] the instances just resolved for the owner. *)
Lemma cached_from_store_insert (key : string) (select : Z -> list Z)
    (p : ref) (o : PersonObj) (rs : list ref) (w : World) :
  heap w !! p = Some o ->
  has_ids w rs (select (person_id o)) ->
  cached_from_store key select w ->
  cached_from_store key select
    (snd (CachedProperty.cache_update p
            (insert key (VList (map VPerson rs))) w)).
Proof.
  intros Hp Hrs Hcfs r o1 v H Hc.
  pose proof (id_of_cache_update p (insert key (VList (map VPerson rs))) w)
    as Hid.
  rewrite (cache_update_ok _ _ _ _ Hp) in *. simpl in *.
  assert (Hlt : p < length (heap w)) by now apply lookup_lt_Some in Hp.
  destruct (decide (r = p)) as [->|Hne].
  - rewrite list_lookup_insert_eq in H by exact Hlt. injection H as <-.
    simpl in Hc. rewrite lookup_insert_eq in Hc. injection Hc as <-.
    exists rs. split; [reflexivity|]. simpl.
    eapply Forall2_impl; [exact Hrs|]. intros r' i Hr'. now rewrite Hid.
  - rewrite list_lookup_insert_ne in H by congruence.
    destruct (Hcfs r o1 v H Hc) as (rs1 & -> & Hrs1). exists rs1.
    split; [reflexivity|].
    eapply Forall2_impl; [exact Hrs1|]. intros r' i Hr'. now rewrite Hid.
Qed.

Lemma registry_cache_update (p : ref)
    (g : gmap string Value -> gmap string Value) (w : World) :
  (registry_sound w ->
   registry_sound (snd (CachedProperty.cache_update p g w))) /\
  (registry_complete w ->
   registry_complete (snd (CachedProperty.cache_update p g w))).
Proof.
  pose proof (id_of_cache_update p g w) as Hid.
  assert (Hp : people (snd (CachedProperty.cache_update p g w)) = people w).
  { unfold CachedProperty.cache_update. now destruct (heap w !! p). }
  split.
  - intros H id r Hr. rewrite Hid. apply H. now rewrite <- Hp.
  - intros H r i Hr. rewrite Hp. apply H. now rewrite <- Hid.
Qed.

Lemma get_person_complete (id : Z) (w : World) :
  registry_sound w ->
  registry_complete w ->
  registry_complete (snd (FamiLinx.get_person id w)).
Proof.
  intros Hreg Hco. unfold FamiLinx.get_person.
  destruct (people w !! id) as [r|] eqn:E; [exact Hco|]. simpl.
  intros r i Hr. unfold id_of in Hr. simpl in *.
  destruct (heap w !! r) as [o|] eqn:Ho.
  - rewrite (lookup_app_l_Some _ _ _ _ Ho) in Hr. simpl in Hr.
    injection Hr as <-.
    assert (Hi : people w !! person_id o = Some r).
    { apply Hco. unfold id_of. now rewrite Ho. }
    rewrite lookup_insert_ne; [exact Hi|]. congruence.
  - apply lookup_ge_None in Ho.
    destruct ((heap w ++ [FamiLinx.new_person id]) !! r) as [o|] eqn:Ho';
      [|discriminate].
    apply lookup_app_Some in Ho' as [Ho'|[_ Ho']].
    + apply lookup_lt_Some in Ho'. lia.
    + destruct (r - length (heap w)) as [|n] eqn:En; simpl in Ho';
        [|now rewrite lookup_nil in Ho'].
      injection Ho' as <-. simpl in Hr. injection Hr as <-.
      replace r with (length (heap w)) by lia. apply lookup_insert_eq.
Qed.

Lemma mapM_get_person_complete (ids : list Z) (w : World) :
  registry_sound w ->
  registry_complete w ->
  registry_complete (snd (mapM FamiLinx.get_person ids w)).
Proof.
  revert w. induction ids as [|id ids IH]; intros w Hreg Hco; [exact Hco|].
  simpl. unfold bind.
  pose proof (get_person_complete id w Hreg Hco) as Hco1.
  destruct (get_person_registry id w Hreg) as (r & w1 & E1 & _ & Hreg1 & _).
  rewrite E1 in *. simpl in Hco1. specialize (IH w1 Hreg1 Hco1).
  destruct (mapM FamiLinx.get_person ids w1) as [[rs|e] w2]; exact IH.
Qed.

(** The shape shared by the methods of [parents] and [children]: one
    statement, then one registry lookup per row. *)
Lemma children_method_eq (db : DataStore) (p : ref) (w : World)
    (o : PersonObj) :
  heap w !! p = Some o ->
  Person.children_method db p w
  = match mapM FamiLinx.get_person (select_child_ids db (person_id o))
            (queried w) with
    | (Ok rs, w2) => (Ok (VList (map VPerson rs)), w2)
    | (Raise e, w2) => (Raise e, w2)
    end.
Proof.
  intros Hp. unfold Person.children_method, bind.
  rewrite (self_id_ok _ _ _ Hp). simpl. fold (queried w).
  destruct (select_child_ids db (person_id o)) as [|row rows];
    [reflexivity|].
  now destruct (mapM FamiLinx.get_person (row :: rows) (queried w))
    as [[rs|e] w2].
Qed.

Lemma parents_method_eq (db : DataStore) (p : ref) (w : World)
    (o : PersonObj) :
  heap w !! p = Some o ->
  Person.parents_method db p w
  = match mapM FamiLinx.get_person (select_parent_ids db (person_id o))
            (queried w) with
    | (Ok rs, w2) => (Ok (VList (map VPerson rs)), w2)
    | (Raise e, w2) => (Raise e, w2)
    end.
Proof.
  intros Hp. unfold Person.parents_method, bind.
  rewrite (self_id_ok _ _ _ Hp). simpl. fold (queried w).
  destruct (select_parent_ids db (person_id o)) as [|row rows];
    [reflexivity|].
  now destruct (mapM FamiLinx.get_person (row :: rows) (queried w))
    as [[rs|e] w2].
Qed.

(** Reading [parents] or [children]: the instances of the rows of the
    query, in order; what the world satisfied it still satisfies. *)
Lemma read_relatives (key : string) (select : Z -> list Z)
    (method : ref -> M Value) (p : ref) (i : Z) (w : World) :
  (forall w0 o,
      heap w0 !! p = Some o ->
      method p w0
      = match mapM FamiLinx.get_person (select (person_id o)) (queried w0)
        with
        | (Ok rs, w2) => (Ok (VList (map VPerson rs)), w2)
        | (Raise e, w2) => (Raise e, w2)
        end) ->
  registry_sound w ->
  cached_from_store key select w ->
  id_of w p = Some i ->
  exists (rs : list ref) (w' : World),
    CachedProperty.getter key method p w
    = (Ok (VList (map VPerson rs)), w') /\
    has_ids w' rs (select i) /\
    registry_sound w' /\
    cached_from_store key select w' /\
    (forall key' select',
        key' <> key ->
        cached_from_store key' select' w ->
        cached_from_store key' select' w') /\
    (registry_complete w -> registry_complete w').
Proof.
  intros Hm Hreg Hcfs Hi. pose proof Hi as (o & Hp & Ho)%id_of_Some.
  destruct (cached_properties o !! key) as [v|] eqn:Hk.
  - rewrite (getter_hit _ _ _ _ _ _ Hp Hk).
    destruct (Hcfs p o v Hp Hk) as (rs & -> & Hrs).
    exists rs, w. split; [reflexivity|]. split; [now rewrite <- Ho|].
    repeat split; auto.
  - rewrite (getter_miss _ _ _ _ _ Hp Hk), (Hm w o Hp), Ho.
    destruct (mapM_get_person_registry (select i) (queried w) Hreg)
      as (rs & w2 & E & Hpeople & Hreg2 & _ & _).
    destruct (mapM_get_person_effect (select i) (queried w))
      as (rs' & w2' & ex & E' & Hh & _ & Hex).
    rewrite E in E'. injection E' as <- <-. rewrite E.
    pose proof (mapM_get_person_complete (select i) (queried w) Hreg)
      as Hco2. rewrite E in Hco2. simpl in Hco2.
    assert (Hp2 : heap w2 !! p = Some o).
    { rewrite Hh. now apply lookup_app_l_Some. }
    assert (Hrs2 : has_ids w2 rs (select (person_id o))).
    { rewrite Ho. eapply Forall2_impl; [exact Hpeople|].
      intros r j Hr. now apply Hreg2. }
    pose proof (cache_update_ok w2 p o
                  (insert key (VList (map VPerson rs))) Hp2) as Eu.
    pose proof (id_of_cache_update p (insert key (VList (map VPerson rs)))
                  w2) as Hid.
    pose proof (registry_cache_update p
                  (insert key (VList (map VPerson rs))) w2) as [Hs Hc].
    pose proof (cached_from_store_insert key select p o rs w2 Hp2 Hrs2
                  (cached_from_store_heap_app key select (queried w) w2 ex
                     Hh Hex Hcfs)) as Hins.
    assert (Hother : forall key' select',
               key' <> key ->
               cached_from_store key' select' w ->
               cached_from_store key' select'
                 (snd (CachedProperty.cache_update p
                         (insert key (VList (map VPerson rs))) w2))).
    { intros key' select' Hne H'.
      apply cached_from_store_update.
      - intros c u Hu. now rewrite lookup_insert_ne in Hu by congruence.
      - exact (cached_from_store_heap_app key' select' (queried w) w2 ex
                 Hh Hex H'). }
    rewrite Eu in *. simpl in *.
    eexists rs, _. split; [reflexivity|]. split.
    + rewrite <- Ho. eapply Forall2_impl; [exact Hrs2|].
      intros r j Hr. now rewrite Hid.
    + split; [now apply Hs|]. split; [exact Hins|].
      split; [exact Hother|]. intros H. apply Hc, Hco2. exact H.
Qed.

Lemma parents_list_spec (db : DataStore) (w : World) (p : ref) (i : Z) :
  consistent db w ->
  id_of w p = Some i ->
  exists (rs : list ref) (w' : World),
    Person.parents_list db p w = (Ok rs, w') /\
    has_ids w' rs (select_parent_ids db i) /\
    consistent db w' /\
    (registry_complete w -> registry_complete w').
Proof.
  intros (Hreg & Hch & Hpa) Hi.
  destruct (read_relatives "parents" (select_parent_ids db)
              (Person.parents_method db) p i w
              (parents_method_eq db p) Hreg Hpa Hi)
    as (rs & w' & E & Hrs & Hreg' & Hpa' & Hother & Hco).
  exists rs, w'. unfold Person.parents_list, Person.parents, bind.
  rewrite E. simpl. rewrite persons_of_map.
  split; [reflexivity|]. split; [exact Hrs|]. split; [|exact Hco].
  split; [exact Hreg'|]. split; [|exact Hpa'].
  now apply Hother.
Qed.

Lemma children_list_spec2 (db : DataStore) (w : World) (p : ref) (i : Z) :
  consistent db w ->
  id_of w p = Some i ->
  exists (rs : list ref) (w' : World),
    Person.children_list db p w = (Ok rs, w') /\
    has_ids w' rs (select_child_ids db i) /\
    consistent db w' /\
    (registry_complete w -> registry_complete w').
Proof.
  intros (Hreg & Hch & Hpa) Hi.
  destruct (read_relatives "children" (select_child_ids db)
              (Person.children_method db) p i w
              (children_method_eq db p) Hreg Hch Hi)
    as (rs & w' & E & Hrs & Hreg' & Hch' & Hother & Hco).
  exists rs, w'. unfold Person.children_list, Person.children, bind.
  rewrite E. simpl. rewrite persons_of_map.
  split; [reflexivity|]. split; [exact Hrs|]. split; [|exact Hco].
  split; [exact Hreg'|]. split; [exact Hch'|].
  now apply Hother.
Qed.

Lemma consistent_world_with (db : DataStore) (id : Z) :
  consistent db (world_with id) /\ registry_complete (world_with id).
Proof.
  unfold world_with.
  destruct (get_person_registry id empty_world registry_sound_empty)
    as (r & w' & E & _ & Hreg & _).
  destruct (get_person_effect id empty_world)
    as (r' & w'' & ex & E' & Hh & _ & Hex).
  pose proof (get_person_complete id empty_world registry_sound_empty
                registry_complete_empty) as Hco.
  rewrite E in E'. injection E' as <- <-. rewrite E in *. simpl in *.
  destruct (consistent_empty db) as (_ & Hch & Hpa).
  split; [|exact Hco]. split; [exact Hreg|]. split.
  - exact (cached_from_store_heap_app _ _ empty_world w' ex Hh Hex Hch).
  - exact (cached_from_store_heap_app _ _ empty_world w' ex Hh Hex Hpa).
Qed.

(** ** is_founder and is_leaf *)

(** X6: in a consistent world, [is_founder] is true exactly when the
    relationship table has no row with the id of the Person as Child_Id,
    and [is_leaf] exactly when it has no row with the id as Parent_Id. *)
Theorem founder_leaf_spec (db : DataStore) (w : World) (p : ref) (i : Z) :
  consistent db w ->
  id_of w p = Some i ->
  fst (Person.is_founder db p w)
  = Ok (match select_parent_ids db i with [] => true | _ => false end) /\
  fst (Person.is_leaf db p w)
  = Ok (match select_child_ids db i with [] => true | _ => false end).
Proof.
  intros Hco Hi. split.
  - destruct (parents_list_spec db w p i Hco Hi) as (rs & w' & E & Hrs & _).
    unfold Person.is_founder, bind. rewrite E. simpl.
    destruct Hrs; reflexivity.
  - destruct (children_list_spec2 db w p i Hco Hi) as (rs & w' & E & Hrs & _).
    unfold Person.is_leaf, bind. rewrite E. simpl.
    destruct Hrs; reflexivity.
Qed.

Lemma founder_leaf_spec_witness :
  fst (Person.is_founder family_store 0 (world_with 1)) = Ok true /\
  fst (Person.is_leaf family_store 0 (world_with 1)) = Ok false.
Proof.
  apply (founder_leaf_spec family_store (world_with 1) 0 1).
  - exact (proj1 (consistent_world_with family_store 1)).
  - reflexivity.
Defined.

(** ** mother and father *)

Lemma frames_first_of_gender (db : DataStore) (wanted : string)
    (ps : list ref) :
  frames (Person.first_of_gender db wanted ps).
Proof.
  induction ps as [|q ps IH]; simpl; [apply frames_ret|].
  apply frames_bind; [exact (frames_field_get db FGender q)|]. intros g.
  apply frames_bind.
  - unfold Person.eq_str. destruct g; auto with frames.
  - intros hit. destruct hit; [apply frames_ret | exact IH].
Qed.

Lemma parents_list_replay (db : DataStore) (p : ref) (w w1 w2 : World)
    (rs : list ref) :
  Person.parents_list db p w = (Ok rs, w1) ->
  cache_kept w1 w2 ->
  Person.parents_list db p w2 = (Ok rs, w2).
Proof.
  unfold Person.parents_list, Person.parents. unfold bind at 1.
  intros H Hkept.
  destruct (CachedProperty.getter _ _ p w) as [[v|e] wv] eqn:Ev;
    [|discriminate].
  assert (wv = w1 /\ Person.as_persons v w1 = (Ok rs, w1)) as [-> Hv].
  { unfold Person.as_persons in *. destruct v; try discriminate H.
    destruct (Person.persons_of vs); [|discriminate H].
    injection H as <- <-. now split. }
  unfold bind. rewrite (getter_replay _ _ _ _ _ _ _ Ev Hkept).
  unfold Person.as_persons in *. destruct v; try discriminate Hv.
  destruct (Person.persons_of vs); [|discriminate Hv].
  now injection Hv as <-.
Qed.

Lemma eq_str_Ok_inv (g : Value) (wanted : string) (w w1 : World)
    (hit : bool) :
  Person.eq_str g wanted w = (Ok hit, w1) ->
  w1 = w /\ (hit = true -> g = VStr wanted).
Proof.
  unfold Person.eq_str. destruct g; try discriminate;
    intros [= <- <-]; split; try reflexivity; try discriminate.
  intros H. apply String.eqb_eq in H. now subst.
Qed.

(** What the scan returns: None, or one of the scanned parents, whose
    gender then reads as the wanted one. *)
Lemma first_of_gender_result (db : DataStore) (wanted : string)
    (ps : list ref) :
  forall (w w' : World) (v : Value),
    Person.first_of_gender db wanted ps w = (Ok v, w') ->
    v = VNone \/
    exists m : ref,
      v = VPerson m /\ In m ps /\
      Person.gender db m w' = (Ok (VStr wanted), w').
Proof.
  induction ps as [|q ps IH]; intros w w' v H; simpl in H.
  - injection H as <- <-. now left.
  - unfold bind at 1 in H.
    destruct (Person.gender db q w) as [[g|e] w1] eqn:Eg; [|discriminate].
    unfold bind at 1 in H.
    destruct (Person.eq_str g wanted w1) as [[hit|e] w1'] eqn:Eh;
      [|discriminate].
    apply eq_str_Ok_inv in Eh as [-> Hg]. destruct hit.
    + injection H as <- <-. right. exists q.
      split; [reflexivity|]. split; [now left|].
      rewrite Hg in Eg by reflexivity.
      apply (getter_replay _ _ _ _ _ _ _ Eg), cache_kept_refl.
    + destruct (IH w1 w' v H) as [->|(m & -> & Hm & Hgm)]; [now left|].
      right. exists m. split; [reflexivity|]. split; [now right | exact Hgm].
Qed.

(** What both [mother] and [father] do, for the gender they look for. *)
Lemma parent_of_gender_result (db : DataStore) (wanted : string) (p : ref)
    (w w' : World) (v : Value) :
  (let* ps := Person.parents_list db p in
   Person.first_of_gender db wanted ps) w = (Ok v, w') ->
  v = VNone \/
  exists (m : ref) (ps : list ref),
    v = VPerson m /\
    Person.parents_list db p w' = (Ok ps, w') /\ In m ps /\
    Person.gender db m w' = (Ok (VStr wanted), w').
Proof.
  intros H. unfold bind in H.
  destruct (Person.parents_list db p w) as [[ps|e] w1] eqn:Ep;
    [|discriminate].
  pose proof (frames_first_of_gender db wanted ps w1) as Hfr.
  rewrite H in Hfr. simpl in Hfr.
  destruct (first_of_gender_result db wanted ps w1 w' v H)
    as [->|(m & -> & Hm & Hg)]; [now left|].
  right. exists m, ps. split; [reflexivity|].
  split; [now apply (parents_list_replay db p w w1 w')|]. now split.
Qed.

(** X7: [mother] returns None or one of [p.parents] whose gender reads
    'female', and [father] returns None or one of [p.parents] whose gender
    reads 'male' (both read from the caches the call left behind). *)
Theorem mother_father_spec (db : DataStore) (p : ref) (w w' : World)
    (v : Value) :
  (Person.mother db p w = (Ok v, w') ->
   v = VNone \/
   exists (m : ref) (ps : list ref),
     v = VPerson m /\
     Person.parents_list db p w' = (Ok ps, w') /\ In m ps /\
     Person.gender db m w' = (Ok (VStr "female"), w')) /\
  (Person.father db p w = (Ok v, w') ->
   v = VNone \/
   exists (f : ref) (ps : list ref),
     v = VPerson f /\
     Person.parents_list db p w' = (Ok ps, w') /\ In f ps /\
     Person.gender db f w' = (Ok (VStr "male"), w')).
Proof.
  split; intros H.
  - exact (parent_of_gender_result db "female" p w w' v H).
  - exact (parent_of_gender_result db "male" p w w' v H).
Qed.

Lemma mother_father_spec_witness :
  exists (m : ref) (ps : list ref) (w' : World),
    Person.father family_store 1 (snd (Person.children family_store 0
                                         (world_with 1)))
    = (Ok (VPerson m), w') /\
    Person.parents_list family_store 1 w' = (Ok ps, w') /\ In m ps /\
    Person.gender family_store m w' = (Ok (VStr "male"), w').
Proof.
  set (w := snd (Person.children family_store 0 (world_with 1))).
  destruct (proj2 (mother_father_spec family_store 1 w
                     (snd (Person.father family_store 1 w)) (VPerson 0))
              eq_refl)
    as [H|(f & ps & Hv & Hps & Hin & Hg)]; [discriminate H|].
  injection Hv as <-. exists 0, ps, (snd (Person.father family_store 1 w)).
  split; [reflexivity|]. now split.
Defined.

(** X8: the Person [mother] returns is never the one [father] returns
    afterwards, as long as nothing cached was dropped in between. *)
Theorem mother_father_distinct (db : DataStore) (p : ref)
    (w w1 w2 w3 : World) (m f : ref) :
  Person.mother db p w = (Ok (VPerson m), w1) ->
  cache_kept w1 w2 ->
  Person.father db p w2 = (Ok (VPerson f), w3) ->
  m <> f.
Proof.
  intros Hm Hk Hf.
  destruct (parent_of_gender_result db "female" p w w1 (VPerson m) Hm)
    as [H|(m' & _ & Hv & _ & _ & Hgm)]; [discriminate H|].
  injection Hv as <-.
  destruct (parent_of_gender_result db "male" p w2 w3 (VPerson f) Hf)
    as [H|(f' & _ & Hv & _ & _ & Hgf)]; [discriminate H|].
  injection Hv as <-.
  assert (Hfr : cache_kept w2 w3).
  { assert (H : cache_kept w2 (snd (Person.father db p w2))).
    { apply frames_bind; [apply frames_parents_list|].
      intros ps. apply frames_first_of_gender. }
    now rewrite Hf in H. }
  pose proof (getter_replay _ _ _ _ _ w3 _ Hgm
                (cache_kept_trans _ _ _ Hk Hfr)) as Hgm3.
  intros <-. unfold Person.gender in Hgf. rewrite Hgm3 in Hgf.
  discriminate Hgf.
Qed.

Lemma mother_father_distinct_witness :
  let w := snd (Person.children family_store 0 (world_with 1)) in
  let w1 := snd (Person.mother family_store 1 w) in
  fst (Person.mother family_store 1 w) = Ok (VPerson 3) /\
  fst (Person.father family_store 1 w1) = Ok (VPerson 0) /\
  3 <> 0.
Proof.
  intros w w1. split; [reflexivity|]. split; [reflexivity|].
  apply (mother_father_distinct family_store 1 w w1 w1
           (snd (Person.father family_store 1 w1)) 3 0).
  - reflexivity.
  - apply cache_kept_refl.
  - reflexivity.
Defined.

(** ** partners in a registry without evictions *)

Lemma add_partner_ids_spec (i : Z) (pids : list Z) :
  forall acc : list Z,
    NoDup acc ->
    NoDup (add_partner_ids i pids acc) /\
    forall x, In x (add_partner_ids i pids acc)
              <-> In x acc \/ (In x pids /\ x <> i).
Proof.
  unfold add_partner_ids.
  induction pids as [|j pids IH]; intros acc Hnd; simpl.
  - split; [exact Hnd|]. intros x. split; [now left | now intros [H|[[] _]]].
  - destruct (Z.eqb_spec j i) as [->|Hji].
    + destruct (IH acc Hnd) as [Hnd' Hin]. split; [exact Hnd'|].
      intros x. rewrite Hin. split.
      * intros [H|[H Hx]]; [now left | right; split; [now right | exact Hx]].
      * intros [H|[[<-|H] Hx]]; [now left | contradiction | now right].
    + destruct (existsb (fun k => Z.eqb k j) acc) eqn:Hex.
      * apply existsb_eqb_In in Hex.
        destruct (IH acc Hnd) as [Hnd' Hin]. split; [exact Hnd'|].
        intros x. rewrite Hin. split.
        -- intros [H|[H Hx]]; [now left | right; split; [now right|exact Hx]].
        -- intros [H|[[<-|H] Hx]]; [now left | now left | now right].
      * assert (Hnj : ~ In j acc).
        { intros H. apply existsb_eqb_In in H. congruence. }
        destruct (IH (acc ++ [j])) as [Hnd' Hin].
        { apply NoDup_app. split; [exact Hnd|]. split; [|apply NoDup_singleton].
          intros x Hx Hx'. apply list_elem_of_In in Hx.
          apply list_elem_of_singleton in Hx'. now subst. }
        split; [exact Hnd'|]. intros x. rewrite Hin, in_app_iff. simpl.
        split.
        -- intros [[H|[<-|[]]]|[H Hx]].
           ++ now left.
           ++ right. split; [now left | exact Hji].
           ++ right. split; [now right | exact Hx].
        -- intros [H|[[<-|H] Hx]].
           ++ left. now left.
           ++ left. right. now left.
           ++ now right.
Qed.

Lemma partner_ids_spec (db : DataStore) (i : Z) (cids : list Z) :
  forall acc : list Z,
    NoDup acc ->
    NoDup (partner_ids db i cids acc) /\
    forall x, In x (partner_ids db i cids acc)
              <-> In x acc \/
                  (x <> i /\
                   exists c, In c cids /\ In x (select_parent_ids db c)).
Proof.
  unfold partner_ids.
  induction cids as [|c cids IH]; intros acc Hnd; simpl.
  - split; [exact Hnd|]. intros x.
    split; [now left | now intros [H|[_ (c & [] & _)]]].
  - destruct (add_partner_ids_spec i (select_parent_ids db c) acc Hnd)
      as [Hnd1 Hin1].
    destruct (IH _ Hnd1) as [Hnd2 Hin2]. split; [exact Hnd2|].
    intros x. rewrite Hin2, Hin1. split.
    + intros [[H|[H Hx]]|[Hx (c' & Hc' & H)]].
      * now left.
      * right. split; [exact Hx|]. exists c. split; [now left | exact H].
      * right. split; [exact Hx|]. exists c'. split; [now right | exact H].
    + intros [H|[Hx (c' & [<-|Hc'] & H)]].
      * left. now left.
      * left. right. now split.
      * right. split; [exact Hx|]. now exists c'.
Qed.

Lemma has_ids_In (w : World) (rs : list ref) (ids : list Z) (r : ref) :
  has_ids w rs ids -> In r rs -> exists j, In j ids /\ id_of w r = Some j.
Proof.
  induction 1 as [|r' j rs ids Hr _ IH]; intros Hin; [destruct Hin|].
  destruct Hin as [->|Hin].
  - exists j. split; [now left | exact Hr].
  - destruct (IH Hin) as (k & Hk & Hrk). exists k. split; [now right|exact Hrk].
Qed.

(** In a complete registry two instances with the same id are one. *)
Lemma registry_complete_inj (w : World) (a b : ref) (i : Z) :
  registry_complete w ->
  id_of w a = Some i -> id_of w b = Some i -> a = b.
Proof.
  intros Hco Ha Hb. apply Hco in Ha. apply Hco in Hb. congruence.
Qed.

Lemma partners_inner_ids (rt : Runtime) (p : ref) (i : Z) (w : World) :
  registry_complete w ->
  id_of w p = Some i ->
  forall (ps : list ref) (pids : list Z) (acc : list ref) (aids : list Z),
    has_ids w ps pids ->
    has_ids w acc aids ->
    exists acc' : list ref,
      Person.partners_inner rt p ps acc w = (Ok acc', w) /\
      has_ids w acc' (add_partner_ids i pids aids).
Proof.
  intros Hco Hp ps pids acc aids Hps. revert acc aids.
  induction Hps as [|q j ps pids Hq _ IH]; intros acc aids Hacc.
  - exists acc. now split.
  - simpl. unfold Person.__ne__, add_partner_ids. simpl.
    fold (add_partner_ids i pids).
    destruct (Nat.eqb_spec q p) as [->|Hne]; simpl.
    + assert (j = i) as -> by congruence. rewrite Z.eqb_refl.
      now apply IH.
    + destruct (Z.eqb_spec j i) as [->|Hji].
      { exfalso. apply Hne. now apply (registry_complete_inj w q p i). }
      unfold bind. rewrite (set_add_ids rt w acc aids q j Hq Hacc).
      destruct (existsb (fun k => Z.eqb k j) aids).
      * now apply IH.
      * apply IH. apply Forall2_app; [exact Hacc|]. now repeat constructor.
Qed.

Lemma partners_outer_ids (rt : Runtime) (db : DataStore) (p : ref) (i : Z) :
  forall (cs : list ref) (cids : list Z) (acc : list ref) (aids : list Z)
         (w : World),
    consistent db w ->
    registry_complete w ->
    id_of w p = Some i ->
    has_ids w cs cids ->
    has_ids w acc aids ->
    exists (acc' : list ref) (w' : World),
      Person.partners_outer rt db p cs acc w = (Ok acc', w') /\
      has_ids w' acc' (partner_ids db i cids aids) /\
      cache_kept w w'.
Proof.
  induction cs as [|c cs IH]; intros cids acc aids w Hcon Hco Hp Hcs Hacc.
  - apply Forall2_nil_inv_l in Hcs as ->. exists acc, w.
    split; [reflexivity|]. split; [exact Hacc | apply cache_kept_refl].
  - apply Forall2_cons_inv_l in Hcs as (cj & cids' & Hc & Hcs & ->).
    simpl. unfold partner_ids. simpl. fold (partner_ids db i cids').
    destruct (parents_list_spec db w c cj Hcon Hc)
      as (ps & w1 & E & Hps & Hcon1 & Hco1).
    pose proof (frames_parents_list db c w) as Hk1. rewrite E in Hk1.
    simpl in Hk1. pose proof (cache_kept_extends _ _ Hk1) as He1.
    unfold bind at 1. rewrite E.
    destruct (partners_inner_ids rt p i w1 (Hco1 Hco) (He1 _ _ Hp)
                ps (select_parent_ids db cj) acc aids Hps
                (has_ids_extends w w1 _ _ He1 Hacc))
      as (acc1 & E1 & Hacc1).
    unfold bind at 1. rewrite E1.
    destruct (IH cids' acc1 (add_partner_ids i (select_parent_ids db cj) aids)
                w1 Hcon1 (Hco1 Hco) (He1 _ _ Hp)
                (has_ids_extends w w1 _ _ He1 Hcs) Hacc1)
      as (acc' & w' & E' & Hacc' & Hk').
    exists acc', w'. split; [exact E'|]. split; [exact Hacc'|].
    now apply (cache_kept_trans w w1 w').
Qed.

(** X9: in a consistent world from whose registry nothing was evicted,
    the first read of [p.partners] returns one instance per id, and the
    ids are exactly the ids, other than the id of [p], of the parents of
    the children of [p]; [p] itself is not among the instances. *)
Theorem partners_spec (rt : Runtime) (db : DataStore) (w : World) (p : ref)
    (o : PersonObj) :
  consistent db w ->
  registry_complete w ->
  heap w !! p = Some o ->
  cached_properties o !! "partners"%string = None ->
  exists (rs : list ref) (ids : list Z) (w' : World),
    Person.partners rt db p w = (Ok (VList (map VPerson rs)), w') /\
    has_ids w' rs ids /\
    NoDup ids /\
    (forall j : Z,
        In j ids <->
        j <> person_id o /\
        exists c : Z,
          child_edge db (person_id o) c /\ In j (select_parent_ids db c)) /\
    ~ In p rs.
Proof.
  intros Hcon Hco Hp Hk.
  assert (Hi : id_of w p = Some (person_id o)).
  { apply id_of_Some. now exists o. }
  unfold Person.partners. rewrite (getter_miss _ _ _ _ _ Hp Hk).
  unfold Person.partners_method. unfold bind at 1.
  destruct (children_list_spec2 db w p (person_id o) Hcon Hi)
    as (cs & w1 & E & Hcs & Hcon1 & Hco1).
  pose proof (frames_children_list db p w) as Hk1. rewrite E in Hk1.
  simpl in Hk1. pose proof (cache_kept_extends _ _ Hk1) as He1.
  rewrite E.
  destruct (partners_outer_ids rt db p (person_id o) cs
              (select_child_ids db (person_id o)) [] [] w1 Hcon1
              (Hco1 Hco) (He1 _ _ Hi) Hcs)
    as (s & w2 & E2 & Hs & Hk2); [constructor|].
  unfold bind at 1. rewrite E2. simpl.
  destruct (cache_kept_trans _ _ _ Hk1 Hk2 p o Hp) as (o2 & Hp2 & Hi2 & _).
  pose proof (cache_update_ok w2 p o2
                (insert "partners"%string (VList (map VPerson s))) Hp2)
    as Eu.
  pose proof (id_of_cache_update p
                (insert "partners"%string (VList (map VPerson s))) w2)
    as Hid.
  rewrite Eu in *. simpl in Hid.
  destruct (partner_ids_spec db (person_id o)
              (select_child_ids db (person_id o)) [])
    as [Hnd Hin]; [constructor|].
  eexists s, _, _. split; [reflexivity|].
  assert (Hs3 : has_ids
                  {| heap := <[p := {| person_id := person_id o2;
                                       cached_properties :=
                                         <["partners"%string :=
                                             VList (map VPerson s)]>
                                           (cached_properties o2) |}]>
                               (heap w2);
                     people := people w2; nqueries := nqueries w2 |}
                  s (partner_ids db (person_id o)
                       (select_child_ids db (person_id o)) [])).
  { eapply Forall2_impl; [exact Hs|]. intros r j Hr. now rewrite Hid. }
  split; [exact Hs3|]. split; [exact Hnd|]. split.
  - intros j. rewrite Hin. split.
    + intros [[]|H]. exact H.
    + intros H. now right.
  - intros Hps. destruct (has_ids_In _ _ _ _ Hs3 Hps) as (j & Hj & Hpj).
    apply Hin in Hj as [[]|[Hne _]]. apply Hne.
    rewrite Hid in Hpj.
    pose proof (cache_kept_extends _ _ (cache_kept_trans _ _ _ Hk1 Hk2)
                  _ _ Hi) as Hpi.
    congruence.
Qed.

Lemma partners_spec_witness :
  exists (rs : list ref) (ids : list Z) (w' : World),
    Person.partners example_runtime family_store 0 (world_with 1)
    = (Ok (VList (map VPerson rs)), w') /\
    has_ids w' rs ids /\
    NoDup ids /\
    (forall j : Z,
        In j ids <->
        j <> 1%Z /\
        exists c : Z,
          child_edge family_store 1 c /\
          In j (select_parent_ids family_store c)) /\
    ~ In 0 rs.
Proof.
  apply (partners_spec example_runtime family_store (world_with 1) 0
           (FamiLinx.new_person 1)).
  - exact (proj1 (consistent_world_with family_store 1)).
  - exact (proj2 (consistent_world_with family_store 1)).
  - reflexivity.
  - reflexivity.
Defined.

(** ** walk: dict operations on instances and on ids *)

Lemma has_dict_extends (w w' : World) (d : list (ref * Z))
    (dids : list (Z * Z)) :
  extends w w' -> has_dict w d dids -> has_dict w' d dids.
Proof.
  intros He H. unfold has_dict in *.
  eapply Forall2_impl; [exact H|]. intros e f [Hk Hv]. split; auto.
Qed.

Lemma dict_get_ids (rt : Runtime) (w : World) (d : list (ref * Z))
    (dids : list (Z * Z)) (x : ref) (i : Z) :
  id_of w x = Some i ->
  has_dict w d dids ->
  dict_get (Person.__hash__ rt) Person.person_eq d x w
  = (Ok (ids_get dids i), w).
Proof.
  intros Hx Hd. unfold ids_get.
  induction Hd as [|[y v] [k u] d dids [Hy Hv] _ IH]; [reflexivity|].
  simpl in *. subst u. rewrite (hash_constant rt y x), Z.eqb_refl.
  destruct (Nat.eqb_spec y x) as [->|Hne].
  - assert (k = i) as -> by congruence. now rewrite Z.eqb_refl.
  - unfold bind. rewrite (person_eq_ids _ _ _ _ _ Hy Hx).
    destruct (Z.eqb k i); [reflexivity | exact IH].
Qed.

Lemma dict_getitem_ids (rt : Runtime) (w : World) (d : list (ref * Z))
    (dids : list (Z * Z)) (x : ref) (i : Z) :
  id_of w x = Some i ->
  has_dict w d dids ->
  dict_getitem (Person.__hash__ rt) Person.person_eq d x w
  = match ids_get dids i with
    | Some v => (Ok v, w)
    | None => (Raise KeyError, w)
    end.
Proof.
  intros Hx Hd. unfold dict_getitem, bind.
  rewrite (dict_get_ids rt w d dids x i Hx Hd).
  now destruct (ids_get dids i).
Qed.

Lemma dict_setitem_ids (rt : Runtime) (w : World) (d : list (ref * Z))
    (dids : list (Z * Z)) (x : ref) (i v : Z) :
  id_of w x = Some i ->
  has_dict w d dids ->
  exists d' : list (ref * Z),
    dict_setitem (Person.__hash__ rt) Person.person_eq d x v w
    = (Ok d', w) /\
    has_dict w d' (ids_set dids i v).
Proof.
  intros Hx Hd.
  induction Hd as [|[y u] [k u'] d dids [Hy Hv] Hd IH]; simpl in *.
  - exists [(x, v)]. split; [reflexivity|]. now repeat constructor.
  - subst u'. rewrite (hash_constant rt y x), Z.eqb_refl.
    destruct (Nat.eqb_spec y x) as [->|Hne].
    + assert (k = i) as -> by congruence. rewrite Z.eqb_refl.
      eexists. split; [reflexivity|]. constructor; [now split | exact Hd].
    + unfold bind. rewrite (person_eq_ids _ _ _ _ _ Hy Hx).
      destruct (Z.eqb k i).
      * eexists. split; [reflexivity|]. constructor; [now split | exact Hd].
      * destruct IH as (d' & E & Hd'). rewrite E.
        eexists. split; [reflexivity|]. constructor; [now split | exact Hd'].
Qed.

Lemma dists_init_ids (rt : Runtime) (w : World) (ns : list ref)
    (nids : list Z) :
  has_ids w ns nids ->
  forall (d : list (ref * Z)) (dids : list (Z * Z)),
    has_dict w d dids ->
    exists d' : list (ref * Z),
      Person.dists_init rt ns d w = (Ok d', w) /\
      has_dict w d' (init_ids nids dids).
Proof.
  unfold init_ids.
  induction 1 as [|n j ns nids Hn _ IH]; intros d dids Hd; simpl.
  - exists d. now split.
  - destruct (dict_setitem_ids rt w d dids n j 1%Z Hn Hd) as (d1 & E & Hd1).
    unfold bind. rewrite E. now apply IH.
Qed.

Lemma dists_relax_ids (rt : Runtime) (w : World) (ns : list ref)
    (nids : list Z) (dist : Z) :
  has_ids w ns nids ->
  forall (d : list (ref * Z)) (dids : list (Z * Z)),
    has_dict w d dids ->
    exists d' : list (ref * Z),
      Person.dists_relax rt ns dist d w = (Ok d', w) /\
      has_dict w d' (relax_ids nids dist dids).
Proof.
  unfold relax_ids.
  induction 1 as [|n j ns nids Hn _ IH]; intros d dids Hd; simpl.
  - exists d. now split.
  - unfold bind at 1. rewrite (dict_get_ids rt w d dids n j Hn Hd).
    destruct (dict_setitem_ids rt w d dids n j
                (Z.min (default (dist + 1)%Z (ids_get dids j)) (dist + 1)%Z)
                Hn Hd) as (d1 & E & Hd1).
    unfold bind. rewrite E. now apply IH.
Qed.

(** [person.children + person.parents] in a consistent world. *)
Lemma neighbors_of_spec (db : DataStore) (w : World) (x : ref) (i : Z) :
  consistent db w ->
  id_of w x = Some i ->
  exists (ns : list ref) (w' : World),
    Person.neighbors_of db x w = (Ok ns, w') /\
    has_ids w' ns (neighbor_ids db i) /\
    consistent db w' /\
    cache_kept w w'.
Proof.
  intros Hcon Hx.
  destruct (children_list_spec2 db w x i Hcon Hx)
    as (cs & w1 & E1 & Hcs & Hcon1 & _).
  pose proof (frames_children_list db x w) as Hk1. rewrite E1 in Hk1.
  simpl in Hk1. pose proof (cache_kept_extends _ _ Hk1) as He1.
  destruct (parents_list_spec db w1 x i Hcon1 (He1 _ _ Hx))
    as (ps & w2 & E2 & Hps & Hcon2 & _).
  pose proof (frames_parents_list db x w1) as Hk2. rewrite E2 in Hk2.
  simpl in Hk2. pose proof (cache_kept_extends _ _ Hk2) as He2.
  exists (cs ++ ps), w2. unfold Person.neighbors_of, bind.
  rewrite E1, E2. split; [reflexivity|]. split.
  - apply Forall2_app; [now apply (has_ids_extends w1 w2) | exact Hps].
  - split; [exact Hcon2 | now apply (cache_kept_trans w w1 w2)].
Qed.

(** ** walk: the loop on the heap follows the loop on identifiers *)

(** The body of the loop once the popped instance passed the test. *)
Lemma walk_visit_sim (rt : Runtime) (db : DataStore) (depth : nat)
    (limit : option Z) (fuel : nat) :
  walk_sim_at rt db depth limit fuel ->
  forall (qr vr : list ref) (dr : list (ref * Z)) (outr : list ref)
         (q v : list Z) (d : list (Z * Z)) (out : list Z) (w : World)
         (x : ref) (i : Z),
    consistent db w ->
    has_ids w qr q -> has_ids w vr v -> has_dict w dr d ->
    has_ids w outr out ->
    id_of w x = Some i ->
    existsb (fun j => Z.eqb j i) v = false ->
    let run :=
      (let* visited' := set_add (Person.__hash__ rt) Person.person_eq vr x in
       let* neighbors := Person.neighbors_of db x in
       let* dist := dict_getitem (Person.__hash__ rt) Person.person_eq
                      dr x in
       let* dists' := Person.dists_relax rt neighbors dist dr in
       Person.walk_loop rt db fuel depth (cell_of_limit limit)
         (default 0%Z limit) (qr ++ neighbors) visited' dists'
         (outr ++ [x])) w in
    cache_kept w (snd run) /\
    consistent db (snd run) /\
    agrees
      match ids_get d i with
      | None => Raise KeyError
      | Some dist =>
          walk_ids db fuel limit (q ++ neighbor_ids db i) (v ++ [i])
            (relax_ids (neighbor_ids db i) dist d) (out ++ [i])
      end run.
Proof.
  intros IH qr vr dr outr q v d out w x i Hcon Hq Hv Hd Hout Hx Hi run.
  destruct (neighbors_of_spec db w x i Hcon Hx)
    as (ns & w1 & E & Hns & Hcon1 & Hk1).
  pose proof (cache_kept_extends _ _ Hk1) as He1.
  pose proof (dict_getitem_ids rt w1 dr d x i (He1 _ _ Hx)
                (has_dict_extends _ _ _ _ He1 Hd)) as Eg.
  destruct (ids_get d i) as [dist|].
  - destruct (dists_relax_ids rt w1 ns (neighbor_ids db i) dist Hns dr d
                (has_dict_extends _ _ _ _ He1 Hd)) as (d' & Er & Hd').
    assert (Erun : run
                   = Person.walk_loop rt db fuel depth (cell_of_limit limit)
                       (default 0%Z limit) (qr ++ ns) (vr ++ [x]) d'
                       (outr ++ [x]) w1).
    { unfold run, bind.
      rewrite (set_add_ids rt w vr v x i Hx Hv), Hi, E, Eg, Er.
      reflexivity. }
    rewrite Erun.
    destruct (IH (qr ++ ns) (vr ++ [x]) d' (outr ++ [x])
                (q ++ neighbor_ids db i) (v ++ [i])
                (relax_ids (neighbor_ids db i) dist d) (out ++ [i]) w1 Hcon1)
      as (Hk & Hcon' & Hag).
    + apply Forall2_app; [now apply (has_ids_extends w w1) | exact Hns].
    + apply Forall2_app; [now apply (has_ids_extends w w1)|].
      constructor; [now apply He1 | constructor].
    + exact Hd'.
    + apply Forall2_app; [now apply (has_ids_extends w w1)|].
      constructor; [now apply He1 | constructor].
    + split; [now apply (cache_kept_trans w w1)|]. now split.
  - assert (Erun : run = (Raise KeyError, w1)).
    { unfold run, bind.
      rewrite (set_add_ids rt w vr v x i Hx Hv), Hi, E, Eg. reflexivity. }
    rewrite Erun. simpl. split; [exact Hk1|]. split; [exact Hcon1|].
    reflexivity.
Qed.

Lemma walk_loop_sim (rt : Runtime) (db : DataStore) (depth : nat)
    (limit : option Z) (fuel : nat) :
  limit = None \/ 0 < depth -> walk_sim_at rt db depth limit fuel.
Proof.
  intros Hdepth. induction fuel as [|fuel IH];
    intros qr vr dr outr q v d out w Hcon Hq Hv Hd Hout.
  - simpl. split; [apply cache_kept_refl|]. now split.
  - cbn [walk_ids]. pose proof (list_pop_inv q) as Hpop.
    destruct (list_pop q) as [[q' i]|].
    + subst q. apply Forall2_app_inv_r in Hq as (qr' & xs & Hq' & Hx & ->).
      apply Forall2_cons_inv_r in Hx as (x & xs' & Hx & Hnil & ->).
      apply Forall2_nil_inv_r in Hnil as ->.
      pose proof (set_contains_ids rt w vr v x i Hx Hv) as Es.
      pose proof (walk_visit_sim rt db depth limit fuel IH qr' vr dr outr
                    q' v d out w x i Hcon Hq' Hv Hd Hout Hx) as Hvisit.
      destruct (existsb (fun j => Z.eqb j i) v) eqn:Hi.
      * replace (Person.walk_loop rt db (S fuel) depth (cell_of_limit limit)
                   (default 0%Z limit) (qr' ++ [x]) vr dr outr w)
          with (Person.walk_loop rt db fuel depth (cell_of_limit limit)
                  (default 0%Z limit) qr' vr dr outr w).
        { now apply IH. }
        cbn [Person.walk_loop]. rewrite list_pop_snoc. unfold bind.
        now rewrite Es.
      * specialize (Hvisit eq_refl). cbv zeta in Hvisit.
        destruct limit as [r|].
        -- destruct Hdepth as [Hnone|Hdepth]; [discriminate Hnone|].
           destruct depth as [|depth']; [lia|].
           pose proof (dict_getitem_ids rt w dr d x i Hx Hd) as Eg.
           destruct (ids_get d i) as [dv|] eqn:Hdv.
           ++ destruct (Z.leb dv r) eqn:Hle.
              ** match type of Hvisit with
                 | context [agrees _ ?run] =>
                     replace (Person.walk_loop rt db (S fuel) (S depth')
                                (cell_of_limit (Some r))
                                (default 0%Z (Some r)) (qr' ++ [x]) vr dr
                                outr w) with run
                 end.
                 { simpl. rewrite Hle. exact Hvisit. }
                 cbn [Person.walk_loop]. rewrite list_pop_snoc.
                 unfold bind, cell_of_limit. rewrite Es. cbv beta iota.
                 cbn [Person.call_visitable].
                 unfold Person.within_radius, bind. rewrite Eg.
                 cbv beta iota. unfold ret.
                 change (default 0%Z (Some r)) with r. now rewrite Hle.
              ** replace (Person.walk_loop rt db (S fuel) (S depth')
                            (cell_of_limit (Some r)) (default 0%Z (Some r))
                            (qr' ++ [x]) vr dr outr w)
                   with (Person.walk_loop rt db fuel (S depth')
                           (cell_of_limit (Some r)) (default 0%Z (Some r))
                           qr' vr dr outr w).
                 { simpl. rewrite Hle. now apply IH. }
                 cbn [Person.walk_loop]. rewrite list_pop_snoc.
                 unfold bind, cell_of_limit. rewrite Es. cbv beta iota.
                 cbn [Person.call_visitable].
                 unfold Person.within_radius, bind. rewrite Eg.
                 cbv beta iota. unfold ret.
                 change (default 0%Z (Some r)) with r. now rewrite Hle.
           ++ replace (Person.walk_loop rt db (S fuel) (S depth')
                         (cell_of_limit (Some r)) (default 0%Z (Some r))
                         (qr' ++ [x]) vr dr outr w)
                with (@Raise (option (list ref)) KeyError, w).
              { simpl. split; [apply cache_kept_refl|]. now split. }
              cbn [Person.walk_loop]. rewrite list_pop_snoc.
              unfold bind, cell_of_limit. rewrite Es. cbv beta iota.
              cbn [Person.call_visitable].
              unfold Person.within_radius, bind. now rewrite Eg.
        -- match type of Hvisit with
           | context [agrees _ ?run] =>
               replace (Person.walk_loop rt db (S fuel) depth
                          (cell_of_limit None) (default 0%Z None)
                          (qr' ++ [x]) vr dr outr w) with run
           end.
           { exact Hvisit. }
           cbn [Person.walk_loop]. rewrite list_pop_snoc.
           unfold bind. rewrite Es. reflexivity.
    + subst q. apply Forall2_nil_inv_r in Hq as ->. simpl.
      split; [apply cache_kept_refl|]. now split.
Qed.

(** ** walk: the loop on identifiers *)

Lemma ids_get_set (d : list (Z * Z)) (k v x : Z) :
  ids_get (ids_set d k v) x
  = if Z.eqb k x then Some v else ids_get d x.
Proof.
  unfold ids_get. induction d as [|[k' u] d IH]; simpl.
  - destruct (Z.eqb k x); reflexivity.
  - destruct (Z.eqb_spec k' k) as [->|Hne]; simpl.
    + destruct (Z.eqb k x); reflexivity.
    + destruct (Z.eqb_spec k' x) as [->|Hx]; simpl.
      * destruct (Z.eqb_spec k x) as [->|_]; [contradiction | reflexivity].
      * exact IH.
Qed.

Lemma In_select_parent_ids (db : DataStore) (a c : Z) :
  In c (select_parent_ids db a) <-> child_edge db c a.
Proof.
  unfold child_edge, select_parent_ids, select_child_ids.
  rewrite !in_map_iff. split.
  - intros ([p q] & <- & H). apply filter_In in H as [H E]. simpl in *.
    apply Z.eqb_eq in E. subst q. exists (p, a). split; [reflexivity|].
    apply filter_In. split; [exact H | apply Z.eqb_refl].
  - intros ([p q] & <- & H). apply filter_In in H as [H E]. simpl in *.
    apply Z.eqb_eq in E. subst p. exists (c, q). split; [reflexivity|].
    apply filter_In. split; [exact H | apply Z.eqb_refl].
Qed.

Lemma In_neighbor_ids (db : DataStore) (a c : Z) :
  In c (neighbor_ids db a) <-> linked db a c.
Proof.
  unfold neighbor_ids, linked. rewrite in_app_iff, In_select_parent_ids.
  reflexivity.
Qed.

(** The [for neighbor in neighbors] loop keeps [dists] in order, keeps
    its keys and makes every neighbour a key. *)
Lemma relax_ids_ok (db : DataStore) (start i : Z) (n : nat) (ns : list Z) :
  hops db start n i ->
  (forall x, In x ns -> linked db i x) ->
  forall d : list (Z * Z),
    dists_ok db start d ->
    dists_ok db start (relax_ids ns (Z.of_nat n) d) /\
    (forall x, ids_get d x <> None ->
               ids_get (relax_ids ns (Z.of_nat n) d) x <> None) /\
    (forall x, In x ns ->
               ids_get (relax_ids ns (Z.of_nat n) d) x <> None).
Proof.
  intros Hi. unfold relax_ids.
  induction ns as [|x ns IH]; intros Hns d Hd; simpl.
  - split; [exact Hd|]. split; [auto | intros x []].
  - set (d1 := ids_set d x
                 (Z.min (default (Z.of_nat n + 1)%Z (ids_get d x))
                    (Z.of_nat n + 1)%Z)).
    assert (Hd1 : dists_ok db start d1).
    { destruct Hd as [H0 Hpath]. split.
      - unfold d1. rewrite ids_get_set.
        destruct (Z.eqb_spec x start) as [->|_]; [|exact H0].
        rewrite H0. simpl. f_equal. lia.
      - intros k dv. unfold d1. rewrite ids_get_set.
        destruct (Z.eqb_spec x k) as [->|_]; [|apply Hpath].
        intros [= <-].
        destruct (ids_get d k) as [old|] eqn:Hold; simpl.
        + destruct (Z.min_spec old (Z.of_nat n + 1)) as [[_ ->]|[_ ->]].
          * now apply Hpath.
          * exists (S n). split; [lia|].
            apply (hops_next db start n i k Hi). apply Hns. now left.
        + exists (S n). split; [lia|].
          apply (hops_next db start n i k Hi). apply Hns. now left. }
    destruct (IH (fun y Hy => Hns y (or_intror Hy)) d1 Hd1)
      as (Hok & Hkeep & Hnew).
    split; [exact Hok|]. split.
    + intros y Hy. apply Hkeep. unfold d1. rewrite ids_get_set.
      destruct (Z.eqb x y); [discriminate | exact Hy].
    + intros y [<-|Hy]; [|now apply Hnew].
      apply Hkeep. unfold d1. rewrite ids_get_set, Z.eqb_refl. discriminate.
Qed.

Lemma select_parent_ids_rows (db : DataStore) (i : Z) :
  length (select_parent_ids db i)
  = length (List.filter (fun row => Z.eqb (snd row) i) (relationship db)).
Proof. unfold select_parent_ids. apply length_map. Qed.

(** Visiting [i] removes from the pending ends the rows of its
    neighbours. *)
Lemma pending_ends_visit (db : DataStore) (visited : list Z) (i : Z) :
  existsb (fun j => Z.eqb j i) visited = false ->
  pending_ends db (visited ++ [i]) + length (neighbor_ids db i)
  = pending_ends db visited.
Proof.
  intros Hi. unfold pending_ends, neighbor_ids. rewrite length_app.
  pose proof (pending_rows_visit db visited i Hi) as H1.
  assert (H2 : length (List.filter
                         (fun row =>
                            negb (existsb (fun j => Z.eqb j (snd row))
                                    (visited ++ [i])))
                         (relationship db))
               + length (select_parent_ids db i)
               = length (List.filter
                           (fun row =>
                              negb (existsb (fun j => Z.eqb j (snd row))
                                      visited))
                           (relationship db))).
  { rewrite select_parent_ids_rows.
    induction (relationship db) as [|[a b] rows IH]; [reflexivity|].
    cbn [List.filter snd]. rewrite existsb_app. cbn [existsb].
    rewrite orb_false_r.
    destruct (Z.eqb_spec i b) as [->|Hne].
    - rewrite Hi, Z.eqb_refl, orb_true_r. simpl. lia.
    - replace (Z.eqb b i) with false
        by (symmetry; apply Z.eqb_neq; congruence).
      rewrite orb_false_r.
      destruct (existsb (fun j => Z.eqb j b) visited); simpl; lia. }
  lia.
Qed.

(** The popped id is dropped: it was visited, or it is too far. *)
Lemma walk_inv_drop (db : DataStore) (start : Z) (limit : option Z)
    (q : list Z) (i : Z) (v : list Z) (d : list (Z * Z)) :
  walk_inv db start limit (q ++ [i]) v d ->
  In i v \/
  (exists r dist, limit = Some r /\ ids_get d i = Some dist /\
                  (r < dist)%Z) ->
  walk_inv db start limit q v d.
Proof.
  intros (Hnd & Hkeys & Hd & Hvis & Hstart & Hclosed) Hwhy.
  split; [exact Hnd|]. split; [|split; [exact Hd|split; [exact Hvis|split]]].
  - intros x Hx. apply Hkeys, in_or_app. now left.
  - intros Hr. destruct (Hstart Hr) as [H|H]; [now left|].
    apply in_app_or in H as [H|[<-|[]]]; [now right|].
    destruct Hwhy as [Hin|(r & dist & Hl & Hg & Hlt)]; [now left|].
    destruct Hd as [H0 _]. rewrite H0 in Hg. injection Hg as <-.
    specialize (Hr r Hl). lia.
  - intros Hl a c Ha Hc. destruct (Hclosed Hl a c Ha Hc) as [H|H]; [now left|].
    apply in_app_or in H as [H|[<-|[]]]; [now right|].
    destruct Hwhy as [Hin|(r & dist & Hl' & _)]; [now left | congruence].
Qed.

(** The popped id is visited. *)
Lemma walk_inv_visit (db : DataStore) (start : Z) (limit : option Z)
    (q : list Z) (i : Z) (v : list Z) (d : list (Z * Z)) (n : nat) :
  walk_inv db start limit (q ++ [i]) v d ->
  ~ In i v ->
  hops db start n i ->
  (forall r, limit = Some r -> (Z.of_nat n <= r)%Z) ->
  walk_inv db start limit (q ++ neighbor_ids db i) (v ++ [i])
    (relax_ids (neighbor_ids db i) (Z.of_nat n) d).
Proof.
  intros (Hnd & Hkeys & Hd & Hvis & Hstart & Hclosed) Hni Hi Hle.
  destruct (relax_ids_ok db start i n (neighbor_ids db i) Hi
              (fun x Hx => proj1 (In_neighbor_ids db i x) Hx) d Hd)
    as (Hd' & Hkeep & Hnew).
  split; [|split; [|split; [exact Hd'|split; [|split]]]].
  - apply NoDup_app. split; [exact Hnd|]. split; [|apply NoDup_singleton].
    intros x Hx Hx'. apply list_elem_of_In in Hx.
    apply list_elem_of_singleton in Hx'. now subst.
  - intros x Hx. apply in_app_or in Hx as [Hx|Hx]; [|now apply Hnew].
    apply Hkeep, Hkeys, in_or_app. now left.
  - intros x Hx. apply in_app_or in Hx as [Hx|[<-|[]]]; [now apply Hvis|].
    exists n. now split.
  - intros Hr. destruct (Hstart Hr) as [H|H].
    + left. apply in_or_app. now left.
    + apply in_app_or in H as [H|[<-|[]]].
      * right. apply in_or_app. now left.
      * left. apply in_or_app. right. now left.
  - intros Hl a c Ha Hc. apply in_app_or in Ha as [Ha|[<-|[]]].
    + destruct (Hclosed Hl a c Ha Hc) as [H|H].
      * left. apply in_or_app. now left.
      * apply in_app_or in H as [H|[<-|[]]].
        -- right. apply in_or_app. now left.
        -- left. apply in_or_app. right. now left.
    + right. apply in_or_app. right. now apply In_neighbor_ids.
Qed.

(** With the invariant and enough fuel the loop on identifiers returns,
    and the invariant holds of what it returns. *)
Lemma walk_ids_exact (db : DataStore) (start : Z) (limit : option Z)
    (fuel : nat) :
  forall (q v : list Z) (d : list (Z * Z)),
    walk_inv db start limit q v d ->
    length q + pending_ends db v < fuel ->
    exists (res : list Z) (d' : list (Z * Z)),
      walk_ids db fuel limit q v d v = Ok (Some res) /\
      walk_inv db start limit [] res d'.
Proof.
  induction fuel as [|fuel IH]; intros q v d Hinv Hfuel; [lia|].
  simpl. pose proof (list_pop_inv q) as Hpop.
  destruct (list_pop q) as [[q' i]|]; [|subst q; now exists v, d].
  subst q. rewrite length_app in Hfuel. simpl in Hfuel.
  destruct (existsb (fun j => Z.eqb j i) v) eqn:Hi.
  - apply IH; [|lia]. apply (walk_inv_drop db start limit q' i v d Hinv).
    left. now apply existsb_eqb_In.
  - assert (Hni : ~ In i v).
    { intros H. apply existsb_eqb_In in H. congruence. }
    pose proof Hinv as (_ & Hkeys & [_ Hpath] & _).
    destruct (ids_get d i) as [dist|] eqn:Hg.
    2:{ exfalso. apply (Hkeys i); [|exact Hg]. apply in_or_app. right.
        now left. }
    destruct (Hpath i dist Hg) as (n & -> & Hn).
    assert (Hvisit : (forall r, limit = Some r -> (Z.of_nat n <= r)%Z) ->
               exists (res : list Z) (d' : list (Z * Z)),
                 walk_ids db fuel limit (q' ++ neighbor_ids db i) (v ++ [i])
                   (relax_ids (neighbor_ids db i) (Z.of_nat n) d) (v ++ [i])
                 = Ok (Some res) /\
                 walk_inv db start limit [] res d').
    { intros Hle. apply IH.
      - now apply walk_inv_visit.
      - rewrite length_app.
        pose proof (pending_ends_visit db v i Hi). lia. }
    destruct limit as [r|]; simpl.
    + destruct (Z.leb_spec (Z.of_nat n) r) as [Hle|Hgt].
      * apply Hvisit. intros r' [= <-]. exact Hle.
      * apply IH; [|lia].
        apply (walk_inv_drop db start (Some r) q' i v d Hinv).
        right. now exists r, (Z.of_nat n).
    + apply Hvisit. intros r' H. discriminate H.
Qed.

(** What is connected to the start is in every set that holds the start
    and the neighbours of its members. *)
Lemma hops_closed (db : DataStore) (S : Z -> Prop) (a c : Z) (n : nat) :
  S a ->
  (forall u v, S u -> linked db u v -> S v) ->
  hops db a n c ->
  S c.
Proof.
  intros Ha Hclosed H. induction H as [|n b c _ IH Hbc]; [exact Ha|].
  now apply (Hclosed b).
Qed.

(** The state in which [walk] enters its loop satisfies the invariant. *)
Lemma walk_inv_init (db : DataStore) (start : Z) (limit : option Z) :
  walk_inv db start limit (start :: neighbor_ids db start) []
    (ids_set (init_ids (neighbor_ids db start) []) start 0).
Proof.
  assert (Hinit : forall ns d,
             (forall k dv, ids_get d k = Some dv ->
                           dv = 1%Z /\ In k (neighbor_ids db start)) ->
             (forall x, In x ns -> In x (neighbor_ids db start)) ->
             (forall k dv, ids_get (init_ids ns d) k = Some dv ->
                           dv = 1%Z /\ In k (neighbor_ids db start)) /\
             (forall x, In x ns \/ ids_get d x <> None ->
                        ids_get (init_ids ns d) x <> None)).
  { unfold init_ids. induction ns as [|x ns IH]; intros d Hd Hns; simpl.
    - split; [exact Hd|]. now intros x [[]|H].
    - destruct (IH (ids_set d x 1%Z)) as [H1 H2].
      + intros k dv. rewrite ids_get_set.
        destruct (Z.eqb_spec x k) as [->|_]; [|apply Hd].
        intros [= <-]. split; [reflexivity|]. apply Hns. now left.
      + intros y Hy. apply Hns. now right.
      + split; [exact H1|]. intros y [[<-|Hy]|Hy].
        * apply H2. right. rewrite ids_get_set, Z.eqb_refl. discriminate.
        * apply H2. now left.
        * apply H2. right. rewrite ids_get_set.
          destruct (Z.eqb x y); [discriminate | exact Hy]. }
  destruct (Hinit (neighbor_ids db start) []) as [Hval Hkeys].
  { intros k dv H. discriminate H. }
  { auto. }
  split; [constructor|]. split; [|split; [split|split; [|split]]].
  - intros x Hx. rewrite ids_get_set.
    destruct (Z.eqb start x) eqn:E; [discriminate|].
    destruct Hx as [<-|Hx]; [now rewrite Z.eqb_refl in E|].
    apply Hkeys. now left.
  - now rewrite ids_get_set, Z.eqb_refl.
  - intros k dv. rewrite ids_get_set.
    destruct (Z.eqb_spec start k) as [<-|_].
    + intros [= <-]. exists 0. split; [reflexivity | constructor].
    + intros H. destruct (Hval k dv H) as [-> Hk]. exists 1.
      split; [reflexivity|].
      apply (hops_next db start 0 start k); [constructor|].
      now apply In_neighbor_ids.
  - intros x [].
  - intros _. right. now left.
  - intros _ a c [].
Qed.

(** ** walk without a predicate *)

Lemma pending_ends_bound (db : DataStore) (v : list Z) :
  pending_ends db v <= 2 * length (relationship db).
Proof.
  unfold pending_ends. pose proof (pending_rows_bound db v).
  pose proof (filter_length_le
                (fun row => negb (existsb (fun j => Z.eqb j (snd row)) v))
                (relationship db)).
  lia.
Qed.

Lemma walk_cell_of_radius (radius : option Z) :
  Person.bind_visitable None radius = cell_of_limit (limit_of radius) /\
  default 0%Z radius = default 0%Z (limit_of radius).
Proof.
  unfold Person.bind_visitable, limit_of, FamiLinx.truthy.
  destruct radius as [r|]; [|now split].
  destruct (Z.eqb_spec r 0) as [->|_]; now split.
Qed.

(** [walk] without a predicate, in a consistent world: it returns, and
    the loop invariant holds of the ids it yields. *)
Lemma walk_without_predicate (rt : Runtime) (db : DataStore) (w : World)
    (p : ref) (o : PersonObj) (fuel depth : nat) (radius : option Z) :
  consistent db w ->
  heap w !! p = Some o ->
  limit_of radius = None \/ 0 < depth ->
  S (length (neighbor_ids db (person_id o))) + 2 * length (relationship db)
  < fuel ->
  exists (out : list ref) (ids : list Z) (d : list (Z * Z)) (w' : World),
    Person.walk rt db fuel depth p None radius w = (Ok (Some out), w') /\
    has_ids w' out ids /\
    walk_inv db (person_id o) (limit_of radius) [] ids d.
Proof.
  intros Hcon Hp Hdepth Hfuel.
  assert (Hi : id_of w p = Some (person_id o)).
  { apply id_of_Some. now exists o. }
  destruct (neighbors_of_spec db w p (person_id o) Hcon Hi)
    as (ns & w1 & E & Hns & Hcon1 & Hk1).
  pose proof (cache_kept_extends _ _ Hk1 _ _ Hi) as Hi1.
  destruct (dists_init_ids rt w1 ns _ Hns [] []) as (d0 & Ed0 & Hd0);
    [constructor|].
  destruct (dict_setitem_ids rt w1 d0 _ p (person_id o) 0%Z Hi1 Hd0)
    as (d1 & Ed1 & Hd1).
  destruct (walk_ids_exact db (person_id o) (limit_of radius) fuel
              (person_id o :: neighbor_ids db (person_id o)) [] _
              (walk_inv_init db (person_id o) (limit_of radius)))
    as (ids & d & Hrun & Hinv).
  { pose proof (pending_ends_bound db []). simpl. lia. }
  destruct (walk_loop_sim rt db depth (limit_of radius) fuel Hdepth
              (p :: ns) [] d1 []
              (person_id o :: neighbor_ids db (person_id o)) []
              (ids_set (init_ids (neighbor_ids db (person_id o)) [])
                 (person_id o) 0%Z) [] w1 Hcon1)
    as (_ & _ & Hag); [now constructor | constructor | exact Hd1
                      | constructor |].
  rewrite Hrun in Hag. unfold agrees in Hag.
  destruct (walk_cell_of_radius radius) as [Ecell Erad].
  unfold Person.walk, bind. rewrite E, Ed0, Ed1, Ecell, Erad.
  destruct (Person.walk_loop rt db fuel depth
              (cell_of_limit (limit_of radius))
              (default 0%Z (limit_of radius)) (p :: ns) [] d1 [] w1)
    as [[[out|]|e] w']; simpl in Hag; try contradiction.
  now exists out, ids, d, w'.
Qed.

(** X10: in a consistent world, [walk] without a predicate and with the
    radius omitted (or zero) returns within
    [1 + neighbours of the start + 2 * rows + 1] iterations, and the ids
    of the instances it yields are without repetition and are exactly the
    ids joined to the id of the start by rows of the relationship table,
    in either direction, the start included. *)
Theorem walk_component (rt : Runtime) (db : DataStore) (w : World)
    (p : ref) (o : PersonObj) (fuel depth : nat) (radius : option Z) :
  consistent db w ->
  heap w !! p = Some o ->
  FamiLinx.truthy radius = false ->
  S (length (neighbor_ids db (person_id o))) + 2 * length (relationship db)
  < fuel ->
  exists (out : list ref) (ids : list Z) (w' : World),
    Person.walk rt db fuel depth p None radius w = (Ok (Some out), w') /\
    has_ids w' out ids /\
    NoDup ids /\
    (forall x : Z, In x ids <-> connected db (person_id o) x).
Proof.
  intros Hcon Hp Hr Hfuel.
  assert (Hl : limit_of radius = None) by (unfold limit_of; now rewrite Hr).
  destruct (walk_without_predicate rt db w p o fuel depth radius Hcon Hp
              (or_introl Hl) Hfuel)
    as (out & ids & d & w' & E & Hout & Hinv).
  rewrite Hl in Hinv.
  destruct Hinv as (Hnd & _ & _ & Hvis & Hstart & Hclosed).
  exists out, ids, w'. split; [exact E|]. split; [exact Hout|].
  split; [exact Hnd|]. intros x. split.
  - intros Hx. destruct (Hvis x Hx) as (n & Hn & _). now exists n.
  - intros (n & Hn).
    apply (hops_closed db (fun y => In y ids) (person_id o) x n); [| |exact Hn].
    + destruct Hstart as [H|[]]; [discriminate | exact H].
    + intros u v Hu Huv. destruct (Hclosed eq_refl u v Hu Huv) as [H|[]].
      exact H.
Qed.

Lemma walk_component_witness :
  exists (out : list ref) (ids : list Z) (w' : World),
    Person.walk example_runtime family_store 20 0 0 None None (world_with 1)
    = (Ok (Some out), w') /\
    has_ids w' out ids /\
    NoDup ids /\
    (forall x : Z, In x ids <-> connected family_store 1 x).
Proof.
  apply (walk_component example_runtime family_store (world_with 1) 0
           (FamiLinx.new_person 1) 20 0 None).
  - exact (proj1 (consistent_world_with family_store 1)).
  - reflexivity.
  - reflexivity.
  - vm_compute. lia.
Defined.

(** X11: in a consistent world, [walk] without a predicate and with a
    radius [r] other than zero returns within the same number of
    iterations; the ids of the instances it yields are without repetition,
    each is at most [r] rows of the relationship table away from the id of
    the start, and the start is yielded exactly when [r] is positive (with
    a negative radius nothing is yielded). *)
Theorem walk_within_radius (rt : Runtime) (db : DataStore) (w : World)
    (p : ref) (o : PersonObj) (fuel depth : nat) (r : Z) :
  consistent db w ->
  heap w !! p = Some o ->
  r <> 0%Z ->
  0 < depth ->
  S (length (neighbor_ids db (person_id o))) + 2 * length (relationship db)
  < fuel ->
  exists (out : list ref) (ids : list Z) (w' : World),
    Person.walk rt db fuel depth p None (Some r) w = (Ok (Some out), w') /\
    has_ids w' out ids /\
    NoDup ids /\
    (forall x : Z,
        In x ids ->
        exists n : nat, (Z.of_nat n <= r)%Z /\ hops db (person_id o) n x) /\
    (In (person_id o) ids <-> (0 < r)%Z) /\
    ((r < 0)%Z -> out = []).
Proof.
  intros Hcon Hp Hr Hdepth Hfuel.
  assert (Hl : limit_of (Some r) = Some r).
  { unfold limit_of, FamiLinx.truthy.
    destruct (Z.eqb_spec r 0) as [|_]; [contradiction | reflexivity]. }
  destruct (walk_without_predicate rt db w p o fuel depth (Some r) Hcon Hp
              (or_intror Hdepth) Hfuel)
    as (out & ids & d & w' & E & Hout & Hinv).
  rewrite Hl in Hinv.
  destruct Hinv as (Hnd & _ & _ & Hvis & Hstart & _).
  exists out, ids, w'. split; [exact E|]. split; [exact Hout|].
  split; [exact Hnd|].
  assert (Hball : forall x, In x ids ->
             exists n : nat,
               (Z.of_nat n <= r)%Z /\ hops db (person_id o) n x).
  { intros x Hx. destruct (Hvis x Hx) as (n & Hn & Hle).
    exists n. split; [now apply Hle | exact Hn]. }
  split; [exact Hball|]. split; [split|].
  - intros Hx. destruct (Hball _ Hx) as (n & Hle & _). lia.
  - intros Hpos. destruct Hstart as [H|[]]; [|exact H].
    intros r' [= <-]. lia.
  - intros Hneg. destruct Hout as [|x j out ids Hx Hout]; [reflexivity|].
    destruct (Hball j (or_introl eq_refl)) as (n & Hle & _). lia.
Qed.

Lemma walk_within_radius_witness :
  exists (out : list ref) (ids : list Z) (w' : World),
    Person.walk example_runtime family_store 20 1000 0 None (Some 1%Z)
      (world_with 1)
    = (Ok (Some out), w') /\
    has_ids w' out ids /\
    NoDup ids /\
    (forall x : Z,
        In x ids ->
        exists n : nat, (Z.of_nat n <= 1)%Z /\ hops family_store 1 n x) /\
    (In 1%Z ids <-> (0 < 1)%Z) /\
    ((1 < 0)%Z -> out = []).
Proof.
  apply (walk_within_radius example_runtime family_store (world_with 1) 0
           (FamiLinx.new_person 1) 20 1000 1).
  - exact (proj1 (consistent_world_with family_store 1)).
  - reflexivity.
  - lia.
  - lia.
  - vm_compute. lia.
Defined.

(** ** The worlds the API produces are consistent *)

Section Steady.

Context (rt : Runtime) (db : DataStore).

Lemma steady_ret {A : Type} (a : A) : steady db (ret a).
Proof. intros w H. exact H. Qed.

Lemma steady_raise {A : Type} (e : Exn) : steady db (@raise A e).
Proof. intros w H. exact H. Qed.

Lemma steady_bind {A B : Type} (m : M A) (k : A -> M B) :
  steady db m -> (forall a, steady db (k a)) -> steady db (bind m k).
Proof.
  intros Hm Hk w Hco. unfold bind. specialize (Hm w Hco).
  destruct (m w) as [[a|e] w1]; simpl in *; [now apply Hk | exact Hm].
Qed.

Lemma steady_deref (p : ref) : steady db (deref p).
Proof. intros w H. unfold deref. now destruct (heap w !! p). Qed.

Lemma steady_execute {A : Type} (rows : list A) : steady db (execute rows).
Proof. intros w H. exact H. Qed.

Lemma steady_get_person (id : Z) : steady db (FamiLinx.get_person id).
Proof.
  intros w (Hreg & Hch & Hpa).
  destruct (get_person_registry id w Hreg) as (r & w' & E & _ & Hreg' & _).
  destruct (get_person_effect id w) as (r' & w'' & ex & E' & Hh & _ & Hex).
  rewrite E in E'. injection E' as <- <-. rewrite E. simpl.
  split; [exact Hreg'|]. split.
  - exact (cached_from_store_heap_app _ _ w w' ex Hh Hex Hch).
  - exact (cached_from_store_heap_app _ _ w w' ex Hh Hex Hpa).
Qed.

Lemma steady_mapM {A B : Type} (f : A -> M B) (xs : list A) :
  (forall a, steady db (f a)) -> steady db (mapM f xs).
Proof.
  intros Hf. induction xs as [|a xs IH]; simpl.
  - apply steady_ret.
  - apply steady_bind; [apply Hf|]. intros b.
    apply steady_bind; [exact IH|]. intros bs. apply steady_ret.
Qed.

(** An update of a cache that puts nothing new under [children] or
    [parents]. *)
Lemma steady_cache_update (p : ref)
    (g : gmap string Value -> gmap string Value) :
  (forall c v, g c !! "children"%string = Some v ->
               c !! "children"%string = Some v) ->
  (forall c v, g c !! "parents"%string = Some v ->
               c !! "parents"%string = Some v) ->
  steady db (CachedProperty.cache_update p g).
Proof.
  intros Hgc Hgp w (Hreg & Hch & Hpa).
  split; [now apply registry_cache_update|]. split.
  - now apply cached_from_store_update.
  - now apply cached_from_store_update.
Qed.

Lemma steady_getter (key : string) (method : ref -> M Value) (p : ref) :
  key <> "children"%string ->
  key <> "parents"%string ->
  steady db (method p) ->
  steady db (CachedProperty.getter key method p).
Proof.
  intros Hc Hp Hm. unfold CachedProperty.getter, CachedProperty.cache_of.
  apply steady_bind.
  - apply steady_bind; [apply steady_deref|]. intros o. apply steady_ret.
  - intros cached. destruct (cached !! key); [apply steady_ret|].
    apply steady_bind; [exact Hm|]. intros result.
    apply steady_bind; [|intros ?; apply steady_ret].
    apply steady_cache_update; intros c v H;
      now rewrite lookup_insert_ne in H.
Qed.

Lemma getter_unallocated (key : string) (method : ref -> M Value) (p : ref)
    (w : World) :
  heap w !! p = None ->
  CachedProperty.getter key method p w = (Raise SystemError, w).
Proof.
  intros Hp. unfold CachedProperty.getter, CachedProperty.cache_of, bind,
    deref. now rewrite Hp.
Qed.

Lemma steady_children (p : ref) : steady db (Person.children db p).
Proof.
  intros w Hcon. destruct (id_of w p) as [i|] eqn:Hi.
  - destruct Hcon as (Hreg & Hch & Hpa).
    destruct (read_relatives "children" (select_child_ids db)
                (Person.children_method db) p i w
                (children_method_eq db p) Hreg Hch Hi)
      as (rs & w' & E & _ & Hreg' & Hch' & Hother & _).
    unfold Person.children. rewrite E. simpl.
    split; [exact Hreg'|]. split; [exact Hch'|]. now apply Hother.
  - unfold id_of in Hi. destruct (heap w !! p) as [o|] eqn:Hp;
      [discriminate|].
    unfold Person.children. now rewrite (getter_unallocated _ _ _ _ Hp).
Qed.

Lemma steady_parents (p : ref) : steady db (Person.parents db p).
Proof.
  intros w Hcon. destruct (id_of w p) as [i|] eqn:Hi.
  - destruct Hcon as (Hreg & Hch & Hpa).
    destruct (read_relatives "parents" (select_parent_ids db)
                (Person.parents_method db) p i w
                (parents_method_eq db p) Hreg Hpa Hi)
      as (rs & w' & E & _ & Hreg' & Hpa' & Hother & _).
    unfold Person.parents. rewrite E. simpl.
    split; [exact Hreg'|]. split; [now apply Hother | exact Hpa'].
  - unfold id_of in Hi. destruct (heap w !! p) as [o|] eqn:Hp;
      [discriminate|].
    unfold Person.parents. now rewrite (getter_unallocated _ _ _ _ Hp).
Qed.

End Steady.

Create HintDb steady.

#[local] Hint Resolve steady_ret steady_raise steady_deref steady_execute
  steady_get_person steady_children steady_parents : steady.

Ltac steady_step :=
  match goal with
  | |- steady _ (bind _ _) => apply steady_bind; [|intros ?]
  | |- steady _ (ret _) => apply steady_ret
  | |- steady _ (raise _) => apply steady_raise
  | |- steady _ (mapM _ _) => apply steady_mapM; intros ?
  | |- steady _ (match ?t with _ => _ end) => destruct t
  | |- steady _ _ => solve [eauto with steady]
  end.

Ltac steady_auto := repeat steady_step.

Section SteadyMethods.

Context (rt : Runtime) (db : DataStore).

Lemma steady_self_id (p : ref) : steady db (self_id p).
Proof. unfold self_id. steady_auto. Qed.

Lemma steady_field_get (f : Field) (p : ref) : steady db (field_get db f p).
Proof using Type.
  pose proof steady_self_id.
  destruct f; try apply steady_children; try apply steady_parents;
    (apply steady_getter; [discriminate | discriminate |]); simpl;
    [ unfold Person.age_method | unfold Person.years_method
    | unfold Person.gender_method | unfold Person.location_method
    | unfold Person.founder_stats_method ];
    unfold Person.to_int;
    steady_auto.
Qed.

Lemma steady_person_eq (a b : ref) : steady db (Person.person_eq a b).
Proof.
  pose proof steady_self_id.
  unfold Person.person_eq, Person.__eq__, Person.getattr_id, Person.int_eq.
  steady_auto.
Qed.

Lemma steady_set_contains (s : list ref) (p : ref) :
  steady db (set_contains (Person.__hash__ rt) Person.person_eq s p).
Proof.
  pose proof steady_person_eq.
  induction s as [|y s IH]; simpl; steady_auto.
Qed.

Lemma steady_set_add (s : list ref) (p : ref) :
  steady db (set_add (Person.__hash__ rt) Person.person_eq s p).
Proof.
  pose proof steady_set_contains. unfold set_add. steady_auto.
Qed.

Lemma steady_dict_get (d : list (ref * Z)) (p : ref) :
  steady db (dict_get (Person.__hash__ rt) Person.person_eq d p).
Proof.
  pose proof steady_person_eq.
  induction d as [|[y v] d IH]; simpl; steady_auto.
Qed.

Lemma steady_dict_getitem (d : list (ref * Z)) (p : ref) :
  steady db (dict_getitem (Person.__hash__ rt) Person.person_eq d p).
Proof.
  pose proof steady_dict_get. unfold dict_getitem. steady_auto.
Qed.

Lemma steady_dict_setitem (d : list (ref * Z)) (p : ref) (v : Z) :
  steady db (dict_setitem (Person.__hash__ rt) Person.person_eq d p v).
Proof.
  pose proof steady_person_eq.
  induction d as [|[y u] d IH]; simpl; steady_auto.
Qed.

Lemma steady_children_list (p : ref) :
  steady db (Person.children_list db p).
Proof.
  unfold Person.children_list, Person.as_persons.
  apply steady_bind; [apply steady_children|]. intros v. steady_auto.
Qed.

Lemma steady_parents_list (p : ref) :
  steady db (Person.parents_list db p).
Proof.
  unfold Person.parents_list, Person.as_persons.
  apply steady_bind; [apply steady_parents|]. intros v. steady_auto.
Qed.

Hint Resolve steady_self_id steady_person_eq steady_set_contains
  steady_set_add steady_dict_get steady_dict_getitem steady_dict_setitem
  steady_children_list steady_parents_list : steady.

Lemma steady_partners (p : ref) : steady db (Person.partners rt db p).
Proof.
  apply steady_getter; [discriminate | discriminate |].
  unfold Person.partners_method.
  assert (Hin : forall ps acc,
             steady db (Person.partners_inner rt p ps acc)).
  { induction ps as [|q ps IH]; intros acc; simpl; steady_auto. }
  assert (Hout : forall cs acc,
             steady db (Person.partners_outer rt db p cs acc)).
  { induction cs as [|c cs IH]; intros acc; simpl; steady_auto. }
  steady_auto.
Qed.

Lemma steady_descendants (fuel : nat) (p : ref) :
  steady db (Person.descendants rt db fuel p).
Proof.
  unfold Person.descendants.
  assert (Hloop : forall queue visited out,
             steady db (Person.descendants_loop rt db fuel queue visited
                          out)).
  { induction fuel as [|fuel IH]; intros queue visited out; simpl;
      steady_auto. }
  steady_auto.
Qed.

Lemma steady_within_radius (dists : list (ref * Z)) (radius : Z) (p : ref) :
  steady db (Person.within_radius rt dists radius p).
Proof. unfold Person.within_radius. steady_auto. Qed.

Lemma steady_call_visitable (depth : nat) (cell callee : Person.Visitable)
    (dists : list (ref * Z)) (radius : Z) (p : ref) :
  (forall f q, cell = Person.UserPredicate f -> steady db (f q)) ->
  (forall f q, callee = Person.UserPredicate f -> steady db (f q)) ->
  steady db (Person.call_visitable rt depth cell dists radius callee p).
Proof.
  pose proof steady_within_radius.
  intros Hcell. revert callee.
  induction depth as [|depth IH]; intros callee Hcallee; simpl.
  - apply steady_raise.
  - destruct callee as [f| |].
    + now apply (Hcallee f).
    + steady_auto.
    + steady_auto.
Qed.

Lemma steady_dists_init (ns : list ref) (dists : list (ref * Z)) :
  steady db (Person.dists_init rt ns dists).
Proof.
  revert dists. induction ns as [|n ns IH]; intros dists; simpl;
    steady_auto.
Qed.

Lemma steady_dists_relax (ns : list ref) (dist : Z)
    (dists : list (ref * Z)) :
  steady db (Person.dists_relax rt ns dist dists).
Proof.
  revert dists. induction ns as [|n ns IH]; intros dists; simpl;
    steady_auto.
Qed.

Lemma steady_neighbors_of (p : ref) : steady db (Person.neighbors_of db p).
Proof. unfold Person.neighbors_of. steady_auto. Qed.

Lemma steady_walk (fuel depth : nat) (p : ref)
    (visitable : option (ref -> bool)) (radius : option Z) :
  steady db (Person.walk rt db fuel depth p (lift_predicate visitable)
               radius).
Proof.
  pose proof steady_neighbors_of. pose proof steady_dists_init.
  pose proof steady_dists_relax.
  unfold Person.walk.
  set (cell := Person.bind_visitable (lift_predicate visitable) radius).
  assert (Hcell : forall c f q,
             cell = Some c -> c = Person.UserPredicate f ->
             steady db (f q)).
  { intros c f q Hc ->. subst cell. unfold Person.bind_visitable in Hc.
    destruct (FamiLinx.truthy radius), visitable as [g|]; simpl in Hc;
      try discriminate Hc.
    injection Hc as <-. apply steady_ret. }
  clearbody cell.
  assert (Hloop : forall queue visited dists out,
             steady db (Person.walk_loop rt db fuel depth cell
                          (default 0%Z radius) queue visited dists out)).
  { induction fuel as [|fuel IH]; intros queue visited dists out; simpl.
    - apply steady_ret.
    - destruct (list_pop queue) as [[queue' person]|]; [|apply steady_ret].
      apply steady_bind; [auto with steady|]. intros seen.
      apply steady_bind.
      + destruct seen; [apply steady_ret|].
        destruct cell as [c|]; [|apply steady_ret].
        apply steady_call_visitable; intros f q E; now apply (Hcell c f q).
      + intros go. destruct go; [|apply IH]. steady_auto. }
  steady_auto.
Qed.

Lemma steady_set_people (f : gmap Z ref -> gmap Z ref) :
  (forall ps id r, f ps !! id = Some r -> ps !! id = Some r) ->
  steady db (FamiLinx.set_people f).
Proof.
  intros Hf w (Hreg & Hch & Hpa). simpl. split; [|now split].
  intros id r H. simpl in H. apply Hf in H. now apply Hreg.
Qed.

Lemma steady_clear_cache (id : option Z) :
  steady db (FamiLinx.clear_cache id).
Proof.
  unfold FamiLinx.clear_cache.
  destruct (FamiLinx.truthy id); [destruct id as [i|]|].
  - apply steady_set_people. intros ps id r H.
    destruct (ps !! i); [|exact H].
    now apply lookup_delete_Some in H as [_ H].
  - apply steady_ret.
  - apply steady_set_people. intros ps id' r H.
    now rewrite lookup_empty in H.
Qed.

End SteadyMethods.

Lemma consistent_run_op (rt : Runtime) (db : DataStore) (op : Op)
    (w : World) :
  assigns_relatives op = false ->
  consistent db w ->
  consistent db (run_op rt db op w).
Proof.
  intros Hop Hco. destruct op; simpl.
  - now apply steady_get_person.
  - apply steady_mapM; [|exact Hco]. intros id. apply steady_get_person.
  - now apply steady_field_get.
  - apply steady_cache_update; [| |exact Hco]; intros c u H;
      (rewrite lookup_insert_ne in H; [exact H|]);
      destruct f; simpl; discriminate.
  - apply steady_cache_update; [| |exact Hco]; intros c u H;
      now apply lookup_delete_Some in H as [_ H].
  - apply steady_cache_update; [| |exact Hco]; intros c u H;
      now rewrite lookup_empty in H.
  - now apply steady_partners.
  - now apply steady_descendants.
  - now apply steady_walk.
  - now apply steady_clear_cache.
Qed.

(** Whatever calls were made on a fresh registry, short of assigning a
    list of the caller's to [children] or [parents], the world is
    consistent. *)
Lemma consistent_run_ops (rt : Runtime) (db : DataStore) (ops : list Op) :
  Forall (fun op => assigns_relatives op = false) ops ->
  consistent db (run_ops rt db ops empty_world).
Proof.
  intros Hops. unfold run_ops.
  assert (H : forall w, consistent db w ->
                        consistent db (fold_left
                                         (fun w' op => run_op rt db op w')
                                         ops w)).
  { induction Hops as [|op ops Hop _ IH]; intros w Hco; simpl; [exact Hco|].
    apply IH. now apply consistent_run_op. }
  apply H, consistent_empty.
Qed.

(** ** A value that was read stays the value that is read *)

(** X12: once a cached property (a lazy field or [partners]) was read on
    an instance, every later read on that instance returns the same value
    and changes nothing, whatever lookups, reads of other fields or other
    instances and traversals were made in between. *)
Theorem read_is_stable (rt : Runtime) (db : DataStore) (key : string)
    (method : ref -> M Value) (p : ref) (w w1 : World) (v : Value)
    (ops : list Op) :
  CachedProperty.getter key method p w = (Ok v, w1) ->
  Forall (fun op => reads_only op = true) ops ->
  CachedProperty.getter key method p (run_ops rt db ops w1)
  = (Ok v, run_ops rt db ops w1).
Proof.
  intros Hget Hops.
  apply (getter_replay key method p w w1 _ v Hget).
  now apply run_ops_cache_kept.
Qed.

Lemma read_is_stable_witness :
  let w1 := snd (Person.partners example_runtime family_store 0
                   (world_with 1)) in
  let w2 := run_ops example_runtime family_store
              [ODescendants 20 0; ORead FGender 3; OGetPerson 9] w1 in
  Person.partners example_runtime family_store 0 w2
  = (Ok (VList [VPerson 3]), w2).
Proof.
  intros w1 w2.
  apply (read_is_stable example_runtime family_store "partners"
           (Person.partners_method example_runtime family_store) 0
           (world_with 1) w1 (VList [VPerson 3])
           [ODescendants 20 0; ORead FGender 3; OGetPerson 9]).
  - reflexivity.
  - repeat constructor.
Defined.

(** ** get_graphviz draws the rows between the people it is given *)

Lemma mapM_self_id (w : World) (rs : list ref) (ids : list Z) :
  has_ids w rs ids -> mapM self_id rs w = (Ok ids, w).
Proof.
  unfold has_ids. induction 1 as [|r i rs ids Hr _ IH]; [reflexivity|].
  simpl. unfold bind. rewrite (self_id_of _ _ _ Hr), IH. reflexivity.
Qed.

Lemma graphviz_styles_spec (w : World)
    (node_style : list (ref * list (string * string))) (sids : list Z) :
  has_ids w (map fst node_style) sids ->
  graphviz_styles node_style w =
    (Ok (map (fun s => format_node (fst s) (style_text (snd s)))
           (combine sids (map snd node_style))), w).
Proof.
  revert sids. induction node_style as [|[person param] rest IH];
    intros sids H.
  - destruct sids; reflexivity.
  - simpl in H. apply Forall2_cons_inv_l in H as (i & sids' & Hi & H & ->).
    simpl. unfold bind. rewrite (self_id_of _ _ _ Hi), (IH _ H).
    reflexivity.
Qed.

Lemma graphviz_children_spec (w : World) (ids : list Z) (person : ref)
    (a : Z) (cs : list ref) (cids : list Z) :
  id_of w person = Some a ->
  has_ids w cs cids ->
  graphviz_children ids person cs w =
    (Ok (map (format_edge a)
           (List.filter (fun b => existsb (Z.eqb b) ids) cids)), w).
Proof.
  intros Ha. unfold has_ids.
  induction 1 as [|c i cs cids Hc _ IH]; [reflexivity|].
  simpl. unfold bind. rewrite (self_id_of _ _ _ Hc).
  destruct (existsb (Z.eqb i) ids).
  - rewrite (self_id_of _ _ _ Ha), IH. reflexivity.
  - exact IH.
Qed.

Lemma graphviz_edges_spec (db : DataStore) (ids : list Z)
    (people : list ref) (pids : list Z) (w : World) :
  coherent db w ->
  has_ids w people pids ->
  exists w' : World,
    graphviz_edges db ids people w =
      (Ok (map (fun e => format_edge (fst e) (snd e))
             (flat_map
                (fun a =>
                   map (pair a)
                     (List.filter (fun b => existsb (Z.eqb b) ids)
                        (select_child_ids db a)))
                pids)), w') /\
    extends w w' /\
    coherent db w'.
Proof.
  intros Hco H. revert pids w Hco H.
  induction people as [|p people IH]; intros pids w Hco H.
  - apply Forall2_nil_inv_l in H as ->. exists w.
    split; [reflexivity|]. split; [apply extends_refl | exact Hco].
  - apply Forall2_cons_inv_l in H as (a & pids' & Ha & H & ->).
    destruct (children_list_spec db w p a Hco Ha)
      as (cs & w1 & E1 & Hcs & He1 & Hco1).
    destruct (IH pids' w1 Hco1 (has_ids_extends _ _ _ _ He1 H))
      as (w2 & E2 & He2 & Hco2).
    exists w2. simpl. unfold bind. rewrite E1.
    rewrite (graphviz_children_spec w1 ids p a cs _ (He1 _ _ Ha) Hcs).
    rewrite E2. rewrite map_app, map_map. simpl.
    split; [reflexivity|].
    split; [exact (extends_trans _ _ _ He1 He2) | exact Hco2].
Qed.

Lemma In_drawn_rows (db : DataStore) (ids : list Z) (a b : Z) :
  In (a, b) (drawn_rows db ids) <->
  In a ids /\ In b ids /\ In (a, b) (relationship db).
Proof.
  unfold drawn_rows. rewrite in_flat_map. split.
  - intros (x & Hx & Hin). apply in_map_iff in Hin as (y & [= <- <-] & Hy).
    apply filter_In in Hy as (Hy & Hm).
    apply existsb_exists in Hm as (z & Hz & Ez). apply Z.eqb_eq in Ez.
    subst z. split; [exact Hx|]. split; [exact Hz|].
    unfold select_child_ids in Hy.
    apply in_map_iff in Hy as ([x' y'] & Ey & Hrow). simpl in Ey. subst y'.
    apply filter_In in Hrow as (Hrow & Ex). simpl in Ex.
    apply Z.eqb_eq in Ex. now subst x'.
  - intros (Ha & Hb & Hrow). exists a. split; [exact Ha|].
    apply in_map. apply filter_In. split.
    + unfold select_child_ids. apply in_map_iff. exists (a, b).
      split; [reflexivity|]. apply filter_In. split; [exact Hrow|].
      simpl. apply Z.eqb_refl.
    + apply existsb_exists. exists b. split; [exact Hb | apply Z.eqb_refl].
Qed.

(** X14.  On instances of a registry whose caches of children come from
    the reads, [get_graphviz(people, node_style)] yields the opening line,
    one line per item of [node_style] carrying the id and the attributes
    of the item, one line [a -> b] per drawn row, and the closing line,
    where the drawn rows are exactly the rows of [relationship] that have
    both their parent and their child among the ids of [people]: a child
    outside [people] is never drawn, and a person that is only styled adds
    no edge. *)
Theorem get_graphviz_spec (db : DataStore) (w : World) (people : list ref)
    (pids : list Z) (node_style : list (ref * list (string * string)))
    (sids : list Z) :
  coherent db w ->
  has_ids w people pids ->
  has_ids w (map fst node_style) sids ->
  (exists w' : World,
     get_graphviz db people node_style w =
       (Ok (("digraph graphname {" +:+ newline)
            :: map (fun s => format_node (fst s) (style_text (snd s)))
                 (combine sids (map snd node_style))
            ++ map (fun e => format_edge (fst e) (snd e))
                 (drawn_rows db pids)
            ++ ["}" +:+ newline]), w') /\
     extends w w') /\
  forall a b : Z,
    In (a, b) (drawn_rows db pids) <->
    In a pids /\ In b pids /\ In (a, b) (relationship db).
Proof.
  intros Hco Hp Hs. split; [|apply In_drawn_rows].
  destruct (graphviz_edges_spec db pids people pids w Hco Hp)
    as (w' & E & He & _).
  exists w'. split; [|exact He].
  unfold get_graphviz, bind.
  rewrite (mapM_self_id _ _ _ Hp), (graphviz_styles_spec _ _ _ Hs), E.
  reflexivity.
Qed.

(** Persons 1, 2 and 3 of the family example, person 3 styled: of the six
    rows only 1 -> 3 and 2 -> 3 are drawn. *)
Lemma get_graphviz_spec_witness :
  exists w' : World,
    get_graphviz family_store [0; 1; 2]
      [(2, [("color", "red"); ("shape", "box")])]
      (run_ops example_runtime family_store [OIterPeople 1 5] empty_world) =
      (Ok ["digraph graphname {" +:+ newline;
           "3 [color=red,shape=box];" +:+ newline;
           "1 -> 3;" +:+ newline;
           "2 -> 3;" +:+ newline;
           "}" +:+ newline], w').
Proof.
  destruct (get_graphviz_spec family_store
              (run_ops example_runtime family_store [OIterPeople 1 5]
                 empty_world)
              [0; 1; 2] [1; 2; 3]%Z
              [(2, [("color", "red"); ("shape", "box")])] [3%Z])
    as [(w' & E & _) _].
  - apply coherent_run_ops. repeat constructor.
  - repeat constructor.
  - repeat constructor.
  - exists w'. exact E.
Defined.

(** ** The relatives of an instance follow the store *)

(** X15.  Whatever calls were made on a fresh registry (lookups, reads,
    invalidations, evictions, traversals, assignments to the other fields),
    short of assigning a list of the caller's to [children] or [parents]:
    on every instance there is, [children] returns instances whose ids are
    the rows of the children query for the id of the instance, in order,
    and [parents] the rows of the parents query. *)
Theorem relatives_follow_store (rt : Runtime) (db : DataStore)
    (ops : list Op) (p : ref) (i : Z) :
  Forall (fun op => assigns_relatives op = false) ops ->
  id_of (run_ops rt db ops empty_world) p = Some i ->
  (exists (cs : list ref) (w' : World),
     Person.children_list db p (run_ops rt db ops empty_world)
     = (Ok cs, w') /\
     has_ids w' cs (select_child_ids db i)) /\
  (exists (ps : list ref) (w' : World),
     Person.parents_list db p (run_ops rt db ops empty_world)
     = (Ok ps, w') /\
     has_ids w' ps (select_parent_ids db i)).
Proof.
  intros Hops Hi.
  pose proof (consistent_run_ops rt db ops Hops) as Hco. split.
  - destruct (children_list_spec2 db _ p i Hco Hi) as (cs & w' & E & H & _).
    now exists cs, w'.
  - destruct (parents_list_spec db _ p i Hco Hi) as (ps & w' & E & H & _).
    now exists ps, w'.
Qed.

(** Person 3 of the family example after a read, an eviction of the whole
    registry, a second lookup of its id and an assignment to another
    field: the first instance still has the children [5] and the parents
    [1; 2]. *)
Lemma relatives_follow_store_witness :
  let w := run_ops example_runtime family_store
             [OGetPerson 3; ORead FParents 0; OClearCache None;
              OGetPerson 3; OAssign FAge 0 (VInt 40); OPartners 0]
             empty_world in
  (exists (cs : list ref) (w' : World),
     Person.children_list family_store 0 w = (Ok cs, w') /\
     has_ids w' cs [5%Z]) /\
  (exists (ps : list ref) (w' : World),
     Person.parents_list family_store 0 w = (Ok ps, w') /\
     has_ids w' ps [1%Z; 2%Z]).
Proof.
  intros w.
  apply (relatives_follow_store example_runtime family_store
           [OGetPerson 3; ORead FParents 0; OClearCache None;
            OGetPerson 3; OAssign FAge 0 (VInt 40); OPartners 0] 0 3%Z).
  - repeat constructor.
  - reflexivity.
Defined.

(** ** The lazy fields do not disturb one another *)

Lemma field_key_inj (f g : Field) : field_key f = field_key g -> f = g.
Proof. destruct f, g; simpl; intros H; try reflexivity; discriminate H. Qed.

(** The cache of [q] at [key] after the cache of [p] was changed by a
    function that leaves [key] alone. *)
Lemma cache_update_other (w : World) (p q : ref) (o oq : PersonObj)
    (key : string) (g : gmap string Value -> gmap string Value) :
  heap w !! p = Some o ->
  heap w !! q = Some oq ->
  (p = q -> g (cached_properties o) !! key = cached_properties o !! key) ->
  exists (w' : World) (oq' : PersonObj),
    CachedProperty.cache_update p g w = (Ok tt, w') /\
    heap w' !! q = Some oq' /\
    person_id oq' = person_id oq /\
    cached_properties oq' !! key = cached_properties oq !! key /\
    people w' = people w /\
    nqueries w' = nqueries w.
Proof.
  intros Hp Hq Hsame. rewrite (cache_update_ok _ _ _ _ Hp).
  assert (Hlt : p < length (heap w)) by now apply lookup_lt_Some in Hp.
  destruct (decide (p = q)) as [<-|Hne].
  - eexists _, _. split; [reflexivity|]. simpl.
    split; [now apply list_lookup_insert_eq|]. simpl.
    assert (oq = o) by congruence. subst oq.
    split; [reflexivity|]. split; [now apply Hsame|]. now split.
  - eexists _, oq. split; [reflexivity|]. simpl.
    split; [now rewrite list_lookup_insert_ne|]. now repeat split.
Qed.

(** X16.  Assigning or deleting one lazy field of an instance never
    touches what is cached for another field of that instance or for any
    field of another instance: a value cached for [g] on [q] is still what
    a read of [q.g] returns after [p.f = u] and after [del p.f], with no
    statement sent, unless [p.f] and [q.g] are the same field of the same
    instance. *)
Theorem fields_independent (db : DataStore) (f g : Field) (p q : ref)
    (w : World) (o oq : PersonObj) (v : Value) :
  p <> q \/ f <> g ->
  heap w !! p = Some o ->
  heap w !! q = Some oq ->
  cached_properties oq !! field_key g = Some v ->
  (forall u : Value,
     exists w' : World,
       field_set f p u w = (Ok tt, w') /\
       field_get db g q w' = (Ok v, w') /\
       nqueries w' = nqueries w) /\
  (exists w' : World,
     field_del f p w = (Ok tt, w') /\
     field_get db g q w' = (Ok v, w') /\
     nqueries w' = nqueries w).
Proof.
  intros Hne Hp Hq Hv.
  assert (Hkey : p = q -> field_key f <> field_key g).
  { intros Epq Ek. apply field_key_inj in Ek.
    destruct Hne as [Hne|Hne]; now apply Hne. }
  split; [intros u|].
  - destruct (cache_update_other w p q o oq (field_key g)
                (insert (field_key f) u) Hp Hq)
      as (w' & oq' & E & Hq' & _ & Hc & _ & Hn).
    { intros Epq. apply lookup_insert_ne. now apply Hkey. }
    exists w'. split; [exact E|]. split; [|exact Hn].
    apply (getter_hit _ _ _ _ oq'); [exact Hq'|]. now rewrite Hc.
  - destruct (cache_update_other w p q o oq (field_key g)
                (delete (field_key f)) Hp Hq)
      as (w' & oq' & E & Hq' & _ & Hc & _ & Hn).
    { intros Epq. apply lookup_delete_ne. now apply Hkey. }
    exists w'. split; [exact E|]. split; [|exact Hn].
    apply (getter_hit _ _ _ _ oq'); [exact Hq'|]. now rewrite Hc.
Qed.

(** Person 1 of the family example with its gender read: assigning or
    deleting its age leaves the gender that is read. *)
Lemma fields_independent_witness :
  let w := run_ops example_runtime family_store
             [OGetPerson 1; ORead FGender 0] empty_world in
  (forall u : Value,
     exists w' : World,
       field_set FAge 0 u w = (Ok tt, w') /\
       field_get family_store FGender 0 w' = (Ok (VStr "male"), w') /\
       nqueries w' = nqueries w) /\
  (exists w' : World,
     field_del FAge 0 w = (Ok tt, w') /\
     field_get family_store FGender 0 w' = (Ok (VStr "male"), w') /\
     nqueries w' = nqueries w).
Proof.
  intros w.
  apply (fields_independent family_store FAge FGender 0 0 w
           {| person_id := 1;
              cached_properties := {[ "gender" := VStr "male" ]} |}
           {| person_id := 1;
              cached_properties := {[ "gender" := VStr "male" ]} |}).
  - right. discriminate.
  - reflexivity.
  - reflexivity.
  - reflexivity.
Defined.

(** ** The printed form identifies an instance up to [==] *)

Lemma string_length_app (s t : string) :
  String.length (s +:+ t) = String.length s + String.length t.
Proof. induction s as [|a s IH]; simpl; [reflexivity | now rewrite IH]. Qed.

Lemma string_app_inv_tail (s1 s2 t : string) :
  s1 +:+ t = s2 +:+ t -> s1 = s2.
Proof.
  revert s2. induction s1 as [|a s1 IH]; intros [|b s2] H.
  - reflexivity.
  - apply (f_equal String.length) in H.
    rewrite !string_length_app in H. simpl in H. lia.
  - apply (f_equal String.length) in H.
    rewrite !string_length_app in H. simpl in H. lia.
  - change (String a (s1 +:+ t) = String b (s2 +:+ t)) in H.
    injection H as -> H. f_equal. now apply IH.
Qed.

(** X17.  [repr] of an instance of the registry never raises and changes
    nothing, and two instances are printed alike exactly when [==] holds
    between them, that is when they carry the same id, be they one object
    or two. *)
Theorem repr_identifies (w : World) (a b : ref) (i j : Z) :
  id_of w a = Some i ->
  id_of w b = Some j ->
  exists sa sb : string,
    __repr__ a w = (Ok sa, w) /\
    __repr__ b w = (Ok sb, w) /\
    (sa = sb <-> Person.person_eq a b w = (Ok true, w)) /\
    (sa = sb <-> i = j).
Proof.
  intros Ha Hb. unfold __repr__, bind.
  rewrite (self_id_of _ _ _ Ha), (self_id_of _ _ _ Hb).
  eexists _, _. split; [reflexivity|]. split; [reflexivity|].
  assert (Hs : "Person(id=" +:+ pretty i +:+ ")"
               = "Person(id=" +:+ pretty j +:+ ")" <-> i = j).
  { split; [|now intros ->].
    intros H. apply (inj (String.app "Person(id=")) in H.
    apply string_app_inv_tail in H. now apply (inj pretty) in H. }
  split; [|exact Hs].
  rewrite (person_eq_ids w a b i j Ha Hb), Hs. split.
  - intros ->. now rewrite Z.eqb_refl.
  - intros [= H]. now apply Z.eqb_eq.
Qed.

(** The instance of id 7 and the one made for the same id after an
    eviction are two objects that are printed alike. *)
Lemma repr_identifies_witness :
  let w := run_ops example_runtime family_store
             [OGetPerson 7; OClearCache None; OGetPerson 7] empty_world in
  exists sa sb : string,
    __repr__ 0 w = (Ok sa, w) /\
    __repr__ 1 w = (Ok sb, w) /\
    (sa = sb <-> Person.person_eq 0 1 w = (Ok true, w)) /\
    (sa = sb <-> 7%Z = 7%Z).
Proof.
  intros w. apply (repr_identifies w 0 1 7 7); reflexivity.
Defined.

(** ** What every call maintains *)

Section Maintains.

Context (I : World -> Prop).

Lemma maintains_ret {A : Type} (a : A) : maintains I (ret a).
Proof. intros w H. exact H. Qed.

Lemma maintains_raise {A : Type} (e : Exn) : maintains I (@raise A e).
Proof. intros w H. exact H. Qed.

Lemma maintains_bind {A B : Type} (m : M A) (k : A -> M B) :
  maintains I m -> (forall a, maintains I (k a)) -> maintains I (bind m k).
Proof.
  intros Hm Hk w H. unfold bind. specialize (Hm w H).
  destruct (m w) as [[a|e] w1]; simpl in *.
  - now apply Hk.
  - exact Hm.
Qed.

Lemma maintains_deref (p : ref) : maintains I (deref p).
Proof. intros w H. unfold deref. now destruct (heap w !! p). Qed.

Lemma maintains_mapM {A B : Type} (f : A -> M B) (xs : list A) :
  (forall a, maintains I (f a)) -> maintains I (mapM f xs).
Proof.
  intros Hf. induction xs as [|a xs IH]; simpl.
  - apply maintains_ret.
  - apply maintains_bind; [apply Hf|]. intros b.
    apply maintains_bind; [exact IH|]. intros bs. apply maintains_ret.
Qed.

End Maintains.

Create HintDb maintains.

#[local] Hint Resolve maintains_ret maintains_raise maintains_deref
  : maintains.

Ltac maintains_step :=
  match goal with
  | |- maintains _ (bind _ _) => apply maintains_bind; [|intros ?]
  | |- maintains _ (ret _) => apply maintains_ret
  | |- maintains _ (raise _) => apply maintains_raise
  | |- maintains _ (mapM _ _) => apply maintains_mapM; intros ?
  | |- maintains _ (match ?t with _ => _ end) => destruct t
  | |- maintains _ _ => solve [eauto with maintains]
  end.

Ltac maintains_auto := repeat maintains_step.

(** An invariant that the three primitives maintain (a statement sent to
    the cursor, an update of the cache of an instance, a lookup in the
    registry) is maintained by every method. *)
Section MaintainsMethods.

Context (rt : Runtime) (db : DataStore) (I : World -> Prop).

Hypothesis I_execute :
  forall (A : Type) (rows : list A), maintains I (execute rows).
Hypothesis I_cache_update :
  forall (p : ref) (g : gmap string Value -> gmap string Value),
    maintains I (CachedProperty.cache_update p g).
Hypothesis I_get_person :
  forall id : Z, maintains I (FamiLinx.get_person id).

Lemma maintains_self_id (p : ref) : maintains I (self_id p).
Proof. unfold self_id. maintains_auto. Qed.

Lemma maintains_getter (key : string) (method : ref -> M Value) (p : ref) :
  maintains I (method p) ->
  maintains I (CachedProperty.getter key method p).
Proof using I_cache_update.
  intros Hm. unfold CachedProperty.getter, CachedProperty.cache_of.
  maintains_auto.
Qed.

Lemma maintains_field_method (f : Field) (p : ref) :
  maintains I (field_method db f p).
Proof using I_execute I_get_person.
  pose proof maintains_self_id.
  destruct f; simpl;
    [ unfold Person.age_method | unfold Person.years_method
    | unfold Person.gender_method | unfold Person.location_method
    | unfold Person.parents_method | unfold Person.children_method
    | unfold Person.founder_stats_method ];
    unfold Person.to_int;
    maintains_auto.
Qed.

Lemma maintains_field_get (f : Field) (p : ref) :
  maintains I (field_get db f p).
Proof using I_execute I_cache_update I_get_person.
  apply maintains_getter, maintains_field_method.
Qed.

Lemma maintains_person_eq (a b : ref) :
  maintains I (Person.person_eq a b).
Proof.
  pose proof maintains_self_id.
  unfold Person.person_eq, Person.__eq__, Person.getattr_id, Person.int_eq.
  maintains_auto.
Qed.

Lemma maintains_set_contains (s : list ref) (p : ref) :
  maintains I (set_contains (Person.__hash__ rt) Person.person_eq s p).
Proof.
  pose proof maintains_person_eq.
  induction s as [|y s IH]; simpl; maintains_auto.
Qed.

Lemma maintains_set_add (s : list ref) (p : ref) :
  maintains I (set_add (Person.__hash__ rt) Person.person_eq s p).
Proof.
  pose proof maintains_set_contains. unfold set_add. maintains_auto.
Qed.

Lemma maintains_dict_get (d : list (ref * Z)) (p : ref) :
  maintains I (dict_get (Person.__hash__ rt) Person.person_eq d p).
Proof.
  pose proof maintains_person_eq.
  induction d as [|[y v] d IH]; simpl; maintains_auto.
Qed.

Lemma maintains_dict_getitem (d : list (ref * Z)) (p : ref) :
  maintains I (dict_getitem (Person.__hash__ rt) Person.person_eq d p).
Proof.
  pose proof maintains_dict_get. unfold dict_getitem. maintains_auto.
Qed.

Lemma maintains_dict_setitem (d : list (ref * Z)) (p : ref) (v : Z) :
  maintains I (dict_setitem (Person.__hash__ rt) Person.person_eq d p v).
Proof.
  pose proof maintains_person_eq.
  induction d as [|[y u] d IH]; simpl; maintains_auto.
Qed.

Lemma maintains_children_list (p : ref) :
  maintains I (Person.children_list db p).
Proof using I_execute I_cache_update I_get_person.
  unfold Person.children_list, Person.as_persons.
  apply maintains_bind; [apply (maintains_field_get FChildren)|]. intros v.
  maintains_auto.
Qed.

Lemma maintains_parents_list (p : ref) :
  maintains I (Person.parents_list db p).
Proof using I_execute I_cache_update I_get_person.
  unfold Person.parents_list, Person.as_persons.
  apply maintains_bind; [apply (maintains_field_get FParents)|]. intros v.
  maintains_auto.
Qed.

Hint Resolve maintains_self_id maintains_person_eq maintains_set_contains
  maintains_set_add maintains_dict_get maintains_dict_getitem
  maintains_dict_setitem maintains_children_list maintains_parents_list
  : maintains.

Lemma maintains_partners (p : ref) : maintains I (Person.partners rt db p).
Proof using I_execute I_cache_update I_get_person.
  apply maintains_getter. unfold Person.partners_method.
  assert (Hin : forall ps acc,
             maintains I (Person.partners_inner rt p ps acc)).
  { induction ps as [|q ps IH]; intros acc; simpl; maintains_auto. }
  assert (Hout : forall cs acc,
             maintains I (Person.partners_outer rt db p cs acc)).
  { induction cs as [|c cs IH]; intros acc; simpl; maintains_auto. }
  maintains_auto.
Qed.

Lemma maintains_descendants (fuel : nat) (p : ref) :
  maintains I (Person.descendants rt db fuel p).
Proof using I_execute I_cache_update I_get_person.
  unfold Person.descendants.
  assert (Hloop : forall queue visited out,
             maintains I
               (Person.descendants_loop rt db fuel queue visited out)).
  { induction fuel as [|fuel IH]; intros queue visited out; simpl;
      maintains_auto. }
  maintains_auto.
Qed.

Lemma maintains_within_radius (dists : list (ref * Z)) (radius : Z)
    (p : ref) :
  maintains I (Person.within_radius rt dists radius p).
Proof. unfold Person.within_radius. maintains_auto. Qed.

Lemma maintains_call_visitable (depth : nat)
    (cell callee : Person.Visitable) (dists : list (ref * Z)) (radius : Z)
    (p : ref) :
  (forall f q, cell = Person.UserPredicate f -> maintains I (f q)) ->
  (forall f q, callee = Person.UserPredicate f -> maintains I (f q)) ->
  maintains I (Person.call_visitable rt depth cell dists radius callee p).
Proof.
  pose proof maintains_within_radius.
  intros Hcell. revert callee.
  induction depth as [|depth IH]; intros callee Hcallee; simpl.
  - apply maintains_raise.
  - destruct callee as [f| |].
    + now apply (Hcallee f).
    + maintains_auto.
    + maintains_auto.
Qed.

Lemma maintains_dists_init (ns : list ref) (dists : list (ref * Z)) :
  maintains I (Person.dists_init rt ns dists).
Proof.
  revert dists. induction ns as [|n ns IH]; intros dists; simpl;
    maintains_auto.
Qed.

Lemma maintains_dists_relax (ns : list ref) (dist : Z)
    (dists : list (ref * Z)) :
  maintains I (Person.dists_relax rt ns dist dists).
Proof.
  revert dists. induction ns as [|n ns IH]; intros dists; simpl;
    maintains_auto.
Qed.

Lemma maintains_neighbors_of (p : ref) :
  maintains I (Person.neighbors_of db p).
Proof using I_execute I_cache_update I_get_person.
  unfold Person.neighbors_of. maintains_auto.
Qed.

Lemma maintains_walk (fuel depth : nat) (p : ref)
    (visitable : option (ref -> bool)) (radius : option Z) :
  maintains I (Person.walk rt db fuel depth p (lift_predicate visitable)
                 radius).
Proof using I_execute I_cache_update I_get_person.
  pose proof maintains_neighbors_of. pose proof maintains_dists_init.
  pose proof maintains_dists_relax.
  unfold Person.walk.
  set (cell := Person.bind_visitable (lift_predicate visitable) radius).
  assert (Hcell : forall c f q,
             cell = Some c -> c = Person.UserPredicate f ->
             maintains I (f q)).
  { intros c f q Hc ->. subst cell. unfold Person.bind_visitable in Hc.
    destruct (FamiLinx.truthy radius), visitable as [g|]; simpl in Hc;
      try discriminate Hc.
    injection Hc as <-. apply maintains_ret. }
  clearbody cell.
  assert (Hloop : forall queue visited dists out,
             maintains I (Person.walk_loop rt db fuel depth cell
                            (default 0%Z radius) queue visited dists out)).
  { induction fuel as [|fuel IH]; intros queue visited dists out; simpl.
    - apply maintains_ret.
    - destruct (list_pop queue) as [[queue' person]|];
        [|apply maintains_ret].
      apply maintains_bind; [auto with maintains|]. intros seen.
      apply maintains_bind.
      + destruct seen; [apply maintains_ret|].
        destruct cell as [c|]; [|apply maintains_ret].
        apply maintains_call_visitable; intros f q E;
          now apply (Hcell c f q).
      + intros go. destruct go; [|apply IH]. maintains_auto. }
  maintains_auto.
Qed.

(** Every call but [clear_cache], for which it depends on the id. *)
Lemma maintains_run_op (op : Op) (w : World) :
  (forall id, op = OClearCache id -> maintains I (FamiLinx.clear_cache id)) ->
  I w -> I (run_op rt db op w).
Proof using I_execute I_cache_update I_get_person.
  intros Hclear H. destruct op; simpl.
  - now apply I_get_person.
  - unfold FamiLinx.iter_people.
    apply (maintains_mapM I); [|exact H]. intros id. apply I_get_person.
  - now apply maintains_field_get.
  - now apply I_cache_update.
  - now apply I_cache_update.
  - now apply I_cache_update.
  - now apply maintains_partners.
  - now apply maintains_descendants.
  - now apply maintains_walk.
  - now apply (Hclear id).
Qed.

End MaintainsMethods.

(** ** One instance per id between two evictions *)

Lemma single_refl (x : Z) (w : World) : single x w w.
Proof.
  split; [apply extends_refl|].
  intros r Hr Hid. unfold id_of in Hid.
  rewrite (lookup_ge_None_2 _ _ Hr) in Hid. discriminate Hid.
Qed.

Lemma single_execute (x : Z) (w0 : World) (A : Type) (rows : list A) :
  maintains (single x w0) (execute rows).
Proof. intros w H. exact H. Qed.

Lemma people_cache_update (p : ref)
    (g : gmap string Value -> gmap string Value) (w : World) :
  people (snd (CachedProperty.cache_update p g w)) = people w.
Proof.
  unfold CachedProperty.cache_update. now destruct (heap w !! p).
Qed.

Lemma single_cache_update (x : Z) (w0 : World) (p : ref)
    (g : gmap string Value -> gmap string Value) :
  maintains (single x w0) (CachedProperty.cache_update p g).
Proof.
  intros w (Hext & Hnew). split.
  - intros r i Hr. rewrite id_of_cache_update. now apply Hext.
  - intros r Hr. rewrite people_cache_update, id_of_cache_update.
    now apply Hnew.
Qed.

Lemma single_get_person (x : Z) (w0 : World) (id : Z) :
  maintains (single x w0) (FamiLinx.get_person id).
Proof.
  intros w (Hext & Hnew). unfold FamiLinx.get_person.
  destruct (people w !! id) as [q|] eqn:E; [now split|].
  simpl.
  set (w' := {| heap := heap w ++ [FamiLinx.new_person id];
                people := <[id := length (heap w)]> (people w);
                nqueries := nqueries w |}).
  assert (He : extends w w').
  { now apply (extends_heap_app w w' [FamiLinx.new_person id]). }
  assert (Hend : id_of w' (length (heap w)) = Some id).
  { unfold id_of, w'. simpl. now rewrite list_lookup_middle. }
  split.
  - now apply (extends_trans w0 w w').
  - intros r Hr Hid. unfold w' at 1. simpl.
    destruct (lt_eq_lt_dec r (length (heap w))) as [[Hlt| ->]|Hgt].
    + assert (Hold : id_of w r = Some x).
      { destruct (lookup_lt_is_Some_2 (heap w) r Hlt) as [o Ho].
        assert (Hi : id_of w r = Some (person_id o))
          by (unfold id_of; now rewrite Ho).
        rewrite (He _ _ Hi) in Hid. now rewrite <- Hid. }
      pose proof (Hnew r Hr Hold) as Hp.
      rewrite lookup_insert_ne; [exact Hp|]. congruence.
    + rewrite Hend in Hid. injection Hid as ->. apply lookup_insert_eq.
    + unfold id_of, w' in Hid. simpl in Hid.
      rewrite lookup_ge_None_2 in Hid; [discriminate Hid|].
      rewrite length_app. simpl. lia.
Qed.

Lemma single_clear_cache (x : Z) (w0 : World) (id : option Z) :
  evicts (OClearCache id) x = false ->
  maintains (single x w0) (FamiLinx.clear_cache id).
Proof.
  unfold evicts. intros He w (Hext & Hnew).
  destruct (FamiLinx.truthy id) eqn:Ht; [|discriminate He].
  destruct id as [i|]; [|discriminate Ht].
  apply Z.eqb_neq in He.
  assert (Hi : i <> 0%Z).
  { intros ->. discriminate Ht. }
  rewrite (clear_cache_nonzero i w Hi). simpl.
  split; [exact Hext|].
  intros r Hr Hid. simpl. rewrite lookup_delete_ne by congruence.
  now apply Hnew.
Qed.

(** The entries of the registry stay sound under every call. *)
Lemma sound_execute (A : Type) (rows : list A) :
  maintains registry_sound (execute rows).
Proof. intros w H. exact H. Qed.

Lemma sound_cache_update (p : ref)
    (g : gmap string Value -> gmap string Value) :
  maintains registry_sound (CachedProperty.cache_update p g).
Proof.
  intros w Hreg j r. rewrite people_cache_update, id_of_cache_update.
  apply Hreg.
Qed.

Lemma sound_get_person (id : Z) :
  maintains registry_sound (FamiLinx.get_person id).
Proof.
  intros w Hreg.
  destruct (get_person_registry id w Hreg) as (r & w' & E & _ & H & _).
  now rewrite E.
Qed.

Lemma sound_clear_cache (id : option Z) :
  maintains registry_sound (FamiLinx.clear_cache id).
Proof.
  intros w Hreg j r. unfold FamiLinx.clear_cache.
  destruct (FamiLinx.truthy id).
  - destruct id as [i|]; [|apply Hreg]. simpl.
    destruct (people w !! i); [|apply Hreg].
    intros Hj. apply lookup_delete_Some in Hj as [_ Hj]. now apply Hreg.
  - simpl. now rewrite lookup_empty.
Qed.

Lemma sound_run_ops (rt : Runtime) (db : DataStore) (ops : list Op)
    (w : World) :
  registry_sound w -> registry_sound (run_ops rt db ops w).
Proof.
  revert w. unfold run_ops.
  induction ops as [|op ops IH]; intros w H; simpl; [exact H|].
  apply IH. apply maintains_run_op; [| | | |exact H].
  - apply sound_execute.
  - apply sound_cache_update.
  - apply sound_get_person.
  - intros id _. apply sound_clear_cache.
Qed.

Lemma single_run_ops (rt : Runtime) (db : DataStore) (x : Z) (w0 : World)
    (ops : list Op) (w : World) :
  Forall (fun op => evicts op x = false) ops ->
  single x w0 w ->
  single x w0 (run_ops rt db ops w).
Proof.
  intros Hops. revert w. unfold run_ops.
  induction Hops as [|op ops Hop _ IH]; intros w H; simpl; [exact H|].
  apply IH. apply maintains_run_op; [| | | |exact H].
  - intros A rows. apply single_execute.
  - apply single_cache_update.
  - apply single_get_person.
  - intros id ->. now apply single_clear_cache.
Qed.

(** The lookup that a comprehension makes for the row at place [k]. *)
Lemma mapM_get_person_at (x : Z) (ids : list Z) :
  forall (w w' : World) (rs : list ref) (k : nat) (r : ref),
    mapM FamiLinx.get_person ids w = (Ok rs, w') ->
    ids !! k = Some x ->
    rs !! k = Some r ->
    people w' !! x = Some r /\
    forall r0 : ref, people w !! x = Some r0 -> r = r0.
Proof.
  induction ids as [|id ids IH]; intros w w' rs k r E Hk Hr.
  - rewrite lookup_nil in Hk. discriminate Hk.
  - simpl in E. unfold bind in E.
    destruct (get_person_registers id w) as (a & Ea & Hreg).
    destruct (FamiLinx.get_person id w) as [[a'|e] w1] eqn:E1;
      simpl in Ea; [|discriminate Ea].
    injection Ea as ->. simpl in Hreg.
    destruct (mapM FamiLinx.get_person ids w1) as [[rs'|e] w2] eqn:E2;
      [|discriminate E].
    injection E as <- <-.
    destruct k as [|k]; simpl in Hk, Hr.
    + injection Hk as ->. injection Hr as ->. split.
      * pose proof (keeps_mapM x r FamiLinx.get_person ids
                      (keeps_get_person x r) w1 Hreg) as H.
        now rewrite E2 in H.
      * intros r0 H0.
        rewrite (get_person_registered x r0 w H0) in E1.
        now injection E1 as -> _.
    + destruct (IH w1 w2 rs' k r E2 Hk Hr) as [H1 H2].
      split; [exact H1|]. intros r0 H0. apply H2.
      pose proof (keeps_get_person x r0 id w H0) as H.
      now rewrite E1 in H.
Qed.

(** A read of [children] or [parents] that finds nothing cached, seen as
    the lookups it makes. *)
Lemma read_relatives_at (key : string) (select : Z -> list Z)
    (method : ref -> M Value) (x : Z) (p : ref) (o : PersonObj)
    (w w' : World) (rs : list ref) (k : nat) (r : ref) :
  (forall w0 o0, heap w0 !! p = Some o0 ->
     method p w0
     = match mapM FamiLinx.get_person (select (person_id o0))
               (queried w0) with
       | (Ok rs0, w2) => (Ok (VList (map VPerson rs0)), w2)
       | (Raise e, w2) => (Raise e, w2)
       end) ->
  heap w !! p = Some o ->
  cached_properties o !! key = None ->
  CachedProperty.getter key method p w
  = (Ok (VList (map VPerson rs)), w') ->
  select (person_id o) !! k = Some x ->
  rs !! k = Some r ->
  people w' !! x = Some r /\
  forall r0 : ref, people w !! x = Some r0 -> r = r0.
Proof.
  intros Hmethod Hp Hk E Hrow Hr.
  rewrite (getter_miss key method w p o Hp Hk), (Hmethod w o Hp) in E.
  destruct (mapM FamiLinx.get_person (select (person_id o)) (queried w))
    as [[rs0|e] w2] eqn:Em; [|discriminate E].
  pose proof (people_cache_update p (insert key (VList (map VPerson rs0)))
                w2) as Hpeople.
  destruct (CachedProperty.cache_update p
              (insert key (VList (map VPerson rs0))) w2)
    as [[[]|e] w3]; [|discriminate E].
  injection E as Erows <-. simpl in Hpeople.
  assert (rs0 = rs) as ->.
  { apply (f_equal Person.persons_of) in Erows.
    rewrite !persons_of_map in Erows. now injection Erows. }
  rewrite Hpeople.
  exact (mapM_get_person_at x _ (queried w) w2 rs k r Em Hrow Hr).
Qed.

(** After a lookup of [x] the registry holds what it gave, and it gave
    what the registry held. *)
Lemma lookup_registers (db : DataStore) (x : Z) (r : ref) (w w' : World) :
  lookup db x r w w' ->
  people w' !! x = Some r /\
  forall r0 : ref, people w !! x = Some r0 -> r = r0.
Proof.
  intros [E|p o rs k Hp Hk E Hrow Hr|p o rs k Hp Hk E Hrow Hr].
  - destruct (get_person_registers x w) as (a & Ea & Hreg).
    rewrite E in Ea, Hreg. simpl in Ea, Hreg. injection Ea as <-.
    split; [exact Hreg|]. intros r0 H0.
    rewrite (get_person_registered x r0 w H0) in E. now injection E as ->.
  - exact (read_relatives_at "children" (select_child_ids db)
             (Person.children_method db) x p o w w' rs k r
             (fun w0 o0 => children_method_eq db p w0 o0) Hp Hk E Hrow Hr).
  - exact (read_relatives_at "parents" (select_parent_ids db)
             (Person.parents_method db) x p o w w' rs k r
             (fun w0 o0 => parents_method_eq db p w0 o0) Hp Hk E Hrow Hr).
Qed.

(** A lookup maintains what the three primitives maintain. *)
Lemma lookup_maintains (db : DataStore) (I : World -> Prop) (x : Z)
    (r : ref) (w w' : World) :
  (forall (A : Type) (rows : list A), maintains I (execute rows)) ->
  (forall (p : ref) (g : gmap string Value -> gmap string Value),
     maintains I (CachedProperty.cache_update p g)) ->
  (forall id : Z, maintains I (FamiLinx.get_person id)) ->
  I w -> lookup db x r w w' -> I w'.
Proof.
  intros Hex Hcu Hgp H
    [E|p o rs k Hp Hk E Hrow Hr|p o rs k Hp Hk E Hrow Hr].
  - pose proof (Hgp x w H) as H'. now rewrite E in H'.
  - pose proof (maintains_field_get db I Hex Hcu Hgp FChildren p w H)
      as H'.
    unfold field_get in H'. simpl in H'.
    unfold Person.children in E. now rewrite E in H'.
  - pose proof (maintains_field_get db I Hex Hcu Hgp FParents p w H)
      as H'.
    unfold field_get in H'. simpl in H'.
    unfold Person.parents in E. now rewrite E in H'.
Qed.

(** An eviction of [x] leaves the instances alone and the id [x] without
    an entry. *)
Lemma clear_cache_evicts (x : Z) (id : option Z) (w : World) (r : ref) :
  evicts (OClearCache id) x = true ->
  people w !! x = Some r ->
  heap (snd (FamiLinx.clear_cache id w)) = heap w /\
  people (snd (FamiLinx.clear_cache id w)) !! x = None.
Proof.
  unfold evicts. intros He Hx.
  destruct (FamiLinx.truthy id) eqn:Ht.
  - destruct id as [i|]; [|discriminate He].
    apply Z.eqb_eq in He. subst i.
    assert (Hx0 : x <> 0%Z) by (intros ->; discriminate Ht).
    rewrite (clear_cache_nonzero x w Hx0). simpl.
    split; [reflexivity | apply lookup_delete_eq].
  - unfold FamiLinx.clear_cache. rewrite Ht. simpl.
    split; [reflexivity | apply lookup_empty].
Qed.

(** C4, amended.  On one registry, take a lookup of the id [x] that gave
    the instance [r1], made by the caller with [get_person(x)] or made
    inside a read of [children] or [parents] for a row [x], and then any
    calls, none of which evicts [x] (lookups of any id, reads,
    assignments and invalidations of fields, partners, descendants, walk,
    evictions of other ids).  Then [get_person(x)] returns [r1] and
    allocates nothing; every lookup of [x] made next, by the caller or
    inside a read of [children] or [parents], gives [r1]; whatever these
    calls did inside, traversals included, no second instance with the id
    [x] was made: an instance with the id [x] is [r1] or was there before
    the first lookup; and, the entries of the registry being sound, after
    an eviction of [x] the next [get_person(x)] makes a new instance,
    while [r1] is still there, unchanged. *)
Theorem get_person_stable (rt : Runtime) (db : DataStore) (ops : list Op)
    (x : Z) (w w1 : World) (r1 : ref) :
  lookup db x r1 w w1 ->
  Forall (fun op => evicts op x = false) ops ->
  let w2 := run_ops rt db ops w1 in
  FamiLinx.get_person x w2 = (Ok r1, w2) /\
  (forall (r2 : ref) (w3 : World), lookup db x r2 w2 w3 -> r2 = r1) /\
  (forall r' : ref,
     id_of w2 r' = Some x -> r' = r1 \/ id_of w r' = Some x) /\
  (registry_sound w ->
   forall id : option Z,
     evicts (OClearCache id) x = true ->
     exists (r' : ref) (w4 : World),
       FamiLinx.get_person x (run_op rt db (OClearCache id) w2)
       = (Ok r', w4) /\
       r' <> r1 /\
       heap w4 !! r' = Some (FamiLinx.new_person x) /\
       heap w4 !! r1 = heap w2 !! r1 /\
       id_of w4 r1 = Some x).
Proof.
  intros Hlook Hops w2.
  destruct (lookup_registers db x r1 w w1 Hlook) as [Hr1 _].
  pose proof (lookup_maintains db (single x w) x r1 w w1
                (single_execute x w) (single_cache_update x w)
                (single_get_person x w) (single_refl x w) Hlook) as Hs1.
  pose proof (single_run_ops rt db x w ops w1 Hops Hs1) as Hs2.
  fold w2 in Hs2. destruct Hs2 as (Hext2 & Hnew2).
  assert (H2 : people w2 !! x = Some r1) by now apply run_ops_keeps.
  split; [now apply get_person_registered|].
  split; [|split].
  - intros r2 w3 Hl. destruct (lookup_registers db x r2 w2 w3 Hl) as [_ H].
    now apply H.
  - intros r' Hid.
    destruct (le_lt_dec (length (heap w)) r') as [Hge|Hlt].
    + left. pose proof (Hnew2 r' Hge Hid) as H. congruence.
    + right. destruct (lookup_lt_is_Some_2 (heap w) r' Hlt) as [o Ho].
      assert (Hi : id_of w r' = Some (person_id o))
        by (unfold id_of; now rewrite Ho).
      rewrite (Hext2 _ _ Hi) in Hid. now rewrite <- Hid.
  - intros Hreg id He. simpl.
    pose proof (lookup_maintains db registry_sound x r1 w w1
                  sound_execute sound_cache_update sound_get_person
                  Hreg Hlook) as Hreg1.
    pose proof (sound_run_ops rt db ops w1 Hreg1 x r1 H2) as Hid1.
    fold w2 in Hid1.
    destruct (clear_cache_evicts x id w2 r1 He H2) as [Hh Hp].
    set (w3 := snd (FamiLinx.clear_cache id w2)) in *.
    unfold FamiLinx.get_person. rewrite Hp.
    eexists _, _. split; [reflexivity|]. simpl. rewrite Hh.
    apply id_of_Some in Hid1 as (o1 & Ho1 & Hx1).
    assert (Hlt : r1 < length (heap w2)) by now apply lookup_lt_Some in Ho1.
    split; [lia|]. split; [now rewrite list_lookup_middle|].
    split; [now rewrite (lookup_app_l_Some _ _ _ _ Ho1)|].
    unfold id_of. simpl.
    rewrite (lookup_app_l_Some _ _ _ _ Ho1). simpl. now rewrite Hx1.
Qed.

(** Person 1 of the family example: the first read of its children looks
    up the ids 3 and 4; the instance made for 3 is the one every later
    lookup of 3 gives, after traversals, an eviction of 4 and a new read
    of the children. *)
Lemma get_person_stable_witness :
  let ops := [ODescendants 10 0; OPartners 0;
              OWalk 40 100 0 None (Some 1%Z); OClearCache (Some 4%Z);
              OGetPerson 4; OInvalidate FChildren 0] in
  let w1 := snd (Person.children family_store 0 (world_with 1)) in
  let w2 := run_ops example_runtime family_store ops w1 in
  FamiLinx.get_person 3 w2 = (Ok 1, w2) /\
  (forall (r2 : ref) (w3 : World),
     lookup family_store 3 r2 w2 w3 -> r2 = 1) /\
  (forall r' : ref,
     id_of w2 r' = Some 3%Z -> r' = 1 \/ id_of (world_with 1) r' = Some 3%Z) /\
  (registry_sound (world_with 1) ->
   forall id : option Z,
     evicts (OClearCache id) 3 = true ->
     exists (r' : ref) (w4 : World),
       FamiLinx.get_person 3
         (run_op example_runtime family_store (OClearCache id) w2)
       = (Ok r', w4) /\
       r' <> 1 /\
       heap w4 !! r' = Some (FamiLinx.new_person 3) /\
       heap w4 !! 1 = heap w2 !! 1 /\
       id_of w4 1 = Some 3%Z).
Proof.
  intros ops w1 w2.
  apply (get_person_stable example_runtime family_store ops 3%Z
           (world_with 1) w1 1).
  - apply (lookup_children family_store 3 1 (world_with 1) w1 0
             (FamiLinx.new_person 1) [1; 2] 0); reflexivity.
  - repeat constructor.
Defined.

(** ** walk with a predicate: the loop on identifiers *)

Lemma relax_ids_keys (ns : list Z) (dist : Z) :
  forall d : list (Z * Z),
    (forall x, ids_get d x <> None ->
               ids_get (relax_ids ns dist d) x <> None) /\
    (forall x, In x ns -> ids_get (relax_ids ns dist d) x <> None).
Proof.
  unfold relax_ids. induction ns as [|n ns IH]; intros d; simpl.
  - split; [auto | intros x []].
  - set (d1 := ids_set d n
                 (Z.min (default (dist + 1)%Z (ids_get d n)) (dist + 1)%Z)).
    destruct (IH d1) as [Hkeep Hnew]. split.
    + intros x Hx. apply Hkeep. unfold d1. rewrite ids_get_set.
      destruct (Z.eqb n x); [discriminate | exact Hx].
    + intros x [<-|Hx]; [|now apply Hnew].
      apply Hkeep. unfold d1. rewrite ids_get_set, Z.eqb_refl. discriminate.
Qed.

Lemma passes_accepted (db : DataStore) (h : Z -> bool) (start x : Z) :
  passes db h start x -> h x = true.
Proof. now intros [s _ H|a c _ _ H]. Qed.

Lemma test_inv_init (db : DataStore) (h : Z -> bool) (start : Z) :
  test_inv db h start (start :: neighbor_ids db start) []
    (ids_set (init_ids (neighbor_ids db start) []) start 0).
Proof.
  destruct (walk_inv_init db start None) as (_ & Hkeys & _).
  split; [constructor|]. split; [exact Hkeys|].
  split; [intros x []|]. split; [|split].
  - intros x [<-|Hx]; [now left|]. right. left. now apply In_neighbor_ids.
  - intros s [->|Hs] _; right; [now left|].
    right. now apply In_neighbor_ids.
  - intros a c [].
Qed.

(** The popped id is dropped: it was visited, or the test rejects it. *)
Lemma test_inv_drop (db : DataStore) (h : Z -> bool) (start : Z)
    (q : list Z) (i : Z) (v : list Z) (d : list (Z * Z)) :
  test_inv db h start (q ++ [i]) v d ->
  In i v \/ h i = false ->
  test_inv db h start q v d.
Proof.
  intros (Hnd & Hkeys & Hvis & Hq & Hseed & Hclosed) Hwhy.
  assert (Hin : forall c, h c = true -> In c v \/ In c (q ++ [i]) ->
                          In c v \/ In c q).
  { intros c Hc [H|H]; [now left|].
    apply in_app_or in H as [H|[<-|[]]]; [now right|].
    destruct Hwhy as [Hv|Hf]; [now left | congruence]. }
  split; [exact Hnd|]. split; [|split; [exact Hvis|split; [|split]]].
  - intros x Hx. apply Hkeys, in_or_app. now left.
  - intros x Hx. apply Hq, in_or_app. now left.
  - intros s Hs Hh. apply (Hin s Hh). now apply Hseed.
  - intros a c Ha Hac Hh. apply (Hin c Hh). now apply (Hclosed a).
Qed.

(** The popped id is visited. *)
Lemma test_inv_visit (db : DataStore) (h : Z -> bool) (start : Z)
    (q : list Z) (i : Z) (v : list Z) (d : list (Z * Z)) (dist : Z) :
  test_inv db h start (q ++ [i]) v d ->
  ~ In i v ->
  h i = true ->
  test_inv db h start (q ++ neighbor_ids db i) (v ++ [i])
    (relax_ids (neighbor_ids db i) dist d).
Proof.
  intros (Hnd & Hkeys & Hvis & Hq & Hseed & Hclosed) Hni Hi.
  destruct (relax_ids_keys (neighbor_ids db i) dist d) as [Hkeep Hnew].
  assert (Hpi : passes db h start i).
  { destruct (Hq i) as [->|[Hl|(a & Ha & Hl)]].
    - apply in_or_app. right. now left.
    - apply passes_seed; [now left | exact Hi].
    - apply passes_seed; [now right | exact Hi].
    - apply (passes_next db h start a i); [now apply Hvis | exact Hl
                                          | exact Hi]. }
  assert (Hin : forall c, In c v \/ In c (q ++ [i]) ->
                          In c (v ++ [i]) \/ In c (q ++ neighbor_ids db i)).
  { intros c [H|H].
    - left. apply in_or_app. now left.
    - apply in_app_or in H as [H|[<-|[]]].
      + right. apply in_or_app. now left.
      + left. apply in_or_app. right. now left. }
  split; [|split; [|split; [|split; [|split]]]].
  - apply NoDup_app. split; [exact Hnd|]. split; [|apply NoDup_singleton].
    intros x Hx Hx'. apply list_elem_of_In in Hx.
    apply list_elem_of_singleton in Hx'. now subst.
  - intros x Hx. apply in_app_or in Hx as [Hx|Hx]; [|now apply Hnew].
    apply Hkeep, Hkeys, in_or_app. now left.
  - intros x Hx. apply in_app_or in Hx as [Hx|[<-|[]]];
      [now apply Hvis | exact Hpi].
  - intros x Hx. apply in_app_or in Hx as [Hx|Hx].
    + destruct (Hq x) as [H|[H|(a & Ha & Hl)]].
      * apply in_or_app. now left.
      * now left.
      * right. now left.
      * right. right. exists a. split; [|exact Hl].
        apply in_or_app. now left.
    + right. right. exists i. split.
      * apply in_or_app. right. now left.
      * now apply In_neighbor_ids.
  - intros s Hs Hh. apply Hin. now apply Hseed.
  - intros a c Ha Hac Hh. apply in_app_or in Ha as [Ha|[<-|[]]].
    + apply Hin. now apply (Hclosed a).
    + right. apply in_or_app. right. now apply In_neighbor_ids.
Qed.

(** With the invariant and enough fuel the loop on identifiers returns,
    and the invariant holds of what it returns. *)
Lemma walk_test_ids_exact (db : DataStore) (h : Z -> bool) (start : Z)
    (fuel : nat) :
  forall (q v : list Z) (d : list (Z * Z)),
    test_inv db h start q v d ->
    length q + pending_ends db v < fuel ->
    exists (res : list Z) (d' : list (Z * Z)),
      walk_test_ids db fuel h q v d v = Ok (Some res) /\
      test_inv db h start [] res d'.
Proof.
  induction fuel as [|fuel IH]; intros q v d Hinv Hfuel; [lia|].
  simpl. pose proof (list_pop_inv q) as Hpop.
  destruct (list_pop q) as [[q' i]|]; [|subst q; now exists v, d].
  subst q. rewrite length_app in Hfuel. simpl in Hfuel.
  destruct (existsb (fun j => Z.eqb j i) v) eqn:Hi.
  - apply IH; [|lia]. apply (test_inv_drop db h start q' i v d Hinv).
    left. now apply existsb_eqb_In.
  - assert (Hni : ~ In i v).
    { intros H. apply existsb_eqb_In in H. congruence. }
    destruct (h i) eqn:Hh.
    + pose proof Hinv as (_ & Hkeys & _).
      destruct (ids_get d i) as [dist|] eqn:Hg.
      2:{ exfalso. apply (Hkeys i); [|exact Hg]. apply in_or_app. right.
          now left. }
      apply IH.
      * now apply test_inv_visit.
      * rewrite length_app.
        pose proof (pending_ends_visit db v i Hi). lia.
    + apply IH; [|lia]. apply (test_inv_drop db h start q' i v d Hinv).
      now right.
Qed.

(** When the queue is empty the visited ids are the ids that pass. *)
Lemma test_inv_done (db : DataStore) (h : Z -> bool) (start : Z)
    (v : list Z) (d : list (Z * Z)) :
  test_inv db h start [] v d ->
  NoDup v /\ forall x : Z, In x v <-> passes db h start x.
Proof.
  intros (Hnd & _ & Hvis & _ & Hseed & Hclosed).
  split; [exact Hnd|]. intros x. split; [apply Hvis|].
  induction 1 as [s Hs Hh|a c _ IH Hac Hh].
  - destruct (Hseed s Hs Hh) as [H|[]]. exact H.
  - destruct (Hclosed a c IH Hac Hh) as [H|[]]. exact H.
Qed.

(** ** walk with a predicate: the loop on the heap *)

(** The body of the loop once the popped instance passed the test. *)
Lemma walk_test_visit_sim (rt : Runtime) (db : DataStore) (depth : nat)
    (f : ref -> M bool) (h : Z -> bool) (radius : Z) (fuel : nat) :
  walk_test_sim_at rt db depth f h radius fuel ->
  forall (qr vr : list ref) (dr : list (ref * Z)) (outr : list ref)
         (q v : list Z) (d : list (Z * Z)) (out : list Z) (w : World)
         (x : ref) (i : Z),
    consistent db w ->
    has_ids w qr q -> has_ids w vr v -> has_dict w dr d ->
    has_ids w outr out ->
    id_of w x = Some i ->
    existsb (fun j => Z.eqb j i) v = false ->
    let run :=
      (let* visited' := set_add (Person.__hash__ rt) Person.person_eq vr x in
       let* neighbors := Person.neighbors_of db x in
       let* dist := dict_getitem (Person.__hash__ rt) Person.person_eq
                      dr x in
       let* dists' := Person.dists_relax rt neighbors dist dr in
       Person.walk_loop rt db fuel depth (Some (Person.UserPredicate f))
         radius (qr ++ neighbors) visited' dists' (outr ++ [x])) w in
    cache_kept w (snd run) /\
    consistent db (snd run) /\
    agrees
      match ids_get d i with
      | None => Raise KeyError
      | Some dist =>
          walk_test_ids db fuel h (q ++ neighbor_ids db i) (v ++ [i])
            (relax_ids (neighbor_ids db i) dist d) (out ++ [i])
      end run.
Proof.
  intros IH qr vr dr outr q v d out w x i Hcon Hq Hv Hd Hout Hx Hi run.
  destruct (neighbors_of_spec db w x i Hcon Hx)
    as (ns & w1 & E & Hns & Hcon1 & Hk1).
  pose proof (cache_kept_extends _ _ Hk1) as He1.
  pose proof (dict_getitem_ids rt w1 dr d x i (He1 _ _ Hx)
                (has_dict_extends _ _ _ _ He1 Hd)) as Eg.
  destruct (ids_get d i) as [dist|].
  - destruct (dists_relax_ids rt w1 ns (neighbor_ids db i) dist Hns dr d
                (has_dict_extends _ _ _ _ He1 Hd)) as (d' & Er & Hd').
    assert (Erun : run
                   = Person.walk_loop rt db fuel depth
                       (Some (Person.UserPredicate f)) radius (qr ++ ns)
                       (vr ++ [x]) d' (outr ++ [x]) w1).
    { unfold run, bind.
      rewrite (set_add_ids rt w vr v x i Hx Hv), Hi, E, Eg, Er.
      reflexivity. }
    rewrite Erun.
    destruct (IH (qr ++ ns) (vr ++ [x]) d' (outr ++ [x])
                (q ++ neighbor_ids db i) (v ++ [i])
                (relax_ids (neighbor_ids db i) dist d) (out ++ [i]) w1 Hcon1)
      as (Hk & Hcon' & Hag).
    + apply Forall2_app; [now apply (has_ids_extends w w1) | exact Hns].
    + apply Forall2_app; [now apply (has_ids_extends w w1)|].
      constructor; [now apply He1 | constructor].
    + exact Hd'.
    + apply Forall2_app; [now apply (has_ids_extends w w1)|].
      constructor; [now apply He1 | constructor].
    + split; [now apply (cache_kept_trans w w1)|]. now split.
  - assert (Erun : run = (Raise KeyError, w1)).
    { unfold run, bind.
      rewrite (set_add_ids rt w vr v x i Hx Hv), Hi, E, Eg. reflexivity. }
    rewrite Erun. simpl. split; [exact Hk1|]. split; [exact Hcon1|].
    reflexivity.
Qed.

Lemma walk_test_loop_sim (rt : Runtime) (db : DataStore) (depth : nat)
    (f : ref -> M bool) (h : Z -> bool) (radius : Z) (fuel : nat) :
  tests_id db f h ->
  walk_test_sim_at rt db (S depth) f h radius fuel.
Proof.
  intros Hf. induction fuel as [|fuel IH];
    intros qr vr dr outr q v d out w Hcon Hq Hv Hd Hout.
  - simpl. split; [apply cache_kept_refl|]. now split.
  - cbn [walk_test_ids]. pose proof (list_pop_inv q) as Hpop.
    destruct (list_pop q) as [[q' i]|].
    + subst q. apply Forall2_app_inv_r in Hq as (qr' & xs & Hq' & Hx & ->).
      apply Forall2_cons_inv_r in Hx as (x & xs' & Hx & Hnil & ->).
      apply Forall2_nil_inv_r in Hnil as ->.
      pose proof (set_contains_ids rt w vr v x i Hx Hv) as Es.
      destruct (existsb (fun j => Z.eqb j i) v) eqn:Hi.
      * replace (Person.walk_loop rt db (S fuel) (S depth)
                   (Some (Person.UserPredicate f)) radius (qr' ++ [x]) vr dr
                   outr w)
          with (Person.walk_loop rt db fuel (S depth)
                  (Some (Person.UserPredicate f)) radius qr' vr dr outr w).
        { now apply IH. }
        cbn [Person.walk_loop]. rewrite list_pop_snoc. unfold bind.
        now rewrite Es.
      * destruct (Hf x w i Hcon Hx) as (w1 & Ef & Hk1 & Hcon1).
        pose proof (cache_kept_extends _ _ Hk1) as He1.
        destruct (h i) eqn:Hh.
        -- pose proof (walk_test_visit_sim rt db (S depth) f h radius fuel
                         IH qr' vr dr outr q' v d out w1 x i Hcon1
                         (has_ids_extends _ _ _ _ He1 Hq')
                         (has_ids_extends _ _ _ _ He1 Hv)
                         (has_dict_extends _ _ _ _ He1 Hd)
                         (has_ids_extends _ _ _ _ He1 Hout)
                         (He1 _ _ Hx) Hi) as Hvisit.
           cbv zeta in Hvisit.
           match type of Hvisit with
           | context [agrees _ ?run] =>
               replace (Person.walk_loop rt db (S fuel) (S depth)
                          (Some (Person.UserPredicate f)) radius
                          (qr' ++ [x]) vr dr outr w) with run
           end.
           { destruct Hvisit as (Hk & Hcon' & Hag).
             split; [now apply (cache_kept_trans w w1)|]. now split. }
           cbn [Person.walk_loop]. rewrite list_pop_snoc.
           unfold bind. rewrite Es. cbv beta iota.
           cbn [Person.call_visitable]. rewrite Ef. reflexivity.
        -- replace (Person.walk_loop rt db (S fuel) (S depth)
                      (Some (Person.UserPredicate f)) radius (qr' ++ [x]) vr
                      dr outr w)
             with (Person.walk_loop rt db fuel (S depth)
                     (Some (Person.UserPredicate f)) radius qr' vr dr outr
                     w1).
           { destruct (IH qr' vr dr outr q' v d out w1 Hcon1
                         (has_ids_extends _ _ _ _ He1 Hq')
                         (has_ids_extends _ _ _ _ He1 Hv)
                         (has_dict_extends _ _ _ _ He1 Hd)
                         (has_ids_extends _ _ _ _ He1 Hout))
               as (Hk & Hcon' & Hag).
             split; [now apply (cache_kept_trans w w1)|]. now split. }
           cbn [Person.walk_loop]. rewrite list_pop_snoc.
           unfold bind. rewrite Es. cbv beta iota.
           cbn [Person.call_visitable]. now rewrite Ef.
    + subst q. apply Forall2_nil_inv_r in Hq as ->. simpl.
      split; [apply cache_kept_refl|]. now split.
Qed.

(** [q.is_founder] is a test of the id: whether the parents query has no
    row for it. *)
Lemma is_founder_tests_id (db : DataStore) :
  tests_id db (Person.is_founder db)
    (fun i => match select_parent_ids db i with [] => true | _ => false end).
Proof.
  intros q w i Hcon Hq.
  destruct (parents_list_spec db w q i Hcon Hq)
    as (ps & w' & E & Hps & Hcon' & _).
  pose proof (frames_parents_list db q w) as Hk. rewrite E in Hk.
  exists w'. unfold Person.is_founder, bind. rewrite E.
  split; [|now split]. unfold ret. do 2 f_equal.
  unfold has_ids in Hps. now destruct Hps.
Qed.

(** X13.  [walk] with a predicate and no radius (or the radius zero), in
    a consistent world, when the predicate answers [h(q.id)] on every
    instance [q] (reading lazy fields on the way if it wants to, as
    [q.is_founder] does, but dropping nothing that is cached and leaving
    the world consistent): [walk] returns within
    [2 + neighbours of the start + 2 * rows] iterations; it yields no id
    twice; the ids it yields are exactly the ids that pass, that is the
    start and its neighbours when [h] accepts them and every id that [h]
    accepts and that a row joins to an id that passes; so [h] accepts
    every id yielded and the predicate answers true on every instance
    yielded. *)
Theorem walk_predicate_filter (rt : Runtime) (db : DataStore) (w : World)
    (p : ref) (o : PersonObj) (fuel depth : nat) (f : ref -> M bool)
    (h : Z -> bool) (radius : option Z) :
  tests_id db f h ->
  consistent db w ->
  heap w !! p = Some o ->
  FamiLinx.truthy radius = false ->
  0 < depth ->
  S (length (neighbor_ids db (person_id o))) + 2 * length (relationship db)
  < fuel ->
  exists (out : list ref) (ids : list Z) (w' : World),
    Person.walk rt db fuel depth p (Some f) radius w
    = (Ok (Some out), w') /\
    has_ids w' out ids /\
    NoDup ids /\
    (forall x : Z, In x ids <-> passes db h (person_id o) x) /\
    (forall x : Z, In x ids -> h x = true) /\
    (forall x : ref, In x out -> fst (f x w') = Ok true).
Proof.
  intros Hf Hcon Hp Hr Hdepth Hfuel.
  destruct depth as [|depth]; [lia|].
  assert (Hi : id_of w p = Some (person_id o)).
  { apply id_of_Some. now exists o. }
  destruct (neighbors_of_spec db w p (person_id o) Hcon Hi)
    as (ns & w1 & E & Hns & Hcon1 & Hk1).
  pose proof (cache_kept_extends _ _ Hk1 _ _ Hi) as Hi1.
  destruct (dists_init_ids rt w1 ns _ Hns [] []) as (d0 & Ed0 & Hd0);
    [constructor|].
  destruct (dict_setitem_ids rt w1 d0 _ p (person_id o) 0%Z Hi1 Hd0)
    as (d1 & Ed1 & Hd1).
  destruct (walk_test_ids_exact db h (person_id o) fuel
              (person_id o :: neighbor_ids db (person_id o)) [] _
              (test_inv_init db h (person_id o)))
    as (ids & d & Hrun & Hinv).
  { pose proof (pending_ends_bound db []). simpl. lia. }
  destruct (walk_test_loop_sim rt db depth f h (default 0%Z radius) fuel Hf
              (p :: ns) [] d1 []
              (person_id o :: neighbor_ids db (person_id o)) []
              (ids_set (init_ids (neighbor_ids db (person_id o)) [])
                 (person_id o) 0%Z) [] w1 Hcon1)
    as (_ & Hcon' & Hag); [now constructor | constructor | exact Hd1
                          | constructor |].
  rewrite Hrun in Hag. unfold agrees in Hag.
  assert (Ecell : Person.bind_visitable (Some f) radius
                  = Some (Person.UserPredicate f)).
  { unfold Person.bind_visitable. now rewrite Hr. }
  unfold Person.walk, bind. rewrite E, Ed0, Ed1, Ecell.
  destruct (Person.walk_loop rt db fuel (S depth)
              (Some (Person.UserPredicate f)) (default 0%Z radius)
              (p :: ns) [] d1 [] w1)
    as [[[out|]|e] w'] eqn:Eloop; simpl in Hag, Hcon'; try contradiction.
  destruct (test_inv_done db h (person_id o) ids d Hinv) as [Hnd Hiff].
  assert (Hacc : forall x, In x ids -> h x = true).
  { intros x Hx. apply (passes_accepted db h (person_id o)).
    now apply Hiff. }
  exists out, ids, w'. split; [reflexivity|]. split; [exact Hag|].
  split; [exact Hnd|]. split; [exact Hiff|]. split; [exact Hacc|].
  intros x Hx. unfold has_ids in Hag.
  apply list_elem_of_In in Hx.
  destruct (list_elem_of_lookup_1 _ _ Hx) as [k Hk].
  destruct (Forall2_lookup_l _ _ _ _ _ Hag Hk) as (i & Hik & Hxi).
  destruct (Hf x w' i Hcon' Hxi) as (w'' & Ef & _).
  rewrite Ef. simpl. f_equal. apply Hacc.
  apply list_elem_of_In. now apply (list_elem_of_lookup_2 _ k).
Qed.

(** Person 1 of the family example with [visitable = lambda q:
    q.is_founder]: the start is a founder, its neighbours 3 and 4 are
    not, and the founder 2 is joined to the start only through them. *)
Lemma walk_predicate_filter_witness :
  let h := fun i : Z =>
             match select_parent_ids family_store i with
             | [] => true
             | _ => false
             end in
  exists (out : list ref) (ids : list Z) (w' : World),
    Person.walk example_runtime family_store 20 1000 0
      (Some (Person.is_founder family_store)) None (world_with 1)
    = (Ok (Some out), w') /\
    has_ids w' out ids /\
    NoDup ids /\
    (forall x : Z, In x ids <-> passes family_store h 1 x) /\
    (forall x : Z, In x ids -> h x = true) /\
    (forall x : ref,
       In x out -> fst (Person.is_founder family_store x w') = Ok true).
Proof.
  intros h.
  apply (walk_predicate_filter example_runtime family_store (world_with 1)
           0 (FamiLinx.new_person 1) 20 1000
           (Person.is_founder family_store) h None).
  - apply is_founder_tests_id.
  - exact (proj1 (consistent_world_with family_store 1)).
  - reflexivity.
  - reflexivity.
  - lia.
  - vm_compute. lia.
Defined.
